(** * A shallow embedding of the chess rules engine and of the search bot

    The development follows [src/js/engine.js] (module [ChessEngine]) and the
    bot module ([ChessBot]: [evaluate], [orderMoves], [minimax],
    [getBestMove]).  JavaScript numbers that hold board coordinates, clocks
    and scores are integers ([Z]); the two infinities used by the search are
    added explicitly.  A JavaScript run can end in a [TypeError] (a property
    read on [undefined] or [null]); this is an outcome of the model. *)

From Stdlib Require Import ZArith List Bool Ascii String Lia.
From Stdlib Require Import DecimalString DecimalPos DecimalN DecimalZ DecimalFacts.
From Stdlib Require Import Permutation Sorted.
Import ListNotations.
Open Scope Z_scope.

Set Implicit Arguments.

(** ** Outcomes of a run *)

(** [Ok a]: the call returns [a].
    [TypeError]: the call throws (a property of [undefined]/[null] is read
    or written).
    [OutOfModel]: JavaScript goes on, but with a value this model has no
    term for (a board row that is not an 8-cell array any more, a piece
    letter outside the six kinds, a number that is not a safe integer).
    [OutOfFuel]: a loop or a recursion was cut by the bound of the model. *)
Inductive Res (A : Type) : Type :=
| Ok (a : A)
| TypeError
| OutOfModel
| OutOfFuel.

Arguments Ok {A} a.
Arguments TypeError {A}.
Arguments OutOfModel {A}.
Arguments OutOfFuel {A}.

Definition bind {A B : Type} (m : Res A) (k : A -> Res B) : Res B :=
  match m with
  | Ok a => k a
  | TypeError => TypeError
  | OutOfModel => OutOfModel
  | OutOfFuel => OutOfFuel
  end.

Notation "x <- m ;; k" := (bind m (fun x => k))
  (at level 61, m at next level, right associativity).

(** [a && b] and [a || b] of JavaScript: the right operand is only
    evaluated when the left one does not decide. *)
Definition andR (a b : Res bool) : Res bool :=
  x <- a ;; if x then b else Ok false.

Definition orR (a b : Res bool) : Res bool :=
  x <- a ;; if x then Ok true else b.

(** A loop that returns [true] at the first element whose test succeeds. *)
Fixpoint anyR {A : Type} (f : A -> Res bool) (l : list A) : Res bool :=
  match l with
  | [] => Ok false
  | x :: l' => b <- f x ;; if b then Ok true else anyR f l'
  end.

(** A loop whose body pushes moves on a shared array: the pushes of every
    iteration, in order. *)
Fixpoint forEach {A B : Type} (f : A -> Res (list B)) (l : list A)
  : Res (list B) :=
  match l with
  | [] => Ok []
  | x :: l' => xs <- f x ;; ys <- forEach f l' ;; Ok (xs ++ ys)
  end.

(** A loop that keeps the elements passing a test ([continue] otherwise). *)
Fixpoint filterR {A : Type} (f : A -> Res bool) (l : list A) : Res (list A) :=
  match l with
  | [] => Ok []
  | x :: l' =>
      b <- f x ;; ys <- filterR f l' ;; Ok (if b then x :: ys else ys)
  end.

(** ** Data model *)

Inductive Color : Type := WHITE | BLACK.

Inductive PieceType : Type := PAWN | KNIGHT | BISHOP | ROOK | QUEEN | KING.

Record Piece : Type := mkPiece { color : Color; type : PieceType }.

(** A cell of the board: [null] is [None]. *)
Definition Cell : Type := option Piece.

Definition Board : Type := list (list Cell).

Record Square : Type := mkSquare { row : Z; col : Z }.

(** [move.castling] is ['K'], ['Q'] or absent. *)
Inductive CastleSide : Type := SideK | SideQ.

Record Move : Type := mkMove {
  from : Square;
  to : Square;
  promotion : option PieceType;
  isEnPassant : bool;
  castlingSide : option CastleSide
}.

(** [state.castling]: the four rights. *)
Record Castling : Type := mkCastling { wK : bool; wQ : bool; bK : bool; bQ : bool }.

(** ['1-0'], ['0-1'], ['1/2-1/2']. *)
Inductive Outcome : Type := WhiteWins | BlackWins | Draw.

Record HistoryEntry : Type := mkHistoryEntry {
  move : Move;
  captured : Cell;
  prevCastling : Castling;
  prevEnPassant : option Square
}.

Record Captured : Type := mkCaptured { capW : list PieceType; capB : list PieceType }.

Record GameState : Type := mkState {
  board : Board;
  turn : Color;
  castling : Castling;
  enPassant : option Square;
  halfMoveClock : Z;
  fullMoveNumber : Z;
  moveHistory : list HistoryEntry;
  capturedPieces : Captured;
  moveNotations : list string;
  gameOver : bool;
  result : option Outcome
}.

Definition color_eqb (a b : Color) : bool :=
  match a, b with
  | WHITE, WHITE | BLACK, BLACK => true
  | _, _ => false
  end.

Definition type_eqb (a b : PieceType) : bool :=
  match a, b with
  | PAWN, PAWN | KNIGHT, KNIGHT | BISHOP, BISHOP
  | ROOK, ROOK | QUEEN, QUEEN | KING, KING => true
  | _, _ => false
  end.

(** [castling[color + 'K']] and [castling[color + 'Q']]. *)
Definition right (cs : Castling) (c : Color) (side : CastleSide) : bool :=
  match c, side with
  | WHITE, SideK => wK cs
  | WHITE, SideQ => wQ cs
  | BLACK, SideK => bK cs
  | BLACK, SideQ => bQ cs
  end.

(** [castling[color + side] = false]. *)
Definition clearRight (cs : Castling) (c : Color) (side : CastleSide) : Castling :=
  match c, side with
  | WHITE, SideK => mkCastling false (wQ cs) (bK cs) (bQ cs)
  | WHITE, SideQ => mkCastling (wK cs) false (bK cs) (bQ cs)
  | BLACK, SideK => mkCastling (wK cs) (wQ cs) false (bQ cs)
  | BLACK, SideQ => mkCastling (wK cs) (wQ cs) (bK cs) false
  end.

(** ** Arrays *)

(** [board[r]]: [undefined] outside the array. *)
Definition rowAt (b : Board) (r : Z) : option (list Cell) :=
  if 0 <=? r then nth_error b (Z.to_nat r) else None.

(** [board[r][c]] read: a [TypeError] when [board[r]] is [undefined];
    [undefined] (falsy, like [null]) when the row has no index [c]. *)
Definition cellAt (b : Board) (r c : Z) : Res Cell :=
  match rowAt b r with
  | None => TypeError
  | Some rw => Ok (if 0 <=? c then nth (Z.to_nat c) rw None else None)
  end.

Fixpoint setNth {A : Type} (n : nat) (x : A) (l : list A) : list A :=
  match l, n with
  | [], _ => []
  | _ :: l', O => x :: l'
  | y :: l', S n' => y :: setNth n' x l'
  end.

(** [board[r][c] = v]: a [TypeError] when [board[r]] is [undefined]; a write
    at an index the row does not have would grow the row or add a property
    to it, which leaves the model. *)
Definition setCell (b : Board) (r c : Z) (v : Cell) : Res Board :=
  match rowAt b r with
  | None => TypeError
  | Some rw =>
      if (0 <=? c) && (c <? Z.of_nat (List.length rw))
      then Ok (setNth (Z.to_nat r) (setNth (Z.to_nat c) v rw) b)
      else OutOfModel
  end.

Definition idx8 : list Z := [0; 1; 2; 3; 4; 5; 6; 7].

(** ** Helpers *)

Definition inBounds (r c : Z) : bool :=
  (0 <=? r) && (r <? 8) && (0 <=? c) && (c <? 8).

Definition cloneBoard (b : Board) : Board :=
  map (fun rw : list Cell =>
         map (fun cell : Cell =>
                match cell with
                | Some p => Some (mkPiece (color p) (type p))
                | None => None
                end) rw) b.

Definition cloneState (state : GameState) : GameState :=
  mkState (cloneBoard (board state))
          (turn state)
          (mkCastling (wK (castling state)) (wQ (castling state))
                      (bK (castling state)) (bQ (castling state)))
          (match enPassant state with
           | Some e => Some (mkSquare (row e) (col e))
           | None => None
           end)
          (halfMoveClock state)
          (fullMoveNumber state)
          (map (fun h => h) (moveHistory state))
          (mkCaptured (map (fun k => k) (capW (capturedPieces state)))
                      (map (fun k => k) (capB (capturedPieces state))))
          (map (fun n => n) (moveNotations state))
          (gameOver state)
          (result state).

Definition opponent (c : Color) : Color :=
  match c with WHITE => BLACK | BLACK => WHITE end.

Fixpoint findKingRow (b : Board) (c : Color) (r : Z) (cs : list Z)
  : Res (option Square) :=
  match cs with
  | [] => Ok None
  | cc :: cs' =>
      p <- cellAt b r cc ;;
      match p with
      | Some pc =>
          if color_eqb (color pc) c && type_eqb (type pc) KING
          then Ok (Some (mkSquare r cc))
          else findKingRow b c r cs'
      | None => findKingRow b c r cs'
      end
  end.

Fixpoint findKingRows (b : Board) (c : Color) (rs : list Z)
  : Res (option Square) :=
  match rs with
  | [] => Ok None
  | r :: rs' =>
      k <- findKingRow b c r idx8 ;;
      match k with
      | Some sq => Ok (Some sq)
      | None => findKingRows b c rs'
      end
  end.

Definition findKing (b : Board) (c : Color) : Res (option Square) :=
  findKingRows b c idx8.

(** ** Pseudo-legal move generation *)

Definition simpleMove (f t : Square) : Move := mkMove f t None false None.

(** [[QUEEN, ROOK, BISHOP, KNIGHT].forEach(promo => moves.push(...))]. *)
Definition promoMoves (f t : Square) : list Move :=
  map (fun promo => mkMove f t (Some promo) false None)
      [QUEEN; ROOK; BISHOP; KNIGHT].

(** One direction of [slideMoves]: the [while (inBounds(r, c))] loop. *)
Fixpoint slideRay (fuel : nat) (b : Board) (c : Color) (f : Square)
         (dr dc r cc : Z) : Res (list Move) :=
  if negb (inBounds r cc) then Ok []
  else
    match fuel with
    | O => OutOfFuel
    | S fuel' =>
        p <- cellAt b r cc ;;
        match p with
        | Some pc =>
            Ok (if negb (color_eqb (color pc) c)
                then [simpleMove f (mkSquare r cc)] else [])
        | None =>
            rest <- slideRay fuel' b c f dr dc (r + dr) (cc + dc) ;;
            Ok (simpleMove f (mkSquare r cc) :: rest)
        end
    end.

Definition slideMoves (b : Board) (c : Color) (f : Square)
           (dirs : list (Z * Z)) : Res (list Move) :=
  forEach (fun d : Z * Z =>
             slideRay 8 b c f (fst d) (snd d)
                      (row f + fst d) (col f + snd d)) dirs.

Definition knightOffsets : list (Z * Z) :=
  [(-2, -1); (-2, 1); (-1, -2); (-1, 2); (1, -2); (1, 2); (2, -1); (2, 1)].

Definition diagDirs : list (Z * Z) := [(-1, -1); (-1, 1); (1, -1); (1, 1)].

Definition straightDirs : list (Z * Z) := [(-1, 0); (1, 0); (0, -1); (0, 1)].

Definition queenDirs : list (Z * Z) :=
  [(-1, -1); (-1, 1); (1, -1); (1, 1); (-1, 0); (1, 0); (0, -1); (0, 1)].

(** [!board[nr][nc] || board[nr][nc].color !== color]. *)
Definition freeFor (c : Color) (p : Cell) : bool :=
  match p with
  | None => true
  | Some pc => negb (color_eqb (color pc) c)
  end.

Definition pawnMoves (state : GameState) (c : Color) (r cc : Z)
  : Res (list Move) :=
  let b := board state in
  let dir := match c with WHITE => -1 | BLACK => 1 end in
  let startRow := match c with WHITE => 6 | BLACK => 1 end in
  let promoRow := match c with WHITE => 0 | BLACK => 7 end in
  let f := mkSquare r cc in
  let nr := r + dir in
  forward <-
    (if inBounds nr cc then
       t <- cellAt b nr cc ;;
       match t with
       | Some _ => Ok []
       | None =>
           let single :=
             if nr =? promoRow then promoMoves f (mkSquare nr cc)
             else [simpleMove f (mkSquare nr cc)] in
           let nr2 := r + 2 * dir in
           double <-
             (if r =? startRow then
                t2 <- cellAt b nr2 cc ;;
                Ok (match t2 with
                    | None => [simpleMove f (mkSquare nr2 cc)]
                    | Some _ => []
                    end)
              else Ok []) ;;
           Ok (single ++ double)
       end
     else Ok []) ;;
  captures <-
    forEach (fun dc : Z =>
               let nc := cc + dc in
               if negb (inBounds nr nc) then Ok []
               else
                 target <- cellAt b nr nc ;;
                 let capture :=
                   match target with
                   | Some tp =>
                       if negb (color_eqb (color tp) c) then
                         if nr =? promoRow then promoMoves f (mkSquare nr nc)
                         else [simpleMove f (mkSquare nr nc)]
                       else []
                   | None => []
                   end in
                 let ep :=
                   match enPassant state with
                   | Some e =>
                       if (row e =? nr) && (col e =? nc)
                       then [mkMove f (mkSquare nr nc) None true None]
                       else []
                   | None => []
                   end in
                 Ok (capture ++ ep))
            [-1; 1] ;;
  Ok (forward ++ captures).

Definition knightMoves (b : Board) (c : Color) (r cc : Z) : Res (list Move) :=
  forEach (fun d : Z * Z =>
             let nr := r + fst d in
             let nc := cc + snd d in
             if negb (inBounds nr nc) then Ok []
             else
               t <- cellAt b nr nc ;;
               Ok (if freeFor c t
                   then [simpleMove (mkSquare r cc) (mkSquare nr nc)]
                   else []))
          knightOffsets.

(** A castling candidate: the right is set, the squares in [empties] are
    empty and the rook of the side stands on column [rookCol]. *)
Definition castleCandidate (state : GameState) (c : Color) (rw : Z)
           (side : CastleSide) (empties : list Z) (rookCol kingTo : Z)
  : Res (list Move) :=
  let b := board state in
  ok <-
    andR (Ok (right (castling state) c side))
         (andR (x <- anyR (fun e => t <- cellAt b rw e ;;
                                    Ok (match t with Some _ => true | None => false end))
                          empties ;;
                Ok (negb x))
               (t <- cellAt b rw rookCol ;;
                Ok (match t with
                    | Some rk => type_eqb (type rk) ROOK && color_eqb (color rk) c
                    | None => false
                    end))) ;;
  Ok (if ok
      then [mkMove (mkSquare rw 4) (mkSquare rw kingTo) None false (Some side)]
      else []).

Definition kingMoves (state : GameState) (c : Color) (r cc : Z)
  : Res (list Move) :=
  let b := board state in
  steps <-
    forEach (fun dr : Z =>
               forEach (fun dc : Z =>
                          if (dr =? 0) && (dc =? 0) then Ok []
                          else
                            let nr := r + dr in
                            let nc := cc + dc in
                            if negb (inBounds nr nc) then Ok []
                            else
                              t <- cellAt b nr nc ;;
                              Ok (if freeFor c t
                                  then [simpleMove (mkSquare r cc) (mkSquare nr nc)]
                                  else []))
                       [-1; 0; 1])
            [-1; 0; 1] ;;
  let rw := match c with WHITE => 7 | BLACK => 0 end in
  castles <-
    (if (r =? rw) && (cc =? 4) then
       ks <- castleCandidate state c rw SideK [5; 6] 7 6 ;;
       qs <- castleCandidate state c rw SideQ [3; 2; 1] 0 2 ;;
       Ok (ks ++ qs)
     else Ok []) ;;
  Ok (steps ++ castles).

(** The body of the two nested loops of [getPseudoMoves] at square
    [(r, cc)]. *)
Definition squareMoves (state : GameState) (c : Color) (r cc : Z)
  : Res (list Move) :=
  p <- cellAt (board state) r cc ;;
  match p with
  | None => Ok []
  | Some pc =>
      if negb (color_eqb (color pc) c) then Ok []
      else
        match type pc with
        | PAWN => pawnMoves state c r cc
        | KNIGHT => knightMoves (board state) c r cc
        | BISHOP => slideMoves (board state) c (mkSquare r cc) diagDirs
        | ROOK => slideMoves (board state) c (mkSquare r cc) straightDirs
        | QUEEN => slideMoves (board state) c (mkSquare r cc) queenDirs
        | KING => kingMoves state c r cc
        end
  end.

Definition getPseudoMoves (state : GameState) (c : Color) : Res (list Move) :=
  forEach (fun r => forEach (fun cc => squareMoves state c r cc) idx8) idx8.

(** ** Attack detection *)

(** [inBounds(r, c) && board[r][c] && board[r][c].color === byColor &&
    board[r][c].type === k]. *)
Definition holds (b : Board) (r c : Z) (byColor : Color) (k : PieceType)
  : Res bool :=
  andR (Ok (inBounds r c))
       (t <- cellAt b r c ;;
        Ok (match t with
            | Some pc => color_eqb (color pc) byColor && type_eqb (type pc) k
            | None => false
            end)).

(** The offsets the two nested loops [dr = -1..1], [dc = -1..1] of the king
    check visit, [(0, 0)] skipped. *)
Definition kingOffsets : list (Z * Z) :=
  [(-1, -1); (-1, 0); (-1, 1); (0, -1); (0, 1); (1, -1); (1, 0); (1, 1)].

(** One direction of the sliding checks of [isSquareAttacked]: [true] when
    the first occupied square holds a [byColor] piece of kind [k1] or
    [k2]. *)
Fixpoint attackRay (fuel : nat) (b : Board) (byColor : Color)
         (k1 k2 : PieceType) (dr dc r c : Z) : Res bool :=
  if negb (inBounds r c) then Ok false
  else
    match fuel with
    | O => OutOfFuel
    | S fuel' =>
        p <- cellAt b r c ;;
        match p with
        | Some pc =>
            Ok (color_eqb (color pc) byColor
                && (type_eqb (type pc) k1 || type_eqb (type pc) k2))
        | None => attackRay fuel' b byColor k1 k2 dr dc (r + dr) (c + dc)
        end
    end.

Definition isSquareAttacked (b : Board) (r c : Z) (byColor : Color)
  : Res bool :=
  orR (anyR (fun d : Z * Z => holds b (r + fst d) (c + snd d) byColor KNIGHT)
            knightOffsets)
  (orR (anyR (fun d : Z * Z => holds b (r + fst d) (c + snd d) byColor KING)
             kingOffsets)
  (let pawnDir := match byColor with WHITE => 1 | BLACK => -1 end in
   orR (anyR (fun dc : Z => holds b (r + pawnDir) (c + dc) byColor PAWN)
             [-1; 1])
  (orR (anyR (fun d : Z * Z =>
                attackRay 8 b byColor BISHOP QUEEN (fst d) (snd d)
                          (r + fst d) (c + snd d))
             diagDirs)
       (anyR (fun d : Z * Z =>
                attackRay 8 b byColor ROOK QUEEN (fst d) (snd d)
                          (r + fst d) (c + snd d))
             straightDirs)))).

Definition isInCheck (b : Board) (c : Color) : Res bool :=
  king <- findKing b c ;;
  match king with
  | None => Ok false
  | Some k => isSquareAttacked b (row k) (col k) (opponent c)
  end.

(** ** Legal moves *)

Definition applyMoveToBoard (b : Board) (m : Move) : Res Board :=
  piece <- cellAt b (row (from m)) (col (from m)) ;;
  b1 <- setCell b (row (from m)) (col (from m)) None ;;
  b2 <- (if isEnPassant m
         then setCell b1 (row (from m)) (col (to m)) None
         else Ok b1) ;;
  b3 <- (match castlingSide m with
         | Some SideK =>
             rook <- cellAt b2 (row (from m)) 7 ;;
             b' <- setCell b2 (row (from m)) 5 rook ;;
             setCell b' (row (from m)) 7 None
         | Some SideQ =>
             rook <- cellAt b2 (row (from m)) 0 ;;
             b' <- setCell b2 (row (from m)) 3 rook ;;
             setCell b' (row (from m)) 0 None
         | None => Ok b2
         end) ;;
  match promotion m with
  | Some promo =>
      match piece with
      | Some pc => setCell b3 (row (to m)) (col (to m))
                           (Some (mkPiece (color pc) promo))
      | None => TypeError
      end
  | None => setCell b3 (row (to m)) (col (to m)) piece
  end.

(** The castling test of [getLegalMoves]: [false] stands for [continue]. *)
Definition castlingAllowed (state : GameState) (c : Color) (m : Move)
  : Res bool :=
  match castlingSide m with
  | None => Ok true
  | Some side =>
      chk <- isInCheck (board state) c ;;
      if chk then Ok false
      else
        let rw := row (from m) in
        let '(c1, c2) := match side with SideK => (5, 6) | SideQ => (3, 2) end in
        a1 <- isSquareAttacked (board state) rw c1 (opponent c) ;;
        if a1 then Ok false
        else
          a2 <- isSquareAttacked (board state) rw c2 (opponent c) ;;
          Ok (negb a2)
  end.

Definition isLegal (state : GameState) (c : Color) (m : Move) : Res bool :=
  pass <- castlingAllowed state c m ;;
  if pass then
    newBoard <- applyMoveToBoard (cloneBoard (board state)) m ;;
    chk <- isInCheck newBoard c ;;
    Ok (negb chk)
  else Ok false.

(** [getLegalMoves(state, color)]; [colorArg = None] is the call without a
    second argument ([color = color || state.turn]). *)
Definition getLegalMoves (state : GameState) (colorArg : option Color)
  : Res (list Move) :=
  let c := match colorArg with Some c => c | None => turn state end in
  pseudoMoves <- getPseudoMoves state c ;;
  filterR (isLegal state c) pseudoMoves.

(** ** Notation *)

(** [String.fromCharCode(n)], for the code units that are ASCII. *)
Definition fromCharCode (n : Z) : Res string :=
  if (0 <=? n) && (n <? 128)
  then Ok (String (ascii_of_nat (Z.to_nat n)) EmptyString)
  else OutOfModel.

(** A number that holds an integer, converted to a string. *)
Definition numToString (n : Z) : string :=
  NilZero.string_of_int (Z.to_int n).

(** The one-letter string that is the [type] of a piece. *)
Definition typeLetter (k : PieceType) : string :=
  match k with
  | PAWN => "P" | KNIGHT => "N" | BISHOP => "B"
  | ROOK => "R" | QUEEN => "Q" | KING => "K"
  end%string.

Definition colLetter (c : Z) : Res string := fromCharCode (97 + c).

(** The filter of [getMoveNotation]: the other pseudo-legal moves of a piece
    of the same kind to the same square. *)
Definition samePiece (state : GameState) (m : Move) (piece : Piece)
           (x : Move) : Res bool :=
  andR (Ok ((row (to x) =? row (to m)) && (col (to x) =? col (to m))))
       (t <- cellAt (board state) (row (from x)) (col (from x)) ;;
        Ok (match t with
            | Some q =>
                type_eqb (type q) (type piece)
                && (negb (row (from x) =? row (from m))
                    || negb (col (from x) =? col (from m)))
            | None => false
            end)).

Definition getMoveNotation (state : GameState) (m : Move) (piece : Piece)
           (capt : Cell) : Res string :=
  match castlingSide m with
  | Some SideK => Ok "O-O"%string
  | Some SideQ => Ok "O-O-O"%string
  | None =>
      n1 <-
        (if negb (type_eqb (type piece) PAWN) then
           pseudo <- getPseudoMoves state (color piece) ;;
           samePieceMoves <- filterR (samePiece state m piece) pseudo ;;
           dis <-
             (match samePieceMoves with
              | [] => Ok EmptyString
              | _ :: _ =>
                  let sameCol :=
                    existsb (fun x => col (from x) =? col (from m)) samePieceMoves in
                  let sameRow :=
                    existsb (fun x => row (from x) =? row (from m)) samePieceMoves in
                  if negb sameCol then colLetter (col (from m))
                  else if negb sameRow then Ok (numToString (8 - row (from m)))
                  else
                    l <- colLetter (col (from m)) ;;
                    Ok (l ++ numToString (8 - row (from m)))%string
              end) ;;
           Ok (typeLetter (type piece) ++ dis)%string
         else Ok EmptyString) ;;
      n2 <-
        (if (match capt with Some _ => true | None => false end) || isEnPassant m
         then
           pre <- (if type_eqb (type piece) PAWN
                   then l <- colLetter (col (from m)) ;; Ok (n1 ++ l)%string
                   else Ok n1) ;;
           Ok (pre ++ "x")%string
         else Ok n1) ;;
      l <- colLetter (col (to m)) ;;
      let n3 := (n2 ++ (l ++ numToString (8 - row (to m))))%string in
      Ok (match promotion m with
          | Some promo => (n3 ++ ("=" ++ typeLetter promo))%string
          | None => n3
          end)
  end.

(** ** Draw detection *)

Record Material : Type := mkMaterial { mType : PieceType; mRow : Z; mCol : Z }.

(** The pushes on [pieces[c]] by the scan of [isInsufficientMaterial]. *)
Definition nonKings (b : Board) (c : Color) : Res (list Material) :=
  forEach (fun r =>
             forEach (fun cc =>
                        p <- cellAt b r cc ;;
                        Ok (match p with
                            | Some pc =>
                                if negb (type_eqb (type pc) KING)
                                   && color_eqb (color pc) c
                                then [mkMaterial (type pc) r cc]
                                else []
                            | None => []
                            end))
                     idx8)
          idx8.

Definition minor (k : PieceType) : bool :=
  type_eqb k BISHOP || type_eqb k KNIGHT.

Definition isInsufficientMaterial (b : Board) : Res bool :=
  wp <- nonKings b WHITE ;;
  bp <- nonKings b BLACK ;;
  Ok (match wp, bp with
      | [], [] => true
      | [], [x] => minor (mType x)
      | [x], [] => minor (mType x)
      | [x], [y] =>
          if type_eqb (mType x) BISHOP && type_eqb (mType y) BISHOP
          then ((mRow x + mCol x) mod 2 =? (mRow y + mCol y) mod 2)
          else false
      | _, _ => false
      end).

(** ** Make move *)

(** [capturedPieces[c].push(k)]. *)
Definition pushCaptured (cp : Captured) (c : Color) (k : PieceType) : Captured :=
  match c with
  | WHITE => mkCaptured (capW cp ++ [k]) (capB cp)
  | BLACK => mkCaptured (capW cp) (capB cp ++ [k])
  end.

(** The castling rights after a move of [piece] from column [fromCol] to
    column [toCol] that captures [capt]. *)
Definition updateCastling (cs : Castling) (piece : Piece) (capt : Cell)
           (fromCol toCol : Z) : Castling :=
  let cs1 :=
    if type_eqb (type piece) KING
    then clearRight (clearRight cs (color piece) SideK) (color piece) SideQ
    else cs in
  let cs2 :=
    if type_eqb (type piece) ROOK then
      let a := if fromCol =? 0 then clearRight cs1 (color piece) SideQ else cs1 in
      if fromCol =? 7 then clearRight a (color piece) SideK else a
    else cs1 in
  match capt with
  | Some cp =>
      if type_eqb (type cp) ROOK then
        let a := if toCol =? 0 then clearRight cs2 (color cp) SideQ else cs2 in
        if toCol =? 7 then clearRight a (color cp) SideK else a
      else cs2
  | None => cs2
  end.

(** A call [makeMove(state, move)].  The first component of the result is
    what the object [state] of the caller holds when the call returns, the
    second is the returned value ([None] for [null]).  [newState] is the
    fresh object made by [cloneState]; every assignment of the function
    goes to it. *)
Definition makeMoveCall (state : GameState) (m : Move)
  : Res (GameState * option GameState) :=
  let newState := cloneState state in
  piece <- cellAt (board newState) (row (from m)) (col (from m)) ;;
  match piece with
  | None => Ok (state, None)
  | Some pc =>
      capt <- cellAt (board newState) (row (to m)) (col (to m)) ;;
      notation <- getMoveNotation newState m pc capt ;;
      let caps1 :=
        match capt with
        | Some cp => pushCaptured (capturedPieces newState) (color cp) (type cp)
        | None => capturedPieces newState
        end in
      let caps2 :=
        if isEnPassant m then pushCaptured caps1 (opponent (color pc)) PAWN
        else caps1 in
      board' <- applyMoveToBoard (board newState) m ;;
      let enPassant' :=
        if type_eqb (type pc) PAWN
           && (Z.abs (row (to m) - row (from m)) =? 2)
        then Some (mkSquare ((row (from m) + row (to m)) / 2) (col (from m)))
        else None in
      let castling' :=
        updateCastling (castling newState) pc capt (col (from m)) (col (to m)) in
      let halfMoveClock' :=
        if type_eqb (type pc) PAWN
           || (match capt with Some _ => true | None => false end)
           || isEnPassant m
        then 0 else halfMoveClock newState + 1 in
      let fullMoveNumber' :=
        if color_eqb (color pc) BLACK then fullMoveNumber newState + 1
        else fullMoveNumber newState in
      let turn' := opponent (color pc) in
      let moveHistory' :=
        moveHistory newState
        ++ [mkHistoryEntry m capt
              (mkCastling (wK (castling state)) (wQ (castling state))
                          (bK (castling state)) (bQ (castling state)))
              (enPassant state)] in
      let moved :=
        mkState board' turn' castling' enPassant' halfMoveClock'
                fullMoveNumber' moveHistory' caps2 (moveNotations newState)
                (gameOver newState) (result newState) in
      opponentMoves <- getLegalMoves moved (Some (turn moved)) ;;
      inCheck <- isInCheck (board moved) (turn moved) ;;
      let '(finalNotation, over1, result1) :=
        match opponentMoves with
        | [] =>
            if inCheck
            then ((notation ++ "#")%string, true,
                  Some (if color_eqb (color pc) WHITE then WhiteWins else BlackWins))
            else (notation, true, Some Draw)
        | _ :: _ =>
            if inCheck then ((notation ++ "+")%string, gameOver moved, result moved)
            else (notation, gameOver moved, result moved)
        end in
      insufficient <-
        (if negb over1 then isInsufficientMaterial (board moved) else Ok false) ;;
      let '(over2, result2) :=
        if negb over1 && insufficient then (true, Some Draw)
        else (over1, result1) in
      let '(over3, result3) :=
        if negb over2 && (100 <=? halfMoveClock moved) then (true, Some Draw)
        else (over2, result2) in
      Ok (state,
          Some (mkState board' turn' castling' enPassant' halfMoveClock'
                        fullMoveNumber' moveHistory' caps2
                        (moveNotations newState ++ [finalNotation])
                        over3 result3))
  end.

Definition makeMove (state : GameState) (m : Move) : Res (option GameState) :=
  r <- makeMoveCall state m ;; Ok (snd r).

(** ** FEN *)

(** [s.split(sep)] for a one-character separator. *)
Fixpoint split (sep : ascii) (s : string) : list string :=
  match s with
  | EmptyString => [EmptyString]
  | String ch s' =>
      if Ascii.eqb ch sep then EmptyString :: split sep s'
      else
        match split sep s' with
        | [] => [String ch EmptyString]
        | w :: ws => String ch w :: ws
        end
  end.

(** [/\d/.test(ch)]. *)
Definition isDigit (ch : ascii) : bool :=
  let n := Z.of_nat (nat_of_ascii ch) in (48 <=? n) && (n <=? 57).

Definition digitVal (ch : ascii) : Z := Z.of_nat (nat_of_ascii ch) - 48.

(** The piece pushed for a character that is not a digit:
    [color = ch === ch.toUpperCase() ? WHITE : BLACK], [type =
    ch.toUpperCase()].  A character that is not one of the twelve piece
    letters gives an object whose [type] is none of the six kinds. *)
Definition pieceOfChar (ch : ascii) : Res Piece :=
  match ch with
  | "P"%char => Ok (mkPiece WHITE PAWN)
  | "N"%char => Ok (mkPiece WHITE KNIGHT)
  | "B"%char => Ok (mkPiece WHITE BISHOP)
  | "R"%char => Ok (mkPiece WHITE ROOK)
  | "Q"%char => Ok (mkPiece WHITE QUEEN)
  | "K"%char => Ok (mkPiece WHITE KING)
  | "p"%char => Ok (mkPiece BLACK PAWN)
  | "n"%char => Ok (mkPiece BLACK KNIGHT)
  | "b"%char => Ok (mkPiece BLACK BISHOP)
  | "r"%char => Ok (mkPiece BLACK ROOK)
  | "q"%char => Ok (mkPiece BLACK QUEEN)
  | "k"%char => Ok (mkPiece BLACK KING)
  | _ => OutOfModel
  end.

(** The inner loop of [parseFEN] over the characters of one rank. *)
Fixpoint parseRow (s : string) : Res (list Cell) :=
  match s with
  | EmptyString => Ok []
  | String ch s' =>
      cells <-
        (if isDigit ch then Ok (repeat (None : Cell) (Z.to_nat (digitVal ch)))
         else p <- pieceOfChar ch ;; Ok [Some p]) ;;
      rest <- parseRow s' ;;
      Ok (cells ++ rest)
  end.

(** The value of the leading decimal digits of [s], most significant
    first, after the digits already read ([acc]). *)
Fixpoint digitsValue (acc : Z) (s : string) : Z :=
  match s with
  | EmptyString => acc
  | String ch s' =>
      if isDigit ch then digitsValue (10 * acc + digitVal ch) s' else acc
  end.

Definition isSpaceOrSign (ch : ascii) : bool :=
  let n := Z.of_nat (nat_of_ascii ch) in
  ((9 <=? n) && (n <=? 13)) || (n =? 32) || (n =? 43) || (n =? 45) || (128 <=? n).

(** [parseInt(s)] on a string ([None] is [NaN]).  The model follows the
    decimal case: the number of the longest prefix of digits, [NaN] when
    the string does not start with a digit.  Leading white space, a sign,
    the prefix [0x] and values that are not safe integers are left out. *)
Definition parseInt (s : string) : Res (option Z) :=
  match s with
  | EmptyString => Ok None
  | String ch s' =>
      if isDigit ch then
        match ch, s' with
        | "0"%char, String "x"%char _ => OutOfModel
        | "0"%char, String "X"%char _ => OutOfModel
        | _, _ =>
            let v := digitsValue 0 s in
            if v <? 2 ^ 53 then Ok (Some v) else OutOfModel
        end
      else if isSpaceOrSign ch then OutOfModel
      else Ok None
  end.

(** [parseInt(parts[i])]: [parseInt(undefined)] is [NaN]. *)
Definition parseIntPart (p : option string) : Res (option Z) :=
  match p with
  | None => Ok None
  | Some s => parseInt s
  end.

(** [x || d] on a number: [NaN] and [0] are falsy. *)
Definition orElse (x : option Z) (d : Z) : Z :=
  match x with
  | None => d
  | Some v => if v =? 0 then d else v
  end.

(** [s.includes(ch)]. *)
Fixpoint includes (s : string) (ch : ascii) : bool :=
  match s with
  | EmptyString => false
  | String x s' => Ascii.eqb x ch || includes s' ch
  end.

(** [parts[i] || d] on a string: [undefined] and [''] are falsy. *)
Definition partOr (p : option string) (d : string) : string :=
  match p with
  | None | Some EmptyString => d
  | Some s => s
  end.

Record Parsed : Type := mkParsed {
  pBoard : Board;
  pTurn : Color;
  pCastling : Castling;
  pEnPassant : option Square;
  pHalfMoveClock : Z;
  pFullMoveNumber : Z
}.

(** The en-passant field of [parseFEN]:
    [if (parts[3] && parts[3] !== '-') enPassant = { col: parts[3].charCodeAt(0) - 97,
    row: 8 - parseInt(parts[3][1]) }], for a second character that is a
    digit. *)
Definition parseEnPassant (p : option string) : Res (option Square) :=
  match p with
  | None | Some EmptyString => Ok None
  | Some (String c0 rest as p3) =>
      if String.eqb p3 "-" then Ok None
      else
        match rest with
        | String c1 _ =>
            if isDigit c1
            then Ok (Some (mkSquare (8 - digitVal c1)
                                    (Z.of_nat (nat_of_ascii c0) - 97)))
            else OutOfModel
        | EmptyString => OutOfModel
        end
  end.

Definition parseFEN (fen : string) : Res Parsed :=
  let parts := split " " fen in
  let rows := split "/" (nth 0 parts EmptyString) in
  b <- forEach (fun r : Z =>
                  match nth_error rows (Z.to_nat r) with
                  | None => TypeError
                  | Some s => rw <- parseRow s ;; Ok [rw]
                  end) idx8 ;;
  let turn' :=
    if String.eqb (partOr (nth_error parts 1) "w") "w" then WHITE else BLACK in
  let castleStr := partOr (nth_error parts 2) "KQkq" in
  let castling' :=
    mkCastling (includes castleStr "K") (includes castleStr "Q")
               (includes castleStr "k") (includes castleStr "q") in
  enPassant' <- parseEnPassant (nth_error parts 3) ;;
  hm <- parseIntPart (nth_error parts 4) ;;
  fm <- parseIntPart (nth_error parts 5) ;;
  Ok (mkParsed b turn' castling' enPassant' (orElse hm 0) (orElse fm 1)).

Definition stateFromFEN (fen : string) : Res GameState :=
  parsed <- parseFEN fen ;;
  Ok (mkState (pBoard parsed) (pTurn parsed) (pCastling parsed)
              (pEnPassant parsed) (pHalfMoveClock parsed)
              (pFullMoveNumber parsed)
              [] (mkCaptured [] []) [] false None).

(** [p.color === WHITE ? p.type : p.type.toLowerCase()]. *)
Definition pieceChar (p : Piece) : string :=
  match color p, type p with
  | WHITE, k => typeLetter k
  | BLACK, PAWN => "p" | BLACK, KNIGHT => "n" | BLACK, BISHOP => "b"
  | BLACK, ROOK => "r" | BLACK, QUEEN => "q" | BLACK, KING => "k"
  end%string.

(** [if (empty > 0) fen += empty]. *)
Definition flushEmpty (empty : Z) : string :=
  if 0 <? empty then numToString empty else EmptyString.

(** The characters appended to [fen] by the inner loop of [boardToFEN] on
    rank [r], from column list [cs] on, with the running count [empty]. *)
Fixpoint fenRow (b : Board) (r : Z) (cs : list Z) (empty : Z) : Res string :=
  match cs with
  | [] => Ok (flushEmpty empty)
  | c :: cs' =>
      p <- cellAt b r c ;;
      match p with
      | None => fenRow b r cs' (empty + 1)
      | Some pc =>
          rest <- fenRow b r cs' 0 ;;
          Ok (flushEmpty empty ++ (pieceChar pc ++ rest))%string
      end
  end.

Fixpoint fenRows (b : Board) (rs : list Z) : Res string :=
  match rs with
  | [] => Ok EmptyString
  | r :: rs' =>
      s <- fenRow b r idx8 0 ;;
      rest <- fenRows b rs' ;;
      Ok (s ++ ((if (r <? 7)%Z then "/" else "") ++ rest))%string
  end.

Definition colorLetter (c : Color) : string :=
  match c with WHITE => "w" | BLACK => "b" end%string.

Definition castleLetters (cs : Castling) : string :=
  ((if wK cs then "K" else "") ++ (if wQ cs then "Q" else "")
   ++ (if bK cs then "k" else "") ++ (if bQ cs then "q" else ""))%string.

Definition boardToFEN (state : GameState) : Res string :=
  placement <- fenRows (board state) idx8 ;;
  let castle := castleLetters (castling state) in
  ep <-
    (match enPassant state with
     | Some e =>
         l <- fromCharCode (97 + col e) ;;
         Ok (l ++ numToString (8 - row e))%string
     | None => Ok "-"%string
     end) ;;
  Ok (placement ++ " " ++ colorLetter (turn state)
      ++ " " ++ (match castle with EmptyString => "-" | _ => castle end)
      ++ " " ++ ep
      ++ " " ++ numToString (halfMoveClock state)
      ++ " " ++ numToString (fullMoveNumber state))%string.

(** [createInitialState()]. *)
Definition createInitialState : Res GameState :=
  parsed <- parseFEN "rnbqkbnr/pppppppp/8/8/8/8/PPPPPPPP/RNBQKBNR" ;;
  Ok (mkState (pBoard parsed) WHITE (mkCastling true true true true) None
              0 1 [] (mkCaptured [] []) [] false None).

(** ** The bot: static evaluation *)

Definition PIECE_VALUE (k : PieceType) : Z :=
  match k with
  | PAWN => 100 | KNIGHT => 320 | BISHOP => 330
  | ROOK => 500 | QUEEN => 900 | KING => 20000
  end.

(** Piece-square tables, from White's side. *)
Definition PST (k : PieceType) : list (list Z) :=
  match k with
  | PAWN =>
      [ [0; 0; 0; 0; 0; 0; 0; 0];
        [50; 50; 50; 50; 50; 50; 50; 50];
        [10; 10; 20; 30; 30; 20; 10; 10];
        [5; 5; 10; 25; 25; 10; 5; 5];
        [0; 0; 0; 20; 20; 0; 0; 0];
        [5; -5; -10; 0; 0; -10; -5; 5];
        [5; 10; 10; -20; -20; 10; 10; 5];
        [0; 0; 0; 0; 0; 0; 0; 0] ]
  | KNIGHT =>
      [ [-50; -40; -30; -30; -30; -30; -40; -50];
        [-40; -20; 0; 0; 0; 0; -20; -40];
        [-30; 0; 10; 15; 15; 10; 0; -30];
        [-30; 5; 15; 20; 20; 15; 5; -30];
        [-30; 0; 15; 20; 20; 15; 0; -30];
        [-30; 5; 10; 15; 15; 10; 5; -30];
        [-40; -20; 0; 5; 5; 0; -20; -40];
        [-50; -40; -30; -30; -30; -30; -40; -50] ]
  | BISHOP =>
      [ [-20; -10; -10; -10; -10; -10; -10; -20];
        [-10; 0; 0; 0; 0; 0; 0; -10];
        [-10; 0; 10; 10; 10; 10; 0; -10];
        [-10; 5; 5; 10; 10; 5; 5; -10];
        [-10; 0; 5; 10; 10; 5; 0; -10];
        [-10; 10; 5; 10; 10; 5; 10; -10];
        [-10; 5; 0; 0; 0; 0; 5; -10];
        [-20; -10; -10; -10; -10; -10; -10; -20] ]
  | ROOK =>
      [ [0; 0; 0; 0; 0; 0; 0; 0];
        [5; 10; 10; 10; 10; 10; 10; 5];
        [-5; 0; 0; 0; 0; 0; 0; -5];
        [-5; 0; 0; 0; 0; 0; 0; -5];
        [-5; 0; 0; 0; 0; 0; 0; -5];
        [-5; 0; 0; 0; 0; 0; 0; -5];
        [-5; 0; 0; 0; 0; 0; 0; -5];
        [0; 0; 0; 5; 5; 0; 0; 0] ]
  | QUEEN =>
      [ [-20; -10; -10; -5; -5; -10; -10; -20];
        [-10; 0; 0; 0; 0; 0; 0; -10];
        [-10; 0; 5; 5; 5; 5; 0; -10];
        [-5; 0; 5; 5; 5; 5; 0; -5];
        [0; 0; 5; 5; 5; 5; 0; -5];
        [-10; 5; 5; 5; 5; 5; 0; -10];
        [-10; 0; 5; 0; 0; 0; 0; -10];
        [-20; -10; -10; -5; -5; -10; -10; -20] ]
  | KING =>
      [ [-30; -40; -40; -50; -50; -40; -40; -30];
        [-30; -40; -40; -50; -50; -40; -40; -30];
        [-30; -40; -40; -50; -50; -40; -40; -30];
        [-30; -40; -40; -50; -50; -40; -40; -30];
        [-20; -30; -30; -40; -40; -30; -30; -20];
        [-10; -20; -20; -20; -20; -20; -20; -10];
        [20; 20; 0; 0; 0; 0; 20; 20];
        [20; 30; 10; 0; 0; 10; 30; 20] ]
  end.

(** [PST[k][r][c]] for indices of the table. *)
Definition pstAt (k : PieceType) (r c : Z) : Z :=
  nth (Z.to_nat c) (nth (Z.to_nat r) (PST k) []) 0.

(** The two nested loops of [evaluate], from rank list [rs] on, with the
    running [score]. *)
Fixpoint evalCols (b : Board) (r : Z) (cs : list Z) (score : Z) : Res Z :=
  match cs with
  | [] => Ok score
  | c :: cs' =>
      p <- cellAt b r c ;;
      match p with
      | None => evalCols b r cs' score
      | Some pc =>
          let val := PIECE_VALUE (type pc) in
          let pstRow := match color pc with WHITE => r | BLACK => 7 - r end in
          let pst := pstAt (type pc) pstRow c in
          evalCols b r cs'
                   (match color pc with
                    | WHITE => score + (val + pst)
                    | BLACK => score - (val + pst)
                    end)
      end
  end.

Fixpoint evalRows (b : Board) (rs : list Z) (score : Z) : Res Z :=
  match rs with
  | [] => Ok score
  | r :: rs' => s <- evalCols b r idx8 score ;; evalRows b rs' s
  end.

Definition evaluate (state : GameState) : Res Z :=
  evalRows (board state) idx8 0.

(** ** The bot: move ordering *)

(** The score the comparator of [orderMoves] computes for a move. *)
Definition moveScore (state : GameState) (m : Move) : Res Z :=
  capt <- cellAt (board state) (row (to m)) (col (to m)) ;;
  s1 <-
    (match capt with
     | Some cp =>
         mover <- cellAt (board state) (row (from m)) (col (from m)) ;;
         match mover with
         | Some mv => Ok (PIECE_VALUE (type cp) - PIECE_VALUE (type mv) / 10)
         | None => TypeError
         end
     | None => Ok 0
     end) ;;
  Ok (match promotion m with
      | Some promo => s1 + PIECE_VALUE promo
      | None => s1
      end).

(** Insertion before the first entry of strictly smaller or equal score
    that follows: entries of equal score keep their order. *)
Fixpoint insertByScore (x : Z * Move) (l : list (Z * Move)) : list (Z * Move) :=
  match l with
  | [] => [x]
  | y :: l' =>
      if fst x <? fst y then y :: insertByScore x l' else x :: y :: l'
  end.

Definition sortByScore (l : list (Z * Move)) : list (Z * Move) :=
  fold_right insertByScore [] l.

Fixpoint scoreAll (state : GameState) (moves : list Move)
  : Res (list (Z * Move)) :=
  match moves with
  | [] => Ok []
  | m :: ms =>
      s <- moveScore state m ;; rest <- scoreAll state ms ;; Ok ((s, m) :: rest)
  end.

(** [moves.sort((a, b) => scoreB - scoreA)]: a stable sort by decreasing
    score.  The comparator is not called on an array of fewer than two
    moves; on a longer one every move is scored. *)
Definition orderMoves (state : GameState) (moves : list Move) : Res (list Move) :=
  match moves with
  | [] | [_] => Ok moves
  | _ =>
      scored <- scoreAll state moves ;;
      Ok (map snd (sortByScore scored))
  end.

(** ** The bot: search *)

(** Scores with the two infinities that bound the search window. *)
Inductive Num : Type := NegInf | Fin (z : Z) | PosInf.

Definition num_ltb (a b : Num) : bool :=
  match a, b with
  | _, NegInf => false
  | NegInf, _ => true
  | PosInf, _ => false
  | _, PosInf => true
  | Fin x, Fin y => x <? y
  end.

Definition num_leb (a b : Num) : bool := negb (num_ltb b a).

Definition num_max (a b : Num) : Num := if num_ltb a b then b else a.

Definition num_min (a b : Num) : Num := if num_ltb b a then b else a.

Record SearchResult : Type := mkResult { score : Num; rmove : option Move }.

(** The loop of the maximizing branch of [minimax] over the moves still to
    try; [rec] is the recursive call on a child. *)
Fixpoint maxLoop (rec : GameState -> Num -> Num -> Res SearchResult)
         (state : GameState) (moves : list Move)
         (maxEval alpha beta : Num) (bestMove : Move) : Res SearchResult :=
  match moves with
  | [] => Ok (mkResult maxEval (Some bestMove))
  | m :: rest =>
      newState <- makeMove state m ;;
      match newState with
      | None => maxLoop rec state rest maxEval alpha beta bestMove
      | Some ns =>
          r <- rec ns alpha beta ;;
          let better := num_ltb maxEval (score r) in
          let maxEval' := if better then score r else maxEval in
          let bestMove' := if better then m else bestMove in
          let alpha' := num_max alpha (score r) in
          if num_leb beta alpha' then Ok (mkResult maxEval' (Some bestMove'))
          else maxLoop rec state rest maxEval' alpha' beta bestMove'
      end
  end.

(** The loop of the minimizing branch. *)
Fixpoint minLoop (rec : GameState -> Num -> Num -> Res SearchResult)
         (state : GameState) (moves : list Move)
         (minEval alpha beta : Num) (bestMove : Move) : Res SearchResult :=
  match moves with
  | [] => Ok (mkResult minEval (Some bestMove))
  | m :: rest =>
      newState <- makeMove state m ;;
      match newState with
      | None => minLoop rec state rest minEval alpha beta bestMove
      | Some ns =>
          r <- rec ns alpha beta ;;
          let better := num_ltb (score r) minEval in
          let minEval' := if better then score r else minEval in
          let bestMove' := if better then m else bestMove in
          let beta' := num_min beta (score r) in
          if num_leb beta' alpha then Ok (mkResult minEval' (Some bestMove'))
          else minLoop rec state rest minEval' alpha beta' bestMove'
      end
  end.

(** [minimax(state, depth, alpha, beta, maximizing)]; [fuel] bounds the
    nesting of the recursive calls. *)
Fixpoint minimax (fuel : nat) (state : GameState) (depth : Z)
         (alpha beta : Num) (maximizing : bool) : Res SearchResult :=
  match fuel with
  | O => OutOfFuel
  | S fuel' =>
      if (depth =? 0) || gameOver state then
        e <- evaluate state ;; Ok (mkResult (Fin e) None)
      else
        legal <- getLegalMoves state None ;;
        moves <- orderMoves state legal ;;
        match moves with
        | [] =>
            chk <- isInCheck (board state) (turn state) ;;
            if chk then
              Ok (mkResult (Fin (if maximizing then -99999 + (4 - depth)
                                 else 99999 - (4 - depth))) None)
            else Ok (mkResult (Fin 0) None)
        | m0 :: _ =>
            if maximizing then
              maxLoop (fun ns a b => minimax fuel' ns (depth - 1) a b false)
                      state moves NegInf alpha beta m0
            else
              minLoop (fun ns a b => minimax fuel' ns (depth - 1) a b true)
                      state moves PosInf alpha beta m0
        end
  end.

Definition getBestMove (fuel : nat) (state : GameState) (depth : Z)
  : Res (option Move) :=
  let maximizing := color_eqb (turn state) WHITE in
  r <- minimax fuel state depth NegInf PosInf maximizing ;;
  Ok (rmove r).

(** *** The search without the pruning break

    The same recursion as [minimax] with the two statements
    [if (beta <= alpha) break] removed. *)

Fixpoint maxLoopFull (rec : GameState -> Num -> Num -> Res SearchResult)
         (state : GameState) (moves : list Move)
         (maxEval alpha beta : Num) (bestMove : Move) : Res SearchResult :=
  match moves with
  | [] => Ok (mkResult maxEval (Some bestMove))
  | m :: rest =>
      newState <- makeMove state m ;;
      match newState with
      | None => maxLoopFull rec state rest maxEval alpha beta bestMove
      | Some ns =>
          r <- rec ns alpha beta ;;
          let better := num_ltb maxEval (score r) in
          let maxEval' := if better then score r else maxEval in
          let bestMove' := if better then m else bestMove in
          let alpha' := num_max alpha (score r) in
          maxLoopFull rec state rest maxEval' alpha' beta bestMove'
      end
  end.

Fixpoint minLoopFull (rec : GameState -> Num -> Num -> Res SearchResult)
         (state : GameState) (moves : list Move)
         (minEval alpha beta : Num) (bestMove : Move) : Res SearchResult :=
  match moves with
  | [] => Ok (mkResult minEval (Some bestMove))
  | m :: rest =>
      newState <- makeMove state m ;;
      match newState with
      | None => minLoopFull rec state rest minEval alpha beta bestMove
      | Some ns =>
          r <- rec ns alpha beta ;;
          let better := num_ltb (score r) minEval in
          let minEval' := if better then score r else minEval in
          let bestMove' := if better then m else bestMove in
          let beta' := num_min beta (score r) in
          minLoopFull rec state rest minEval' alpha beta' bestMove'
      end
  end.

Fixpoint minimaxFull (fuel : nat) (state : GameState) (depth : Z)
         (alpha beta : Num) (maximizing : bool) : Res SearchResult :=
  match fuel with
  | O => OutOfFuel
  | S fuel' =>
      if (depth =? 0) || gameOver state then
        e <- evaluate state ;; Ok (mkResult (Fin e) None)
      else
        legal <- getLegalMoves state None ;;
        moves <- orderMoves state legal ;;
        match moves with
        | [] =>
            chk <- isInCheck (board state) (turn state) ;;
            if chk then
              Ok (mkResult (Fin (if maximizing then -99999 + (4 - depth)
                                 else 99999 - (4 - depth))) None)
            else Ok (mkResult (Fin 0) None)
        | m0 :: _ =>
            if maximizing then
              maxLoopFull (fun ns a b => minimaxFull fuel' ns (depth - 1) a b false)
                          state moves NegInf alpha beta m0
            else
              minLoopFull (fun ns a b => minimaxFull fuel' ns (depth - 1) a b true)
                          state moves PosInf alpha beta m0
        end
  end.

(** * Vocabulary of the statements *)

Unset Implicit Arguments.

(** ** Runs that return *)

(** [returns m P]: the run [m] returns a value, and the value satisfies
    [P]. *)
Definition returns {A : Type} (m : Res A) (P : A -> Prop) : Prop :=
  match m with
  | Ok a => P a
  | _ => False
  end.

(** ** Boards of eight ranks of eight cells, squares and moves on them *)

(** [wfBoard b]: [b] is an array of eight arrays of eight cells. *)
Definition wfBoard (b : Board) : Prop :=
  (Nat.eqb (List.length b) 8
   && forallb (fun rw : list Cell => Nat.eqb (List.length rw) 8) b) = true.

(** [inRange s]: row and column of [s] lie in 0..7. *)
Definition inRange (s : Square) : Prop := inBounds (row s) (col s) = true.

(** [fromHere r cc m]: [m] goes from the square [(r, cc)] to a square of the
    board. *)
Definition fromHere (r cc : Z) (m : Move) : Prop :=
  from m = mkSquare r cc /\ inRange (to m).

(** A direction of a sliding piece: one step along a rank, a file or a
    diagonal. *)
Definition unitDir (d : Z * Z) : Prop :=
  -1 <= fst d <= 1 /\ -1 <= snd d <= 1 /\ (fst d <> 0 \/ snd d <> 0).

(** [fromPiece b c m]: [m] goes from a square holding a piece of colour [c]
    to a square of the board. *)
Definition fromPiece (b : Board) (c : Color) (m : Move) : Prop :=
  inRange (from m) /\ inRange (to m) /\
  exists pc, cellAt b (row (from m)) (col (from m)) = Ok (Some pc) /\ color pc = c.

(** A move that passes the test of [getLegalMoves] leaves the own king
    unattacked on the board it produces. *)
Definition leavesKingSafe (b : Board) (c : Color) (m : Move) : Prop :=
  exists nb, applyMoveToBoard (cloneBoard b) m = Ok nb /\ isInCheck nb c = Ok false.

(** The effect C8 describes: on [b'] the square on the row of the origin
    and the column of the destination is empty, the destination holds what
    the origin held on [b], the origin is empty, and every other cell is
    as on [b]. *)
Definition enPassantEffect (b : Board) (m : Move) (b' : Board) : Prop :=
  cellAt b' (row (from m)) (col (to m)) = Ok None /\
  cellAt b' (row (to m)) (col (to m)) = cellAt b (row (from m)) (col (from m)) /\
  cellAt b' (row (from m)) (col (from m)) = Ok None /\
  forall r c,
    inBounds r c = true ->
    ~ (r = row (from m) /\ c = col (from m)) ->
    ~ (r = row (to m) /\ c = col (to m)) ->
    ~ (r = row (from m) /\ c = col (to m)) ->
    cellAt b' r c = cellAt b r c.

(** ** Boards that hold given pieces and no other *)

(** Equality tests on squares and pieces. *)
Definition square_eqb (a b : Square) : bool :=
  (row a =? row b) && (col a =? col b).

Definition piece_eqb (p q : Piece) : bool :=
  color_eqb (color p) (color q) && type_eqb (type p) (type q).

(** The piece a list of placed pieces puts on a square. *)
Fixpoint placed (ps : list (Square * Piece)) (sq : Square) : Cell :=
  match ps with
  | [] => None
  | (s, p) :: ps' => if square_eqb s sq then Some p else placed ps' sq
  end.

(** [cellIs b r c v]: the read [board[r][c]] returns [v]. *)
Definition cellIs (b : Board) (r c : Z) (v : Cell) : bool :=
  match cellAt b r c, v with
  | Ok (Some p), Some q => piece_eqb p q
  | Ok None, None => true
  | _, _ => false
  end.

Fixpoint distinctSquares (l : list Square) : bool :=
  match l with
  | [] => true
  | s :: l' => negb (existsb (square_eqb s) l') && distinctSquares l'
  end.

(** [holdsExactly b ps]: [ps] lists pieces on pairwise distinct squares of
    the board, and the board [b] (eight ranks of eight cells) holds these
    pieces and no other. *)
Definition holdsExactly (b : Board) (ps : list (Square * Piece)) : Prop :=
  wfBoard b /\
  (forallb (fun sp => inBounds (row (fst sp)) (col (fst sp))) ps
   && distinctSquares (map fst ps)
   && forallb (fun r =>
                 forallb (fun c => cellIs b r c (placed ps (mkSquare r c))) idx8)
              idx8) = true.

(** King and bishop against king and bishop, the bishops on [wb] and
    [bb]. *)
Definition kingBishopEach (b : Board) (wk bk wb bb : Square) : Prop :=
  holdsExactly b [(wk, mkPiece WHITE KING); (bk, mkPiece BLACK KING);
                  (wb, mkPiece WHITE BISHOP); (bb, mkPiece BLACK BISHOP)].

(** ** The order of scores *)

(** The order of [Num] read on integers: below a bound [B] that exceeds the
    numbers at hand, minus and plus infinity are [-B] and [B]. *)
Definition emb (B : Z) (x : Num) : Z :=
  match x with NegInf => - B | Fin z => z | PosInf => B end.

Definition within (B : Z) (x : Num) : Prop :=
  match x with Fin z => - B < z < B | _ => 0 < B end.

(** A bound for finitely many scores. *)
Fixpoint boundOf (l : list Num) : Z :=
  match l with
  | [] => 1
  | x :: l' => Z.abs (match x with Fin z => z | _ => 0 end) + 1 + boundOf l'
  end.

(** [failsoft alpha beta x v]: what a search with window [(alpha, beta)]
    that returns [x] tells about the value [v] of the full search: [x]
    bounds [v] from above when it is at most [alpha], from below when it is
    at least [beta], and is [v] when it lies inside the window. *)
Definition failsoft (alpha beta x v : Num) : Prop :=
  (num_leb x alpha = true -> num_leb v x = true) /\
  (num_leb beta x = true -> num_leb x v = true) /\
  (num_ltb alpha x = true -> num_ltb x beta = true -> x = v).

(** ** Well-formed FEN strings *)

Definition isPieceLetter (ch : ascii) : bool :=
  existsb (Ascii.eqb ch)
          ["P"; "N"; "B"; "R"; "Q"; "K"; "p"; "n"; "b"; "r"; "q"; "k"]%char.

(** One rank of the placement field: piece letters and digits 1 to 8, no
    two digits in a row ([afterDigit] tells that the previous character was
    a digit). *)
Fixpoint rankChars (s : string) (afterDigit : bool) : bool :=
  match s with
  | EmptyString => true
  | String ch s' =>
      if isDigit ch
      then negb afterDigit && (1 <=? digitVal ch) && (digitVal ch <=? 8)
           && rankChars s' true
      else isPieceLetter ch && rankChars s' false
  end.

(** The number of squares a rank describes. *)
Fixpoint rankWidth (s : string) : Z :=
  match s with
  | EmptyString => 0
  | String ch s' => (if isDigit ch then digitVal ch else 1) + rankWidth s'
  end.

Definition rankOk (s : string) : bool :=
  rankChars s false && (rankWidth s =? 8).

Definition placementOk (p : string) : bool :=
  Nat.eqb (List.length (split "/" p)) 8 && forallb rankOk (split "/" p).

Definition turnOk (t : string) : bool := String.eqb t "w" || String.eqb t "b".

(** ["-"], or the letters of [KQkq] that are present, in that order. *)
Definition castlingOk (c : string) : bool :=
  existsb (String.eqb c)
          ["-"; "K"; "Q"; "k"; "q"; "KQ"; "Kk"; "Kq"; "Qk"; "Qq"; "kq";
           "KQk"; "KQq"; "Kkq"; "Qkq"; "KQkq"]%string.

(** ["-"], or a file letter a to h followed by a rank digit 1 to 8. *)
Definition enPassantOk (e : string) : bool :=
  match e with
  | String "-" EmptyString => true
  | String f (String r EmptyString) =>
      let n := Z.of_nat (nat_of_ascii f) in
      (97 <=? n) && (n <=? 104) && isDigit r
      && (1 <=? digitVal r) && (digitVal r <=? 8)
  | _ => false
  end.

Fixpoint allDigits (s : string) : bool :=
  match s with
  | EmptyString => true
  | String ch s' => isDigit ch && allDigits s'
  end.

(** A decimal numeral without leading zeros, of a safe integer. *)
Definition numeralOk (s : string) : bool :=
  match s with
  | EmptyString => false
  | String "0" EmptyString => true
  | String ch s' =>
      isDigit ch && negb (Ascii.eqb ch "0") && allDigits s'
      && (digitsValue 0 s <? 2 ^ 53)
  end.

(** The six fields of a FEN record, separated by single spaces: piece
    placement, active colour, castling letters, en-passant target,
    half-move clock, full-move number (at least 1). *)
Definition wellFormedFEN (fen : string) : bool :=
  match split " " fen with
  | [p; t; c; e; h; n] =>
      placementOk p && turnOk t && castlingOk c && enPassantOk e
      && numeralOk h && numeralOk n && negb (String.eqb n "0")
  | _ => false
  end.

Fixpoint join (sep : string) (l : list string) : string :=
  match l with
  | [] => EmptyString
  | [x] => x
  | x :: l' => (x ++ sep ++ join sep l')%string
  end.

(** The loop of [boardToFEN] over one rank, on the list of its cells. *)
Fixpoint renderCells (cs : list Cell) (empty : Z) : string :=
  match cs with
  | [] => flushEmpty empty
  | None :: cs' => renderCells cs' (empty + 1)
  | Some pc :: cs' =>
      (flushEmpty empty ++ (pieceChar pc ++ renderCells cs' 0))%string
  end.

(** ** Positions used as concrete inputs *)

Definition emptyBoard : Board := repeat (repeat (None : Cell) 8) 8.

Definition blankState (b : Board) (t : Color) : GameState :=
  mkState b t (mkCastling false false false false) None 0 1
          [] (mkCaptured [] []) [] false None.

(** The state [createInitialState()] returns. *)
Definition startState : GameState :=
  match createInitialState with
  | Ok s => s
  | _ => blankState emptyBoard WHITE
  end.

(** The state [stateFromFEN(fen)] returns. *)
Definition fromFEN (fen : string) : GameState :=
  match stateFromFEN fen with
  | Ok s => s
  | _ => blankState emptyBoard WHITE
  end.

(** The state [makeMove(state, m)] returns, when it returns one. *)
Definition stateAfter (state : GameState) (m : Move) : GameState :=
  match makeMove state m with
  | Ok (Some s') => s'
  | _ => state
  end.

(** A position with king and bishop on each side: White Ke1 Bc1, Black
    Ke8 Bf8, both bishops on dark squares; White plays Ke1-e2. *)
Definition bishopsFEN : string := "4kb2/8/8/8/8/8/8/2B1K3 w - - 0 1".

Definition kingStep : Move := simpleMove (mkSquare 7 4) (mkSquare 6 4).

(** The same position in a state that is already over, won by White. *)
Definition bishopsOver : GameState :=
  let s := fromFEN bishopsFEN in
  mkState (board s) (turn s) (castling s) (enPassant s) (halfMoveClock s)
          (fullMoveNumber s) (moveHistory s) (capturedPieces s)
          (moveNotations s) true (Some WhiteWins).

(** King and bishop on each side, the bishops on squares of opposite
    colours: White Ke1 Bd1, Black Ke8 Bf8. *)
Definition oppositeBishopsFEN : string := "4kb2/8/8/8/8/8/8/3BK3 w - - 0 1".

(** ** The outcome of a move *)

(** The notation [makeMove] records for a move: [#] is appended when the
    opponent has no reply and is in check, [+] when the opponent is in
    check and has a reply, nothing otherwise. *)
Definition marked (notation : string) (replies : list Move) (inCheck : bool)
  : string :=
  match replies, inCheck with
  | [], true => notation ++ "#"
  | _ :: _, true => notation ++ "+"
  | _, false => notation
  end%string.

(** ** More positions used as concrete inputs *)

(** The first position of the puzzle catalog: White mates with the queen
    from b2 to b8. *)
Definition backRankFEN : string := "6k1/5ppp/8/8/8/8/1Q6/K7 w - - 0 1".

Definition queenMate : Move := simpleMove (mkSquare 6 1) (mkSquare 0 1).

(** The state after that move. *)
Definition mated : GameState := stateAfter (fromFEN backRankFEN) queenMate.

(** The pawn of the white king, two squares forward. *)
Definition pawnE4 : Move := simpleMove (mkSquare 6 4) (mkSquare 4 4).

(** A position one quiet move away from the limit of the half-move
    clock. *)
Definition fiftyFEN : string := "4k3/8/8/8/8/8/8/R3K3 w - - 99 60".

(** ** Castling squares *)

(** The columns of a castling move: where the king lands, where the rook
    stands and where the rook lands. *)
Definition kingTo (side : CastleSide) : Z :=
  match side with SideK => 6 | SideQ => 2 end.

Definition rookFrom (side : CastleSide) : Z :=
  match side with SideK => 7 | SideQ => 0 end.

Definition rookTo (side : CastleSide) : Z :=
  match side with SideK => 5 | SideQ => 3 end.

(** White castles on the king's side in [R3K2R]. *)
Definition castleFEN : string := "4k3/8/8/8/8/8/8/R3K2R w KQ - 0 1".

Definition castleShort : Move :=
  mkMove (mkSquare 7 4) (mkSquare 7 6) None false (Some SideK).

(** A white pawn on e7 promotes on e8. *)
Definition promoFEN : string := "8/4P3/8/8/8/8/k7/4K3 w - - 0 1".

Definition promoteQueen : Move :=
  mkMove (mkSquare 1 4) (mkSquare 0 4) (Some QUEEN) false None.

(** ** How the pieces move *)

(** [clearBetween b f d k]: the squares passed on the way from [f] to the
    square [k] steps away in direction [d] are empty. *)
Definition clearBetween (b : Board) (f : Square) (d : Z * Z) (k : Z) : Prop :=
  forall j, 1 <= j < k ->
            cellAt b (row f + j * fst d) (col f + j * snd d) = Ok None.

(** [landsOn b c t]: the square [t] is empty or holds a piece that is not
    of colour [c]. *)
Definition landsOn (b : Board) (c : Color) (t : Square) : Prop :=
  exists x, cellAt b (row t) (col t) = Ok x /\ freeFor c x = true.

(** [slidesTo b c dirs f t]: [t] is a square of the board on a line from
    [f] in one of the directions [dirs], with only empty squares between,
    and a piece of colour [c] may land on it. *)
Definition slidesTo (b : Board) (c : Color) (dirs : list (Z * Z))
           (f t : Square) : Prop :=
  inRange t /\
  exists d k, In d dirs /\ 1 <= k /\
              row t = row f + k * fst d /\ col t = col f + k * snd d /\
              clearBetween b f d k /\ landsOn b c t.

(** [stepsTo b c offsets f t]: [t] is a square of the board at one of the
    [offsets] from [f], and a piece of colour [c] may land on it. *)
Definition stepsTo (b : Board) (c : Color) (offsets : list (Z * Z))
           (f t : Square) : Prop :=
  inRange t /\
  In (row t - row f, col t - col f) offsets /\
  landsOn b c t.

(** The directions of the sliding pieces. *)
Definition slideDirs (k : PieceType) : list (Z * Z) :=
  match k with
  | BISHOP => diagDirs
  | ROOK => straightDirs
  | QUEEN => queenDirs
  | _ => []
  end.

(** The list [getPseudoMoves(state, c)] returns. *)
Definition pseudoOf (state : GameState) (c : Color) : list Move :=
  match getPseudoMoves state c with
  | Ok l => l
  | _ => []
  end.

(** The list [getLegalMoves(state)] returns. *)
Definition legalOf (state : GameState) : list Move :=
  match getLegalMoves state None with
  | Ok l => l
  | _ => []
  end.

(** The row of the king and the rooks of a colour. *)
Definition homeRow (c : Color) : Z :=
  match c with WHITE => 7 | BLACK => 0 end.

(** The columns between the king and the rook of a side. *)
Definition betweenCols (side : CastleSide) : list Z :=
  match side with SideK => [5; 6] | SideQ => [3; 2; 1] end.

(** The castling move of a colour on a side. *)
Definition castleMove (c : Color) (side : CastleSide) : Move :=
  mkMove (mkSquare (homeRow c) 4) (mkSquare (homeRow c) (kingTo side))
         None false (Some side).

(** [mayCastle state c side]: the right of [c] on [side] is set, the
    squares between king and rook are empty and a rook of colour [c]
    stands in the corner. *)
Definition mayCastle (state : GameState) (c : Color) (side : CastleSide) : Prop :=
  right (castling state) c side = true /\
  (forall cc, In cc (betweenCols side) ->
              cellAt (board state) (homeRow c) cc = Ok None) /\
  cellAt (board state) (homeRow c) (rookFrom side) = Ok (Some (mkPiece c ROOK)).

(** A white rook that goes up its file, a knight and a king in the corner
    of an otherwise open board. *)
Definition rookLift : Move := simpleMove (mkSquare 7 0) (mkSquare 3 0).

Definition knightFEN : string := "4k3/8/8/8/8/8/8/N3K3 w - - 0 1".

Definition knightJump : Move := simpleMove (mkSquare 7 0) (mkSquare 5 1).

Definition kingSlide : Move := simpleMove (mkSquare 7 4) (mkSquare 7 5).

(** The direction of the pawns of a colour, the row they start on and the
    row they promote on. *)
Definition pawnDir (c : Color) : Z :=
  match c with WHITE => -1 | BLACK => 1 end.

Definition pawnStart (c : Color) : Z :=
  match c with WHITE => 6 | BLACK => 1 end.

Definition lastRow (c : Color) : Z :=
  match c with WHITE => 0 | BLACK => 7 end.

(** [arrives c m]: [m] is neither en passant nor a castling; it promotes
    to a queen, a rook, a bishop or a knight when its destination is on
    the last row of [c], and does not promote otherwise. *)
Definition arrives (c : Color) (m : Move) : Prop :=
  isEnPassant m = false /\ castlingSide m = None /\
  if row (to m) =? lastRow c
  then In (promotion m) [Some QUEEN; Some ROOK; Some BISHOP; Some KNIGHT]
  else promotion m = None.

(** One row forward to an empty square. *)
Definition pawnPush (b : Board) (c : Color) (m : Move) : Prop :=
  arrives c m /\
  row (to m) = row (from m) + pawnDir c /\ col (to m) = col (from m) /\
  inRange (to m) /\
  cellAt b (row (to m)) (col (to m)) = Ok None.

(** Two rows forward from the start row over an empty square to an empty
    square. *)
Definition pawnDouble (b : Board) (c : Color) (m : Move) : Prop :=
  m = simpleMove (from m) (to m) /\
  row (from m) = pawnStart c /\
  row (to m) = row (from m) + 2 * pawnDir c /\ col (to m) = col (from m) /\
  cellAt b (row (from m) + pawnDir c) (col (from m)) = Ok None /\
  cellAt b (row (to m)) (col (to m)) = Ok None.

(** One row forward and one column aside. *)
Definition pawnDiagonal (c : Color) (m : Move) : Prop :=
  row (to m) = row (from m) + pawnDir c /\
  (col (to m) = col (from m) - 1 \/ col (to m) = col (from m) + 1) /\
  inRange (to m).

(** Diagonally onto a piece of the other colour. *)
Definition pawnCapture (b : Board) (c : Color) (m : Move) : Prop :=
  arrives c m /\ pawnDiagonal c m /\
  exists tp, cellAt b (row (to m)) (col (to m)) = Ok (Some tp) /\ color tp <> c.

(** Diagonally onto the en-passant target of the state, with the
    en-passant flag. *)
Definition pawnEnPassant (state : GameState) (c : Color) (m : Move) : Prop :=
  m = mkMove (from m) (to m) None true None /\ pawnDiagonal c m /\
  exists e, enPassant state = Some e /\
            row e = row (to m) /\ col e = col (to m).

(** A position after 1. e4 a6 2. e5 d5: White may take en passant on
    d6. *)
Definition enPassantFEN : string :=
  "rnbqkbnr/1pp1pppp/p7/3pP3/8/8/PPPP1PPP/RNBQKBNR w KQkq d6 0 3".

Definition takeEnPassant : Move :=
  mkMove (mkSquare 3 4) (mkSquare 2 3) None true None.

(** ** Kings and material *)

(** [kingOf b c sq]: the square [sq] of the board holds the king of colour
    [c]. *)
Definition kingOf (b : Board) (c : Color) (sq : Square) : Prop :=
  inRange sq /\ cellAt b (row sq) (col sq) = Ok (Some (mkPiece c KING)).

(** [before p q]: the scan by rows, then by columns, visits [p] before
    [q]. *)
Definition before (p q : Square) : Prop :=
  row p < row q \/ (row p = row q /\ col p < col q).

(** King and rook against king. *)
Definition rookEndingFEN : string := "4k3/8/8/8/8/8/8/R3K3 w - - 0 1".

(** ** Move ordering *)

(** The score [orderMoves] gives a move. *)
Definition scoreOf (state : GameState) (m : Move) : Z :=
  match moveScore state m with
  | Ok z => z
  | _ => 0
  end.

(** [byScore state a b]: [a] may stand before [b] in the order of
    [orderMoves]. *)
Definition byScore (state : GameState) (a b : Move) : Prop :=
  scoreOf state b <= scoreOf state a.

(** A white pawn that may advance or take a queen. *)
Definition queenHangsFEN : string := "4k3/8/8/3q4/4P3/8/8/4K3 w - - 0 1".

Definition quietPush : Move := simpleMove (mkSquare 4 4) (mkSquare 3 4).

Definition takeQueen : Move := simpleMove (mkSquare 4 4) (mkSquare 3 3).

(** ** Attacks *)

(** [reaches b dirs a r c]: the square [a] lies on a line from [(r, c)] in
    one of the directions [dirs], with only empty squares between. *)
Definition reaches (b : Board) (dirs : list (Z * Z)) (a : Square) (r c : Z)
  : Prop :=
  exists d k, In d dirs /\ 1 <= k /\
              row a = r + k * fst d /\ col a = c + k * snd d /\
              clearBetween b (mkSquare r c) d k.

(** [attacks b a pc r c]: the piece [pc], standing on the square [a],
    attacks the square [(r, c)]: a knight by its jump, a king from an
    adjacent square, a pawn from the next row in the direction it came
    from and an adjacent column, a bishop, a rook or a queen along its
    lines over empty squares. *)
Definition attacks (b : Board) (a : Square) (pc : Piece) (r c : Z) : Prop :=
  match type pc with
  | KNIGHT => In (row a - r, col a - c) knightOffsets
  | KING => In (row a - r, col a - c) kingOffsets
  | PAWN => row a = r - pawnDir (color pc) /\ (col a = c - 1 \/ col a = c + 1)
  | BISHOP => reaches b diagDirs a r c
  | ROOK => reaches b straightDirs a r c
  | QUEEN => reaches b queenDirs a r c
  end.

(** [attackedBy b r c byColor]: some piece of colour [byColor] on the
    board attacks the square [(r, c)]. *)
Definition attackedBy (b : Board) (r c : Z) (byColor : Color) : Prop :=
  exists a pc, cellAt b (row a) (col a) = Ok (Some pc) /\
               color pc = byColor /\ attacks b a pc r c.

(** ** Evaluation *)

(** The board seen from the other side: the ranks in reverse order, every
    piece with the other colour. *)
Definition swapColor (cell : Cell) : Cell :=
  match cell with
  | Some pc => Some (mkPiece (opponent (color pc)) (type pc))
  | None => None
  end.

Definition mirror (b : Board) : Board := rev (map (map swapColor) b).

(** What [evaluate] adds to the score for the cell [cell] at row [r],
    column [c]. *)
Definition cellValue (r c : Z) (cell : Cell) : Z :=
  match cell with
  | None => 0
  | Some pc =>
      match color pc with
      | WHITE => PIECE_VALUE (type pc) + pstAt (type pc) r c
      | BLACK => - (PIECE_VALUE (type pc) + pstAt (type pc) (7 - r) c)
      end
  end.

(** The sum of these over the cells of a rank, from column [c] on. *)
Fixpoint rowSum (r : Z) (cells : list Cell) (c : Z) : Z :=
  match cells with
  | [] => 0
  | cell :: cells' => cellValue r c cell + rowSum r cells' (c + 1)
  end.

(** * Reasoning about runs *)

Lemma returns_Ok : forall (A : Type) (m : Res A) (P : A -> Prop),
    returns m P <-> exists a, m = Ok a /\ P a.
Proof.
  intros A m P; split.
  - destruct m; simpl; intros H; try contradiction. exists a; auto.
  - intros [a [-> H]]; exact H.
Qed.

Lemma returns_weaken : forall (A : Type) (m : Res A) (P Q : A -> Prop),
    returns m P -> (forall a, P a -> Q a) -> returns m Q.
Proof.
  intros A m P Q H HPQ; destruct m; simpl in *; auto.
Qed.

Lemma returns_eq : forall (A : Type) (m : Res A) (P : A -> Prop) (a : A),
    returns m P -> m = Ok a -> P a.
Proof.
  intros A m P a H ->; exact H.
Qed.

Lemma returns_and : forall (A : Type) (m : Res A) (P Q : A -> Prop),
    returns m P -> returns m Q -> returns m (fun a => P a /\ Q a).
Proof.
  intros A m P Q HP HQ; destruct m; simpl in *; auto.
Qed.

Lemma returns_bind : forall (A B : Type) (m : Res A) (k : A -> Res B)
                            (Q : A -> Prop) (P : B -> Prop),
    returns m Q -> (forall a, Q a -> returns (k a) P) ->
    returns (bind m k) P.
Proof.
  intros A B m k Q P Hm Hk; destruct m; simpl in *; try contradiction.
  apply Hk; exact Hm.
Qed.

Lemma bind_Ok : forall (A B : Type) (m : Res A) (k : A -> Res B) (b : B),
    bind m k = Ok b -> exists a, m = Ok a /\ k a = Ok b.
Proof.
  intros A B m k b H; destruct m; simpl in H; try discriminate.
  exists a; auto.
Qed.

Lemma returns_forEach : forall (A B : Type) (f : A -> Res (list B))
                               (P : B -> Prop) (l : list A),
    (forall x, In x l -> returns (f x) (Forall P)) ->
    returns (forEach f l) (Forall P).
Proof.
  intros A B f P l; induction l as [|x l IH]; intros H; simpl.
  - constructor.
  - eapply returns_bind; [apply H; left; reflexivity|].
    intros xs Hxs.
    eapply returns_bind; [apply IH; intros y Hy; apply H; right; exact Hy|].
    intros ys Hys; simpl. apply Forall_app; split; assumption.
Qed.

Lemma returns_anyR : forall (A : Type) (f : A -> Res bool) (l : list A),
    (forall x, In x l -> returns (f x) (fun _ => True)) ->
    returns (anyR f l) (fun _ => True).
Proof.
  intros A f l; induction l as [|x l IH]; intros H; simpl; auto.
  eapply returns_bind; [apply H; left; reflexivity|].
  intros [|] _; simpl; auto.
  apply IH; intros y Hy; apply H; right; exact Hy.
Qed.

(** What [filterR] returns: a sublist of its input whose elements passed
    the test. *)
Lemma returns_filterR : forall (A : Type) (f : A -> Res bool)
                               (Q : A -> Prop) (l : list A),
    (forall x, In x l -> returns (f x) (fun b => b = true -> Q x)) ->
    returns (filterR f l)
            (fun r => forall x, In x r -> In x l /\ Q x).
Proof.
  intros A f Q l; induction l as [|x l IH]; intros H; simpl.
  - intros y [].
  - eapply returns_bind; [apply H; left; reflexivity|].
    intros b Hb.
    eapply returns_bind; [apply IH; intros y Hy; apply H; right; exact Hy|].
    intros ys Hys; simpl. intros y Hy.
    destruct b.
    + destruct Hy as [<- | Hy].
      * split; [left; reflexivity | apply Hb; reflexivity].
      * destruct (Hys y Hy); split; [right|]; assumption.
    + destruct (Hys y Hy); split; [right|]; assumption.
Qed.

Lemma filterR_all : forall (A : Type) (f : A -> Res bool) (l r : list A),
    filterR f l = Ok r ->
    forall x, In x l -> f x = Ok true -> In x r.
Proof.
  intros A f l; induction l as [|y l IH]; intros r H x Hx Hfx; simpl in *.
  - contradiction.
  - apply bind_Ok in H; destruct H as [b [Hb H]].
    apply bind_Ok in H; destruct H as [ys [Hys H]].
    injection H as <-.
    destruct Hx as [-> | Hx].
    + rewrite Hfx in Hb; injection Hb as <-. left; reflexivity.
    + specialize (IH ys Hys x Hx Hfx). destruct b; [right|]; assumption.
Qed.

(** ** Boards of eight ranks of eight cells *)

Lemma inBounds_iff : forall r c,
    inBounds r c = true <-> 0 <= r < 8 /\ 0 <= c < 8.
Proof.
  intros r c; unfold inBounds.
  rewrite !andb_true_iff, !Z.leb_le, !Z.ltb_lt. lia.
Qed.

Lemma inBounds_false_iff : forall r c,
    inBounds r c = false <-> ~ (0 <= r < 8 /\ 0 <= c < 8).
Proof.
  intros r c. rewrite <- inBounds_iff. destruct (inBounds r c); split; intros H; auto; try discriminate.
  exfalso; apply H; reflexivity.
Qed.

Lemma idx8_range : forall r, In r idx8 <-> 0 <= r < 8.
Proof.
  intros r; unfold idx8; simpl; split; intros H; lia.
Qed.

Lemma wfBoard_length : forall b, wfBoard b -> List.length b = 8%nat.
Proof.
  intros b H; unfold wfBoard in H. apply andb_true_iff in H.
  destruct H as [H _]. apply Nat.eqb_eq in H; exact H.
Qed.

Lemma wfBoard_rows : forall b rw, wfBoard b -> In rw b -> List.length rw = 8%nat.
Proof.
  intros b rw H Hin; unfold wfBoard in H. apply andb_true_iff in H.
  destruct H as [_ H]. rewrite forallb_forall in H.
  apply Nat.eqb_eq, H, Hin.
Qed.

Lemma rowAt_wf : forall b r,
    wfBoard b -> 0 <= r < 8 ->
    exists rw, rowAt b r = Some rw /\ List.length rw = 8%nat.
Proof.
  intros b r Hwf Hr; unfold rowAt.
  destruct (Z.leb_spec 0 r); [|lia].
  destruct (nth_error b (Z.to_nat r)) as [rw|] eqn:E.
  - exists rw; split; auto. eapply wfBoard_rows; eauto. eapply nth_error_In; eauto.
  - apply nth_error_None in E. rewrite (wfBoard_length _ Hwf) in E. lia.
Qed.

Lemma cellAt_total : forall b r c,
    wfBoard b -> 0 <= r < 8 -> returns (cellAt b r c) (fun _ => True).
Proof.
  intros b r c Hwf Hr; unfold cellAt.
  destruct (rowAt_wf _ _ Hwf Hr) as [rw [-> _]]; simpl; auto.
Qed.

Lemma cellAt_inb : forall b r c,
    wfBoard b -> inBounds r c = true -> returns (cellAt b r c) (fun _ => True).
Proof.
  intros b r c Hwf H; apply inBounds_iff in H; apply cellAt_total; tauto.
Qed.

Lemma cloneBoard_id : forall b, cloneBoard b = b.
Proof.
  intros b; unfold cloneBoard.
  rewrite <- (map_id b) at 2. apply map_ext; intros rw.
  rewrite <- (map_id rw) at 2. apply map_ext; intros [[c k]|]; reflexivity.
Qed.

Lemma cloneState_id : forall s, cloneState s = s.
Proof.
  intros s; unfold cloneState. rewrite cloneBoard_id, !map_id.
  destruct s as [b t [a1 a2 a3 a4] [[er ec]|] h f mh [cw cb] mn g rs]; reflexivity.
Qed.

Lemma setNth_length : forall (A : Type) (n : nat) (x : A) (l : list A),
    List.length (setNth n x l) = List.length l.
Proof.
  intros A n x l; revert n; induction l as [|y l IH]; intros [|n]; simpl; auto.
Qed.

Lemma nth_error_setNth : forall (A : Type) (n k : nat) (x : A) (l : list A),
    nth_error (setNth n x l) k =
    if Nat.eqb k n then (if Nat.ltb n (List.length l) then Some x else None)
    else nth_error l k.
Proof.
  intros A n k x l; revert n k; induction l as [|y l IH]; intros [|n] [|k];
    simpl; auto;
    try (destruct (Nat.eqb k n); reflexivity);
    try (rewrite IH; reflexivity).
Qed.

Lemma nth_setNth : forall (A : Type) (n k : nat) (x d : A) (l : list A),
    (n < List.length l)%nat ->
    nth k (setNth n x l) d = if Nat.eqb k n then x else nth k l d.
Proof.
  intros A n k x d l; revert n k; induction l as [|y l IH]; intros [|n] [|k] H; simpl in *; auto; try lia.
  apply IH; lia.
Qed.

Lemma In_setNth : forall (A : Type) (n : nat) (x y : A) (l : list A),
    In y (setNth n x l) -> y = x \/ In y l.
Proof.
  intros A n x y l; revert n; induction l as [|z l IH]; intros [|n] H; simpl in *; auto.
  - destruct H as [H|H]; auto.
  - destruct H as [H|H]; auto. destruct (IH _ H); auto.
Qed.

(** A write inside the board: the dimensions stay, the written cell holds
    the value and every other read is as before. *)
Lemma setCell_spec : forall b r c v,
    wfBoard b -> inBounds r c = true ->
    returns (setCell b r c v)
            (fun b' => wfBoard b' /\
                       forall r' c', cellAt b' r' c' =
                                     if (r' =? r) && (c' =? c) then Ok v
                                     else cellAt b r' c').
Proof.
  intros b r c v Hwf Hin. apply inBounds_iff in Hin. destruct Hin as [Hr Hc].
  unfold setCell. destruct (rowAt_wf _ _ Hwf Hr) as [rw [E Hlen]]. rewrite E.
  rewrite Hlen.
  destruct (Z.leb_spec 0 c); [|lia]. destruct (Z.ltb_spec c (Z.of_nat 8)); [|lia].
  simpl. split.
  - unfold wfBoard. rewrite setNth_length. apply andb_true_iff; split.
    + apply Nat.eqb_eq, wfBoard_length, Hwf.
    + apply forallb_forall; intros x Hx. apply In_setNth in Hx.
      apply Nat.eqb_eq. destruct Hx as [-> | Hx].
      * rewrite setNth_length; exact Hlen.
      * eapply wfBoard_rows; eauto.
  - intros r' c'. unfold cellAt, rowAt.
    unfold rowAt in E. destruct (Z.leb_spec 0 r); [|lia].
    destruct (Z.leb_spec 0 r').
    + rewrite nth_error_setNth.
      rewrite (wfBoard_length _ Hwf).
      destruct (Z.eqb_spec r' r) as [->|Hne].
      * rewrite Nat.eqb_refl. replace (Nat.ltb (Z.to_nat r) 8) with true
          by (symmetry; apply Nat.ltb_lt; lia).
        simpl. rewrite E.
        destruct (Z.eqb_spec c' c) as [->|Hnc].
        -- destruct (Z.leb_spec 0 c); [|lia].
           rewrite nth_setNth by lia. rewrite Nat.eqb_refl; reflexivity.
        -- destruct (Z.leb_spec 0 c'); auto.
           rewrite nth_setNth by lia.
           replace (Nat.eqb (Z.to_nat c') (Z.to_nat c)) with false; auto.
           symmetry; apply Nat.eqb_neq; lia.
      * replace (Nat.eqb (Z.to_nat r') (Z.to_nat r)) with false
          by (symmetry; apply Nat.eqb_neq; lia).
        reflexivity.
    + destruct (Z.eqb_spec r' r); [lia|]. reflexivity.
Qed.

(** ** Pseudo-legal moves start on a piece of the side and stay on the board *)

Ltac inb :=
  repeat match goal with
         | H : inBounds _ _ = true |- _ => apply inBounds_iff in H
         | H : inBounds _ _ = false |- _ => apply inBounds_false_iff in H
         | H : negb _ = true |- _ => apply negb_true_iff in H
         | H : negb _ = false |- _ => apply negb_false_iff in H
         | H : In _ idx8 |- _ => apply idx8_range in H
         | H : (_ && _) = true |- _ => apply andb_true_iff in H; destruct H
         | H : (_ =? _) = true |- _ => apply Z.eqb_eq in H
         | |- inBounds _ _ = true => apply inBounds_iff
         | |- inRange _ => unfold inRange; simpl
         end.

Section SquareMoves.

Variable state : GameState.
Variable c : Color.
Variables r cc : Z.

Hypothesis Hwf : wfBoard (board state).
Hypothesis Hin : inBounds r cc = true.

Lemma fromHere_simple : forall nr nc,
    inBounds nr nc = true -> (fromHere r cc) (simpleMove (mkSquare r cc) (mkSquare nr nc)).
Proof. intros nr nc H; split; [reflexivity | exact H]. Qed.

Lemma fromHere_promo : forall nr nc,
    inBounds nr nc = true ->
    Forall (fromHere r cc) (promoMoves (mkSquare r cc) (mkSquare nr nc)).
Proof.
  intros nr nc H; unfold promoMoves; simpl.
  repeat constructor; exact H.
Qed.

Lemma slideRay_fromHere : forall dr dc fuel r0 c0,
    (inBounds r0 c0 = true ->
     inBounds (r0 + Z.of_nat fuel * dr) (c0 + Z.of_nat fuel * dc) = false) ->
    returns (slideRay fuel (board state) c (mkSquare r cc) dr dc r0 c0)
            (Forall (fromHere r cc)).
Proof.
  intros dr dc fuel; induction fuel as [|fuel IH]; intros r0 c0 Hfuel.
  - simpl. destruct (inBounds r0 c0) eqn:E; simpl; [|constructor].
    specialize (Hfuel eq_refl). simpl in Hfuel.
    rewrite !Z.add_0_r in Hfuel. congruence.
  - cbn [slideRay]. destruct (inBounds r0 c0) eqn:E; simpl; [|constructor].
    eapply returns_bind; [apply cellAt_inb; assumption|].
    intros [pc|] _.
    + simpl. destruct (negb (color_eqb (color pc) c)); repeat constructor; exact E.
    + eapply returns_bind.
      * apply IH. intros E'. specialize (Hfuel eq_refl).
        replace (r0 + dr + Z.of_nat fuel * dr) with (r0 + Z.of_nat (S fuel) * dr) by lia.
        replace (c0 + dc + Z.of_nat fuel * dc) with (c0 + Z.of_nat (S fuel) * dc) by lia.
        exact Hfuel.
      * intros rest Hrest; simpl. constructor; [split; [reflexivity | exact E] | exact Hrest].
Qed.

Lemma slideMoves_fromHere : forall dirs,
    Forall unitDir dirs ->
    returns (slideMoves (board state) c (mkSquare r cc) dirs) (Forall (fromHere r cc)).
Proof.
  intros dirs Hd; unfold slideMoves. apply returns_forEach.
  intros [dr dc] Hx. rewrite Forall_forall in Hd. specialize (Hd _ Hx).
  destruct Hd as [H1 [H2 H3]]; cbn [fst snd row col] in *.
  apply slideRay_fromHere. intros E. apply inBounds_false_iff.
  apply inBounds_iff in E. apply inBounds_iff in Hin. lia.
Qed.

Lemma knightMoves_fromHere :
  returns (knightMoves (board state) c r cc) (Forall (fromHere r cc)).
Proof.
  unfold knightMoves. apply returns_forEach. intros d _.
  destruct (inBounds (r + fst d) (cc + snd d)) eqn:E; simpl; [|constructor].
  eapply returns_bind; [apply cellAt_inb; assumption|].
  intros t _; simpl. destruct (freeFor c t); repeat constructor; exact E.
Qed.

Lemma pawnMoves_fromHere :
  returns (pawnMoves state c r cc) (Forall (fromHere r cc)).
Proof.
  unfold pawnMoves.
  set (dir := match c with WHITE => -1 | BLACK => 1 end).
  set (startRow := match c with WHITE => 6 | BLACK => 1 end).
  set (promoRow := match c with WHITE => 0 | BLACK => 7 end).
  eapply returns_bind with (Q := Forall (fromHere r cc)).
  - destruct (inBounds (r + dir) cc) eqn:E; simpl; [|constructor].
    eapply returns_bind; [apply cellAt_inb; assumption|].
    intros [t|] _; simpl; [constructor|].
    eapply returns_bind with (Q := Forall (fromHere r cc)).
    + destruct (r =? startRow) eqn:Es; simpl; [|constructor].
      apply Z.eqb_eq in Es.
      assert (Hb2 : inBounds (r + 2 * dir) cc = true).
      { apply inBounds_iff in E. apply inBounds_iff.
        subst dir startRow; destruct c; lia. }
      eapply returns_bind; [apply cellAt_inb; assumption|].
      intros [t2|] _; simpl; repeat constructor; exact Hb2.
    + intros dbl Hdbl; simpl. apply Forall_app; split; [|exact Hdbl].
      destruct (r + dir =? promoRow).
      * apply fromHere_promo; exact E.
      * repeat constructor; exact E.
  - intros fwd Hfwd.
    eapply returns_bind with (Q := Forall (fromHere r cc)).
    + apply returns_forEach. intros dc _.
      destruct (inBounds (r + dir) (cc + dc)) eqn:E; simpl; [|constructor].
      eapply returns_bind; [apply cellAt_inb; assumption|].
      intros target _; simpl. apply Forall_app; split.
      * destruct target as [tp|]; [|constructor].
        destruct (negb (color_eqb (color tp) c)); [|constructor].
        destruct (r + dir =? promoRow).
        -- apply fromHere_promo; exact E.
        -- repeat constructor; exact E.
      * destruct (enPassant state) as [e|]; [|constructor].
        destruct ((row e =? r + dir) && (col e =? cc + dc)); repeat constructor.
        exact E.
    + intros caps Hcaps; simpl. apply Forall_app; split; assumption.
Qed.

Lemma castleCandidate_fromHere : forall rw side empties rookCol kingTo,
    (rw = 0 \/ rw = 7) -> r = rw -> cc = 4 -> 0 <= kingTo < 8 ->
    returns (castleCandidate state c rw side empties rookCol kingTo)
            (Forall (fromHere r cc)).
Proof.
  intros rw side empties rookCol kingTo Hrw Hr Hc Hk. unfold castleCandidate.
  eapply returns_bind with (Q := fun _ => True).
  - unfold andR. simpl. destruct (right (castling state) c side); simpl; auto.
    eapply returns_bind with (Q := fun _ => True).
    + eapply returns_bind; [apply returns_anyR|intros; simpl; auto].
      intros e _. eapply returns_bind; [apply cellAt_total; [assumption|lia]|].
      intros; simpl; auto.
    + intros [|] _; simpl; auto.
      eapply returns_bind; [apply cellAt_total; [assumption|lia]|].
      intros; simpl; auto.
  - intros [|] _; simpl; repeat constructor.
    + subst r cc; reflexivity.
    + inb; simpl; lia.
Qed.

Lemma kingMoves_fromHere :
  returns (kingMoves state c r cc) (Forall (fromHere r cc)).
Proof.
  unfold kingMoves.
  eapply returns_bind with (Q := Forall (fromHere r cc)).
  - apply returns_forEach; intros dr _. apply returns_forEach; intros dc _.
    destruct ((dr =? 0) && (dc =? 0)); simpl; [constructor|].
    destruct (inBounds (r + dr) (cc + dc)) eqn:E; simpl; [|constructor].
    eapply returns_bind; [apply cellAt_inb; assumption|].
    intros t _; simpl. destruct (freeFor c t); repeat constructor; exact E.
  - intros steps Hsteps.
    eapply returns_bind with (Q := Forall (fromHere r cc)).
    + destruct ((r =? match c with WHITE => 7 | BLACK => 0 end) && (cc =? 4)) eqn:E;
        simpl; [|constructor].
      apply andb_true_iff in E; destruct E as [E1 E2].
      apply Z.eqb_eq in E1, E2.
      eapply returns_bind;
        [apply castleCandidate_fromHere; auto; [destruct c; auto | lia]|].
      intros ks Hks.
      eapply returns_bind;
        [apply castleCandidate_fromHere; auto; [destruct c; auto | lia]|].
      intros qs Hqs; simpl. apply Forall_app; split; assumption.
    + intros castles Hc; simpl. apply Forall_app; split; assumption.
Qed.

End SquareMoves.

Lemma color_eqb_eq : forall a b, color_eqb a b = true <-> a = b.
Proof. intros [|] [|]; simpl; split; intros H; congruence. Qed.

Lemma type_eqb_eq : forall a b, type_eqb a b = true <-> a = b.
Proof. intros [] []; simpl; split; intros H; congruence. Qed.

Lemma unitDir_diag : Forall unitDir diagDirs.
Proof. unfold diagDirs, unitDir; repeat constructor; simpl; lia. Qed.

Lemma unitDir_straight : Forall unitDir straightDirs.
Proof. unfold straightDirs, unitDir; repeat constructor; simpl; lia. Qed.

Lemma unitDir_queen : Forall unitDir queenDirs.
Proof. unfold queenDirs, unitDir; repeat constructor; simpl; lia. Qed.

Lemma squareMoves_fromPiece : forall state c r cc,
    wfBoard (board state) -> inBounds r cc = true ->
    returns (squareMoves state c r cc) (Forall (fromPiece (board state) c)).
Proof.
  intros state c r cc Hwf Hin. unfold squareMoves.
  destruct (cellAt (board state) r cc) as [p| | |] eqn:E;
    try (exfalso; pose proof (@cellAt_inb _ _ _ Hwf Hin) as H; rewrite E in H; exact H).
  simpl. destruct p as [pc|]; [|constructor].
  destruct (negb (color_eqb (color pc) c)) eqn:Ec; [constructor|].
  apply negb_false_iff, color_eqb_eq in Ec.
  assert (Himp : forall l, Forall (fromHere r cc) l ->
                           Forall (fromPiece (board state) c) l).
  { intros l Hl. eapply Forall_impl; [|exact Hl].
    intros m [Hf Ht]. unfold fromPiece. rewrite Hf; simpl.
    split; [exact Hin|]. split; [exact Ht|]. exists pc; auto. }
  destruct (type pc);
    (eapply returns_weaken; [|exact Himp]).
  - apply pawnMoves_fromHere; assumption.
  - apply knightMoves_fromHere; assumption.
  - apply slideMoves_fromHere; try assumption; apply unitDir_diag.
  - apply slideMoves_fromHere; try assumption; apply unitDir_straight.
  - apply slideMoves_fromHere; try assumption; apply unitDir_queen.
  - apply kingMoves_fromHere; assumption.
Qed.

Lemma getPseudoMoves_fromPiece : forall state c,
    wfBoard (board state) ->
    returns (getPseudoMoves state c) (Forall (fromPiece (board state) c)).
Proof.
  intros state c Hwf. unfold getPseudoMoves.
  apply returns_forEach; intros r Hr. apply returns_forEach; intros cc Hc.
  apply squareMoves_fromPiece; [assumption|]. inb; lia.
Qed.

(** ** Attack detection returns on every board of the right shape *)

Set Warnings "-notation-for-abbreviation".
Notation total m := (returns m (fun _ => True)).

Lemma total_Ok : forall (A : Type) (m : Res A), total m <-> exists a, m = Ok a.
Proof.
  intros A m; rewrite returns_Ok. split; intros [a H]; exists a; tauto.
Qed.

Lemma holds_total : forall b r c byColor k,
    wfBoard b -> total (holds b r c byColor k).
Proof.
  intros b r c byColor k Hwf; unfold holds, andR; simpl.
  destruct (inBounds r c) eqn:E; simpl; auto.
  eapply returns_bind; [apply cellAt_inb; assumption|]. intros; simpl; auto.
Qed.

Lemma attackRay_total : forall b byColor k1 k2 dr dc fuel r c,
    wfBoard b ->
    (inBounds r c = true ->
     inBounds (r + Z.of_nat fuel * dr) (c + Z.of_nat fuel * dc) = false) ->
    total (attackRay fuel b byColor k1 k2 dr dc r c).
Proof.
  intros b byColor k1 k2 dr dc fuel; induction fuel as [|fuel IH];
    intros r c Hwf Hfuel.
  - simpl. destruct (inBounds r c) eqn:E; simpl; auto.
    specialize (Hfuel eq_refl). simpl in Hfuel.
    rewrite !Z.add_0_r in Hfuel. congruence.
  - cbn [attackRay]. destruct (inBounds r c) eqn:E; simpl; auto.
    eapply returns_bind; [apply cellAt_inb; assumption|].
    intros [pc|] _; simpl; auto.
    apply IH; [assumption|]. intros E'. specialize (Hfuel eq_refl).
    replace (r + dr + Z.of_nat fuel * dr) with (r + Z.of_nat (S fuel) * dr) by lia.
    replace (c + dc + Z.of_nat fuel * dc) with (c + Z.of_nat (S fuel) * dc) by lia.
    exact Hfuel.
Qed.

Lemma attackRays_total : forall b byColor k1 k2 r c dirs,
    wfBoard b -> Forall unitDir dirs ->
    total (anyR (fun d : Z * Z =>
                   attackRay 8 b byColor k1 k2 (fst d) (snd d)
                             (r + fst d) (c + snd d)) dirs).
Proof.
  intros b byColor k1 k2 r c dirs Hwf Hd. apply returns_anyR.
  intros [dr dc] Hx. rewrite Forall_forall in Hd. specialize (Hd _ Hx).
  destruct Hd as [H1 [H2 H3]]; cbn [fst snd] in *.
  apply attackRay_total; [assumption|]. intros E. apply inBounds_false_iff.
  apply inBounds_iff in E. lia.
Qed.

Lemma orR_total : forall a b : Res bool, total a -> total b -> total (orR a b).
Proof.
  intros a b Ha Hb; unfold orR.
  eapply returns_bind; [exact Ha|]. intros [|] _; simpl; auto.
Qed.

Lemma isSquareAttacked_total : forall b r c byColor,
    wfBoard b -> total (isSquareAttacked b r c byColor).
Proof.
  intros b r c byColor Hwf; unfold isSquareAttacked.
  assert (Hh : forall (A : Type) (f : A -> Z * Z) k (l : list A),
             total (anyR (fun d => holds b (fst (f d)) (snd (f d)) byColor k) l)).
  { intros A f k l; apply returns_anyR; intros; apply holds_total; assumption. }
  apply orR_total.
  { apply (Hh _ (fun d : Z * Z => (r + fst d, c + snd d))). }
  apply orR_total.
  { apply (Hh _ (fun d : Z * Z => (r + fst d, c + snd d))). }
  cbv zeta. apply orR_total.
  { apply (Hh _ (fun dc : Z => (r + match byColor with WHITE => 1 | BLACK => -1 end,
                                c + dc))). }
  apply orR_total.
  - apply attackRays_total; [assumption | apply unitDir_diag].
  - apply attackRays_total; [assumption | apply unitDir_straight].
Qed.

Lemma findKingRow_total : forall b c r cs,
    wfBoard b -> 0 <= r < 8 -> total (findKingRow b c r cs).
Proof.
  intros b c r cs Hwf Hr; induction cs as [|cc cs IH]; simpl; auto.
  eapply returns_bind; [apply cellAt_total; assumption|].
  intros [pc|] _; auto.
  destruct (color_eqb (color pc) c && type_eqb (type pc) KING); simpl; auto.
Qed.

Lemma findKingRows_total : forall b c rs,
    wfBoard b -> (forall r, In r rs -> 0 <= r < 8) -> total (findKingRows b c rs).
Proof.
  intros b c rs Hwf; induction rs as [|r rs IH]; intros Hrs;
    cbn [findKingRows]; [simpl; auto|].
  eapply returns_bind; [apply findKingRow_total; [assumption|apply Hrs; left; reflexivity]|].
  intros [sq|] _; simpl; auto.
  apply IH. intros r' Hr'; apply Hrs; right; exact Hr'.
Qed.

Lemma findKing_total : forall b c, wfBoard b -> total (findKing b c).
Proof.
  intros b c Hwf; apply findKingRows_total; [assumption|].
  intros r Hr; apply idx8_range; exact Hr.
Qed.

Lemma isInCheck_total : forall b c, wfBoard b -> total (isInCheck b c).
Proof.
  intros b c Hwf; unfold isInCheck.
  eapply returns_bind; [apply findKing_total; assumption|].
  intros [k|] _; simpl; auto. apply isSquareAttacked_total; assumption.
Qed.

(** ** Applying a move keeps the shape of the board *)

Lemma setCell_wf : forall b r c v,
    wfBoard b -> inBounds r c = true -> returns (setCell b r c v) wfBoard.
Proof.
  intros b r c v Hwf Hin.
  eapply returns_weaken; [apply setCell_spec; assumption|]. intros b' [H _]; exact H.
Qed.

Lemma applyMoveToBoard_wf : forall b m,
    wfBoard b -> inRange (from m) -> inRange (to m) ->
    (promotion m <> None ->
     exists pc, cellAt b (row (from m)) (col (from m)) = Ok (Some pc)) ->
    returns (applyMoveToBoard b m) wfBoard.
Proof.
  intros b m Hwf Hf Ht Hp. unfold applyMoveToBoard, inRange in *.
  pose proof Hf as Hf'. apply inBounds_iff in Hf'. destruct Hf' as [Hfr Hfc].
  pose proof Ht as Ht'. apply inBounds_iff in Ht'. destruct Ht' as [Htr Htc].
  eapply returns_bind with (Q := fun p => cellAt b (row (from m)) (col (from m)) = Ok p).
  { destruct (cellAt b (row (from m)) (col (from m))) eqn:E; simpl; auto;
      pose proof (@cellAt_inb _ _ _ Hwf Hf) as H; rewrite E in H; exact H. }
  intros piece Hpiece.
  eapply returns_bind; [apply setCell_wf; assumption|]. intros b1 Hb1.
  eapply returns_bind with (Q := wfBoard).
  { destruct (isEnPassant m); simpl; auto.
    apply setCell_wf; [assumption|]. apply inBounds_iff; lia. }
  intros b2 Hb2.
  eapply returns_bind with (Q := wfBoard).
  { destruct (castlingSide m) as [[|]|]; simpl; auto.
    - eapply returns_bind; [apply cellAt_total; assumption|]. intros rook _.
      eapply returns_bind; [apply setCell_wf; [assumption|apply inBounds_iff; lia]|].
      intros b' Hb'. apply setCell_wf; [assumption|apply inBounds_iff; lia].
    - eapply returns_bind; [apply cellAt_total; assumption|]. intros rook _.
      eapply returns_bind; [apply setCell_wf; [assumption|apply inBounds_iff; lia]|].
      intros b' Hb'. apply setCell_wf; [assumption|apply inBounds_iff; lia]. }
  intros b3 Hb3.
  destruct (promotion m) as [promo|].
  - destruct Hp as [pc Hpc]; [discriminate|].
    rewrite Hpc in Hpiece; injection Hpiece as <-.
    apply setCell_wf; assumption.
  - apply setCell_wf; assumption.
Qed.

Lemma applyMoveToBoard_fromPiece : forall b c m,
    wfBoard b -> fromPiece b c m -> returns (applyMoveToBoard b m) wfBoard.
Proof.
  intros b c m Hwf [Hf [Ht [pc [Hpc _]]]].
  apply applyMoveToBoard_wf; auto. intros _; exists pc; exact Hpc.
Qed.

(** ** Legal moves *)

Lemma castlingAllowed_total : forall state c m,
    wfBoard (board state) -> total (castlingAllowed state c m).
Proof.
  intros state c m Hwf; unfold castlingAllowed.
  destruct (castlingSide m) as [side|]; simpl; auto.
  eapply returns_bind; [apply isInCheck_total; assumption|].
  intros [|] _; simpl; auto.
  destruct (match side with SideK => (5, 6) | SideQ => (3, 2) end) as [c1 c2].
  eapply returns_bind; [apply isSquareAttacked_total; assumption|].
  intros [|] _; simpl; auto.
  eapply returns_bind; [apply isSquareAttacked_total; assumption|].
  intros; simpl; auto.
Qed.

Lemma isLegal_spec : forall state c m,
    wfBoard (board state) -> fromPiece (board state) c m ->
    returns (isLegal state c m)
            (fun ok => ok = true -> leavesKingSafe (board state) c m).
Proof.
  intros state c m Hwf Hm; unfold isLegal.
  eapply returns_bind; [apply castlingAllowed_total; assumption|].
  intros [|] _; simpl; [|discriminate].
  rewrite cloneBoard_id.
  pose proof (applyMoveToBoard_fromPiece _ _ _ Hwf Hm) as Ha.
  destruct (applyMoveToBoard (board state) m) as [nb| | |] eqn:E; simpl in Ha;
    try contradiction.
  simpl. pose proof (isInCheck_total nb c Ha) as Hc.
  destruct (isInCheck nb c) as [chk| | |] eqn:E2; simpl in Hc; try contradiction.
  simpl. intros Hn. apply negb_true_iff in Hn; subst chk.
  exists nb; rewrite cloneBoard_id; auto.
Qed.

Lemma getLegalMoves_spec : forall state c,
    wfBoard (board state) ->
    returns (getLegalMoves state (Some c))
            (fun l => forall m, In m l ->
                                fromPiece (board state) c m /\
                                leavesKingSafe (board state) c m).
Proof.
  intros state c Hwf; unfold getLegalMoves.
  eapply returns_bind; [apply getPseudoMoves_fromPiece; assumption|].
  intros pseudo Hps.
  eapply returns_weaken.
  - apply returns_filterR with (Q := fun m => leavesKingSafe (board state) c m).
    intros m Hm. apply isLegal_spec; [assumption|].
    rewrite Forall_forall in Hps; apply Hps; exact Hm.
  - intros l Hl m Hm. destruct (Hl m Hm) as [Hin Hsafe]. split; [|exact Hsafe].
    rewrite Forall_forall in Hps; apply Hps; exact Hin.
Qed.

Lemma getLegalMoves_default : forall state,
    getLegalMoves state None = getLegalMoves state (Some (turn state)).
Proof. reflexivity. Qed.

(** ** Notation and draw detection return *)

Lemma colLetter_total : forall c, 0 <= c < 8 -> total (colLetter c).
Proof.
  intros c Hc; unfold colLetter, fromCharCode.
  destruct (Z.leb_spec 0 (97 + c)); [|lia].
  destruct (Z.ltb_spec (97 + c) 128); [|lia]. simpl; auto.
Qed.

Lemma total_filterR : forall (A : Type) (f : A -> Res bool) (l : list A),
    (forall x, In x l -> total (f x)) -> total (filterR f l).
Proof.
  intros A f l H.
  eapply returns_weaken; [apply returns_filterR with (Q := fun _ => True)|auto].
  intros x Hx. eapply returns_weaken; [apply H; exact Hx|auto].
Qed.

Lemma getMoveNotation_total : forall state m piece capt,
    wfBoard (board state) -> inRange (from m) -> inRange (to m) ->
    total (getMoveNotation state m piece capt).
Proof.
  intros state m piece capt Hwf Hf Ht. unfold inRange in *.
  apply inBounds_iff in Hf, Ht. destruct Hf as [Hfr Hfc]. destruct Ht as [Htr Htc].
  unfold getMoveNotation.
  destruct (castlingSide m) as [[|]|]; simpl; auto.
  eapply returns_bind with (Q := fun _ => True).
  { destruct (negb (type_eqb (type piece) PAWN)); simpl; auto.
    eapply returns_bind; [apply getPseudoMoves_fromPiece; assumption|].
    intros pseudo Hps.
    eapply returns_bind.
    { apply total_filterR. intros x Hx. unfold samePiece, andR; simpl.
      destruct ((row (to x) =? row (to m)) && (col (to x) =? col (to m))); simpl; auto.
      rewrite Forall_forall in Hps. destruct (Hps x Hx) as [Hxf _].
      unfold inRange in Hxf.
      eapply returns_bind; [apply cellAt_inb; assumption|]. intros; simpl; auto. }
    intros same _.
    eapply returns_bind with (Q := fun _ => True); [|intros; simpl; auto].
    destruct same as [|y same]; [simpl; auto|].
    destruct (negb (existsb (fun x => col (from x) =? col (from m)) (y :: same)));
      [apply colLetter_total; assumption|].
    destruct (negb (existsb (fun x => row (from x) =? row (from m)) (y :: same)));
      [simpl; auto|].
    eapply returns_bind; [apply colLetter_total; assumption|]. intros; simpl; auto. }
  intros n1 _.
  eapply returns_bind with (Q := fun _ => True).
  { destruct ((match capt with Some _ => true | None => false end) || isEnPassant m);
      simpl; auto.
    eapply returns_bind with (Q := fun _ => True); [|intros; simpl; auto].
    destruct (type_eqb (type piece) PAWN); simpl; auto.
    eapply returns_bind; [apply colLetter_total; assumption|]. intros; simpl; auto. }
  intros n2 _.
  eapply returns_bind; [apply colLetter_total; assumption|]. intros; simpl; auto.
Qed.

Lemma total_forEach : forall (A B : Type) (f : A -> Res (list B)) (l : list A),
    (forall x, In x l -> total (f x)) -> total (forEach f l).
Proof.
  intros A B f l H.
  eapply returns_weaken; [apply returns_forEach with (P := fun _ => True)|auto].
  intros x Hx. eapply returns_weaken; [apply H; exact Hx|].
  intros a _. apply Forall_forall; auto.
Qed.

Lemma nonKings_total : forall b c, wfBoard b -> total (nonKings b c).
Proof.
  intros b c Hwf; unfold nonKings.
  apply total_forEach; intros r Hr. apply total_forEach; intros cc Hc.
  eapply returns_bind; [apply cellAt_total; [assumption|apply idx8_range; exact Hr]|].
  intros; simpl; auto.
Qed.

Lemma isInsufficientMaterial_total : forall b,
    wfBoard b -> total (isInsufficientMaterial b).
Proof.
  intros b Hwf; unfold isInsufficientMaterial.
  eapply returns_bind; [apply nonKings_total; assumption|]. intros wp _.
  eapply returns_bind; [apply nonKings_total; assumption|]. intros; simpl; auto.
Qed.

(** ** What a call of [makeMove] returns *)

Lemma cellAt_cases : forall b r c,
    wfBoard b -> inBounds r c = true -> exists p, cellAt b r c = Ok p.
Proof.
  intros b r c Hwf Hin. apply total_Ok. apply cellAt_inb; assumption.
Qed.

(** On a board of the right shape and for a move between two of its
    squares, the call returns; it leaves the object of the caller as it
    was; it returns [null] exactly when the origin is empty, and otherwise
    a state whose board has the right shape. *)
Lemma makeMoveCall_spec : forall state m,
    wfBoard (board state) -> inRange (from m) -> inRange (to m) ->
    returns (makeMoveCall state m)
            (fun r => fst r = state /\
                      match snd r with
                      | None =>
                          cellAt (board state) (row (from m)) (col (from m)) = Ok None
                      | Some s' =>
                          wfBoard (board s') /\
                          exists pc, cellAt (board state) (row (from m)) (col (from m))
                                     = Ok (Some pc)
                      end).
Proof.
  intros state m Hwf Hf Ht. unfold makeMoveCall. rewrite cloneState_id.
  destruct (@cellAt_cases _ _ _ Hwf Hf) as [piece Hpiece]. rewrite Hpiece. simpl.
  destruct piece as [pc|]; [|simpl; auto].
  destruct (@cellAt_cases _ _ _ Hwf Ht) as [capt Hcapt]. rewrite Hcapt. simpl.
  eapply returns_bind; [apply getMoveNotation_total; assumption|]. intros notation _.
  eapply returns_bind.
  { apply applyMoveToBoard_wf; auto. intros _; exists pc; exact Hpiece. }
  intros board' Hb'.
  eapply returns_bind.
  { apply getLegalMoves_spec. exact Hb'. }
  intros replies _.
  eapply returns_bind; [apply isInCheck_total; exact Hb'|]. intros inCheck _.
  cbn [board gameOver result halfMoveClock].
  destruct (match replies with
            | [] => _
            | _ :: _ => _
            end) as [[finalNotation over1] result1].
  eapply returns_bind with (Q := fun _ => True).
  { destruct (negb over1); simpl; auto. apply isInsufficientMaterial_total; exact Hb'. }
  intros insufficient _.
  destruct (if negb over1 && insufficient then _ else _) as [over2 result2].
  destruct (if negb over2 && _ then _ else _) as [over3 result3].
  simpl. split; [reflexivity|]. split; [exact Hb'|]. exists pc; reflexivity.
Qed.

Lemma makeMove_spec : forall state m,
    wfBoard (board state) -> inRange (from m) -> inRange (to m) ->
    returns (makeMove state m)
            (fun r => match r with
                      | None =>
                          cellAt (board state) (row (from m)) (col (from m)) = Ok None
                      | Some s' =>
                          wfBoard (board s') /\
                          exists pc, cellAt (board state) (row (from m)) (col (from m))
                                     = Ok (Some pc)
                      end).
Proof.
  intros state m Hwf Hf Ht. unfold makeMove.
  eapply returns_bind; [apply makeMoveCall_spec; assumption|].
  intros [s0 r] [_ H]; simpl in *. exact H.
Qed.

(** * The claims *)

(** ** C1: legal moves never leave the own king attacked *)

(** C1.  For every state [s] (with a board of eight ranks of eight cells)
    and every colour [c], [getLegalMoves(s, c)] returns a list, and every
    move of that list, applied by [applyMoveToBoard] to a copy of the board
    of [s], gives a board on which [isInCheck] for [c] is [false]. *)
Theorem getLegalMoves_king_safe : forall (s : GameState) (c : Color),
    wfBoard (board s) ->
    exists l, getLegalMoves s (Some c) = Ok l /\
              forall m, In m l ->
                        exists nb, applyMoveToBoard (cloneBoard (board s)) m = Ok nb /\
                                   isInCheck nb c = Ok false.
Proof.
  intros s c Hwf.
  pose proof (getLegalMoves_spec _ c Hwf) as H.
  apply returns_Ok in H. destruct H as [l [Hl H]].
  exists l; split; [exact Hl|].
  intros m Hm. destruct (H m Hm) as [_ Hsafe]. exact Hsafe.
Qed.

Lemma getLegalMoves_king_safe_witness :
  wfBoard (board startState) /\
  exists l, getLegalMoves startState (Some WHITE) = Ok l /\
            forall m, In m l ->
                      exists nb, applyMoveToBoard (cloneBoard (board startState)) m = Ok nb /\
                                 isInCheck nb WHITE = Ok false.
Proof.
  split; [reflexivity|].
  apply (getLegalMoves_king_safe startState WHITE). reflexivity.
Defined.

(** ** C2: when [makeMove] fails *)

(** C2.  For every state [s] with a board of eight ranks of eight cells
    and every move [m] between two squares of the board, the call
    [makeMove(s, m)] returns without a fault; the object [s] of the caller
    holds after the call what it held before; and the returned value is
    [null] if and only if the origin square of [m] is empty on the board of
    [s]. *)
Theorem makeMove_null_iff_empty_origin : forall (s : GameState) (m : Move),
    wfBoard (board s) -> inRange (from m) -> inRange (to m) ->
    exists (after : GameState) (r : option GameState),
      makeMoveCall s m = Ok (after, r) /\
      makeMove s m = Ok r /\
      after = s /\
      (r = None <-> cellAt (board s) (row (from m)) (col (from m)) = Ok None).
Proof.
  intros s m Hwf Hf Ht.
  pose proof (makeMoveCall_spec _ m Hwf Hf Ht) as H.
  apply returns_Ok in H. destruct H as [[after r] [Hcall [Hs Hr]]]. simpl in *.
  exists after, r. split; [exact Hcall|]. split.
  - unfold makeMove. rewrite Hcall. reflexivity.
  - split; [exact Hs|]. destruct r as [s'|].
    + destruct Hr as [_ [pc Hpc]]. split; intros H; [discriminate|].
      rewrite Hpc in H; discriminate.
    + split; auto.
Qed.

Lemma makeMove_null_iff_empty_origin_witness :
  exists (after : GameState) (r : option GameState),
    makeMoveCall startState (simpleMove (mkSquare 4 4) (mkSquare 3 4)) = Ok (after, r) /\
    makeMove startState (simpleMove (mkSquare 4 4) (mkSquare 3 4)) = Ok r /\
    after = startState /\
    (r = None <-> cellAt (board startState) 4 4 = Ok None).
Proof.
  apply (makeMove_null_iff_empty_origin startState
           (simpleMove (mkSquare 4 4) (mkSquare 3 4))); reflexivity.
Defined.

(** ** C10: boards without a king *)

Lemma findKingRow_none : forall b c r cs,
    wfBoard b -> 0 <= r < 8 ->
    (forall cc pc, cellAt b r cc = Ok (Some pc) -> ~ (color pc = c /\ type pc = KING)) ->
    findKingRow b c r cs = Ok None.
Proof.
  intros b c r cs Hwf Hr Hno; induction cs as [|cc cs IH]; simpl; auto.
  pose proof (@cellAt_total b r cc Hwf Hr) as Ht. apply total_Ok in Ht.
  destruct Ht as [p Hp]. rewrite Hp; simpl.
  destruct p as [pc|]; [|exact IH].
  destruct (color_eqb (color pc) c && type_eqb (type pc) KING) eqn:E; [|exact IH].
  apply andb_true_iff in E. destruct E as [E1 E2].
  apply color_eqb_eq in E1. apply type_eqb_eq in E2.
  exfalso. apply (Hno cc pc Hp). split; assumption.
Qed.

Lemma findKing_none : forall b c,
    wfBoard b ->
    (forall r cc pc, cellAt b r cc = Ok (Some pc) -> ~ (color pc = c /\ type pc = KING)) ->
    findKing b c = Ok None.
Proof.
  intros b c Hwf Hno. unfold findKing.
  assert (H : forall rs, (forall r, In r rs -> 0 <= r < 8) ->
                         findKingRows b c rs = Ok None).
  { induction rs as [|r rs IH]; intros Hrs; cbn [findKingRows]; auto.
    rewrite findKingRow_none;
      [|exact Hwf|apply Hrs; left; reflexivity|apply Hno].
    simpl. apply IH. intros r' Hr'; apply Hrs; right; exact Hr'. }
  apply H. intros r Hr; apply idx8_range; exact Hr.
Qed.

(** C10.  On every board of eight ranks of eight cells [isInCheck] returns a
    boolean; when the board holds no king of colour [c] it returns [false];
    and on such boards, with or without kings, [getLegalMoves] and
    [makeMove] (for a move between two squares of the board) return
    without a fault. *)
Theorem isInCheck_total_kingless : forall (b : Board) (c : Color),
    wfBoard b ->
    (exists v, isInCheck b c = Ok v) /\
    ((forall r cc pc, cellAt b r cc = Ok (Some pc) ->
                      ~ (color pc = c /\ type pc = KING)) ->
     isInCheck b c = Ok false /\
     (forall s co, board s = b -> exists l, getLegalMoves s co = Ok l) /\
     (forall s m, board s = b -> inRange (from m) -> inRange (to m) ->
                  exists r, makeMove s m = Ok r)).
Proof.
  intros b c Hwf. split.
  - apply total_Ok. apply isInCheck_total; exact Hwf.
  - intros Hno. split; [|split].
    + unfold isInCheck. rewrite findKing_none; auto.
    + intros s co Hs. subst b. apply total_Ok.
      destruct co as [c'|]; [|rewrite getLegalMoves_default];
        (eapply returns_weaken; [apply getLegalMoves_spec; exact Hwf|auto]).
    + intros s m Hs Hf Ht. subst b. apply total_Ok.
      eapply returns_weaken; [apply makeMove_spec; assumption|auto].
Qed.

Lemma isInCheck_total_kingless_witness :
  wfBoard (board (fromFEN "4k3/8/8/8/8/8/4P3/8 w - - 0 1")) /\
  ((exists v, isInCheck (board (fromFEN "4k3/8/8/8/8/8/4P3/8 w - - 0 1")) WHITE = Ok v) /\
   ((forall r cc pc,
        cellAt (board (fromFEN "4k3/8/8/8/8/8/4P3/8 w - - 0 1")) r cc = Ok (Some pc) ->
        ~ (color pc = WHITE /\ type pc = KING)) ->
    isInCheck (board (fromFEN "4k3/8/8/8/8/8/4P3/8 w - - 0 1")) WHITE = Ok false /\
    (forall s co, board s = board (fromFEN "4k3/8/8/8/8/8/4P3/8 w - - 0 1") ->
                  exists l, getLegalMoves s co = Ok l) /\
    (forall s m, board s = board (fromFEN "4k3/8/8/8/8/8/4P3/8 w - - 0 1") ->
                 inRange (from m) -> inRange (to m) ->
                 exists r, makeMove s m = Ok r))).
Proof.
  split; [reflexivity|].
  apply (isInCheck_total_kingless
           (board (fromFEN "4k3/8/8/8/8/8/4P3/8 w - - 0 1")) WHITE).
  reflexivity.
Defined.

(** ** The state a successful [makeMove] returns *)

(** [getLegalMoves] reads the board, the castling rights and the
    en-passant target of the state, and nothing else of it. *)
Lemma getLegalMoves_ext : forall s1 s2 c,
    board s1 = board s2 -> castling s1 = castling s2 ->
    enPassant s1 = enPassant s2 ->
    getLegalMoves s1 (Some c) = getLegalMoves s2 (Some c).
Proof.
  intros [b1 t1 cs1 ep1 h1 f1 mh1 cp1 mn1 g1 r1]
         [b2 t2 cs2 ep2 h2 f2 mh2 cp2 mn2 g2 r2] c Hb Hc He.
  simpl in Hb, Hc, He. subst b2 cs2 ep2. reflexivity.
Qed.

Lemma makeMove_inv : forall s m s',
    makeMove s m = Ok (Some s') ->
    exists pc capt replies inCheck,
      cellAt (board s) (row (from m)) (col (from m)) = Ok (Some pc) /\
      cellAt (board s) (row (to m)) (col (to m)) = Ok capt /\
      applyMoveToBoard (board s) m = Ok (board s') /\
      turn s' = opponent (color pc) /\
      castling s' =
        updateCastling (castling s) pc capt (col (from m)) (col (to m)) /\
      getLegalMoves s' (Some (turn s')) = Ok replies /\
      isInCheck (board s') (turn s') = Ok inCheck /\
      (replies <> [] -> gameOver s = true ->
       gameOver s' = true /\ result s' = result s) /\
      (replies <> [] -> gameOver s = false ->
       exists ins, isInsufficientMaterial (board s') = Ok ins /\
                   (ins = true -> gameOver s' = true /\ result s' = Some Draw)).
Proof.
  intros s m s' H. unfold makeMove in H.
  apply bind_Ok in H. destruct H as [[after r] [H Hr]].
  simpl in Hr. injection Hr as ->.
  unfold makeMoveCall in H. rewrite cloneState_id in H.
  apply bind_Ok in H. destruct H as [piece [Hpiece H]].
  destruct piece as [pc|]; [|discriminate].
  apply bind_Ok in H. destruct H as [capt [Hcapt H]].
  apply bind_Ok in H. destruct H as [notation [_ H]].
  apply bind_Ok in H. destruct H as [board' [Hboard H]].
  apply bind_Ok in H. destruct H as [replies [Hreplies H]].
  apply bind_Ok in H. destruct H as [inCheck [HinCheck H]].
  cbn [board gameOver result halfMoveClock turn] in H, Hreplies, HinCheck.
  exists pc, capt, replies, inCheck.
  assert (Hrep : forall s2, board s2 = board' ->
                            castling s2 = updateCastling (castling s) pc capt
                                                         (col (from m)) (col (to m)) ->
                            enPassant s2 =
                              (if type_eqb (type pc) PAWN
                                  && (Z.abs (row (to m) - row (from m)) =? 2)
                               then Some (mkSquare ((row (from m) + row (to m)) / 2)
                                                   (col (from m)))
                               else None) ->
                            getLegalMoves s2 (Some (opponent (color pc))) = Ok replies).
  { intros s2 H1 H2 H3. rewrite <- Hreplies. apply getLegalMoves_ext; assumption. }
  destruct replies as [|m1 replies]; destruct inCheck;
    cbv beta iota in H;
    apply bind_Ok in H; destruct H as [ins [Hins H]];
    destruct (gameOver s) eqn:Eg; cbn [negb andb fst snd] in Hins, H;
    first [injection Hins as <- | destruct ins]; cbn [negb andb] in H;
    try destruct (100 <=? _) in H;
    injection H as _ <-; cbn [board turn castling gameOver result];
    (split; [assumption|]); (split; [assumption|]); (split; [assumption|]);
    (split; [reflexivity|]); (split; [reflexivity|]);
    (split; [apply Hrep; reflexivity|]); (split; [assumption|]);
    (split;
     [intros Hne Hg; try discriminate; try (exfalso; apply Hne; reflexivity);
      split; reflexivity
     |intros Hne Hg; try discriminate; try (exfalso; apply Hne; reflexivity);
      eexists; (split; [eassumption|]); intros Ht; try discriminate;
      split; reflexivity]).
Qed.

Lemma castling_eta : forall cs, mkCastling (wK cs) (wQ cs) (bK cs) (bQ cs) = cs.
Proof. intros []; reflexivity. Qed.

(** Every field of the state [makeMove] returns, but the board, the turn
    and the castling rights, which [makeMove_inv] gives. *)
Lemma makeMove_fields : forall s m s',
    makeMove s m = Ok (Some s') ->
    exists pc capt notation replies inCheck,
      cellAt (board s) (row (from m)) (col (from m)) = Ok (Some pc) /\
      cellAt (board s) (row (to m)) (col (to m)) = Ok capt /\
      getMoveNotation s m pc capt = Ok notation /\
      getLegalMoves s' (Some (turn s')) = Ok replies /\
      isInCheck (board s') (turn s') = Ok inCheck /\
      enPassant s' =
        (if type_eqb (type pc) PAWN && (Z.abs (row (to m) - row (from m)) =? 2)
         then Some (mkSquare ((row (from m) + row (to m)) / 2) (col (from m)))
         else None) /\
      halfMoveClock s' =
        (if type_eqb (type pc) PAWN
            || (match capt with Some _ => true | None => false end)
            || isEnPassant m
         then 0 else halfMoveClock s + 1) /\
      fullMoveNumber s' =
        (if color_eqb (color pc) BLACK then fullMoveNumber s + 1
         else fullMoveNumber s) /\
      moveHistory s' =
        moveHistory s ++ [mkHistoryEntry m capt (castling s) (enPassant s)] /\
      capturedPieces s' =
        (let caps1 :=
           match capt with
           | Some cp => pushCaptured (capturedPieces s) (color cp) (type cp)
           | None => capturedPieces s
           end in
         if isEnPassant m then pushCaptured caps1 (opponent (color pc)) PAWN
         else caps1) /\
      moveNotations s' =
        moveNotations s ++ [marked notation replies inCheck] /\
      (replies = [] ->
       gameOver s' = true /\
       result s' = Some (if inCheck
                         then if color_eqb (color pc) WHITE then WhiteWins else BlackWins
                         else Draw)) /\
      (replies <> [] -> gameOver s' = false -> result s' = result s) /\
      (gameOver s' = true <->
       replies = [] \/ gameOver s = true \/
       isInsufficientMaterial (board s') = Ok true \/
       100 <= halfMoveClock s') /\
      (replies <> [] -> gameOver s = false -> gameOver s' = true ->
       result s' = Some Draw).
Proof.
  intros s m s' H. unfold makeMove in H.
  apply bind_Ok in H. destruct H as [[after r] [H Hr]].
  simpl in Hr. injection Hr as ->.
  unfold makeMoveCall in H. rewrite cloneState_id in H.
  apply bind_Ok in H. destruct H as [piece [Hpiece H]].
  destruct piece as [pc|]; [|discriminate].
  apply bind_Ok in H. destruct H as [capt [Hcapt H]].
  apply bind_Ok in H. destruct H as [notation [Hnot H]].
  apply bind_Ok in H. destruct H as [board' [Hboard H]].
  apply bind_Ok in H. destruct H as [replies [Hreplies H]].
  apply bind_Ok in H. destruct H as [inCheck [HinCheck H]].
  cbn [board gameOver result halfMoveClock turn] in H, Hreplies, HinCheck.
  rewrite castling_eta in H.
  exists pc, capt, notation, replies, inCheck.
  assert (Hrep : forall s2, board s2 = board' ->
                            castling s2 = updateCastling (castling s) pc capt
                                                         (col (from m)) (col (to m)) ->
                            enPassant s2 =
                              (if type_eqb (type pc) PAWN
                                  && (Z.abs (row (to m) - row (from m)) =? 2)
                               then Some (mkSquare ((row (from m) + row (to m)) / 2)
                                                   (col (from m)))
                               else None) ->
                            getLegalMoves s2 (Some (opponent (color pc))) = Ok replies).
  { intros s2 H1 H2 H3. rewrite <- Hreplies. apply getLegalMoves_ext; assumption. }
  set (hm := if type_eqb (type pc) PAWN
                || (match capt with Some _ => true | None => false end)
                || isEnPassant m
             then 0 else halfMoveClock s + 1) in *.
  destruct replies as [|m1 replies]; destruct inCheck;
    cbv beta iota in H;
    apply bind_Ok in H; destruct H as [ins [Hins H]];
    destruct (gameOver s) eqn:Eg; cbn [negb andb fst snd] in Hins, H;
    first [injection Hins as <- | destruct ins]; cbn [negb andb] in H;
    try (destruct (100 <=? hm) eqn:Ehm in H);
    injection H as _ <-;
    cbn [board turn castling gameOver result enPassant halfMoveClock
         fullMoveNumber moveHistory capturedPieces moveNotations marked];
    (split; [assumption|]); (split; [assumption|]); (split; [assumption|]);
    (split; [apply Hrep; reflexivity|]); (split; [assumption|]);
    (split; [reflexivity|]); (split; [reflexivity|]); (split; [reflexivity|]);
    (split; [reflexivity|]); (split; [reflexivity|]); (split; [reflexivity|]);
    (split; [intros Hr; try discriminate; split; reflexivity|]);
    (split; [intros Hne Hg; try discriminate;
             try (exfalso; apply Hne; reflexivity); reflexivity|]);
    (split; [|intros Hne Hg Ho; try discriminate; try (exfalso; apply Hne; reflexivity); try reflexivity]).
  all: try (split; [intros _; auto; fail | intros _; reflexivity]).
  all: try (apply Z.leb_le in Ehm); try (apply Z.leb_gt in Ehm).
  all: try (split; [intros _; auto; fail | intros _; reflexivity]).
  all: try (split; [intros Hx; discriminate|]).
  all: intros [Hx|[Hx|[Hx|Hx]]]; try discriminate; try lia; try congruence.
Qed.

Ltac fields_of H :=
  apply makeMove_fields in H;
  destruct H as (pc & capt & notation & replies' & inCheck & Hpc & Hcapt & Hnot
                 & Hrep & Hchk & Hep & Hhm & Hfm & Hhist & Hcaps & Hnots
                 & Hnone & Hlive & Hover & Hdraw).

(** ** C5: the turn after a move *)

(** C5, as stated, fails: in the initial position (White to move) the move
    of the black pawn from (1,4) to (3,4) is applied by [makeMove], and the
    state returned has White to move again, not [opponent(s.turn)]. *)
Lemma makeMove_turn_counterexample :
  returns (makeMove startState (simpleMove (mkSquare 1 4) (mkSquare 3 4)))
          (fun r => exists s', r = Some s' /\
                               turn startState = WHITE /\
                               turn s' = WHITE /\
                               turn s' <> opponent (turn startState)).
Proof.
  vm_compute. eexists; split; [reflexivity|].
  split; [reflexivity|]. split; [reflexivity|]. discriminate.
Qed.

(** C5, amended.  Whenever [makeMove(s, m)] returns a state, the turn of
    that state is the opponent of the colour of the piece that stood on the
    origin of [m] in [s]; it is [opponent(s.turn)] when that piece belongs
    to the side to move. *)
Theorem makeMove_turn : forall (s : GameState) (m : Move) (s' : GameState),
    makeMove s m = Ok (Some s') ->
    exists pc, cellAt (board s) (row (from m)) (col (from m)) = Ok (Some pc) /\
               turn s' = opponent (color pc) /\
               (color pc = turn s -> turn s' = opponent (turn s)).
Proof.
  intros s m s' H. apply makeMove_inv in H.
  destruct H as [pc [capt [replies [inCheck [Hpc [_ [_ [Hturn _]]]]]]]].
  exists pc. split; [exact Hpc|]. split; [exact Hturn|].
  intros <-. exact Hturn.
Qed.

Lemma makeMove_turn_witness :
  makeMove startState (simpleMove (mkSquare 6 4) (mkSquare 4 4))
  = Ok (Some (stateAfter startState (simpleMove (mkSquare 6 4) (mkSquare 4 4)))) /\
  exists pc, cellAt (board startState) 6 4 = Ok (Some pc) /\
             turn (stateAfter startState (simpleMove (mkSquare 6 4) (mkSquare 4 4)))
             = opponent (color pc) /\
             (color pc = turn startState ->
              turn (stateAfter startState (simpleMove (mkSquare 6 4) (mkSquare 4 4)))
              = opponent (turn startState)).
Proof.
  split; [vm_compute; reflexivity|].
  apply (makeMove_turn startState (simpleMove (mkSquare 6 4) (mkSquare 4 4))
                       (stateAfter startState (simpleMove (mkSquare 6 4) (mkSquare 4 4)))).
  vm_compute; reflexivity.
Defined.

(** ** C4: castling rights after a move *)

(** The castling rights of the state [makeMove] returns are those
    [updateCastling] computes from the rights before, the moved piece, the
    captured piece and the two columns of the move: the rows of the move do
    not enter. *)
Lemma makeMove_castling : forall s m s',
    makeMove s m = Ok (Some s') ->
    exists pc capt,
      cellAt (board s) (row (from m)) (col (from m)) = Ok (Some pc) /\
      cellAt (board s) (row (to m)) (col (to m)) = Ok capt /\
      castling s' = updateCastling (castling s) pc capt (col (from m)) (col (to m)).
Proof.
  intros s m s' H. apply makeMove_inv in H.
  destruct H as [pc [capt [replies [inCheck [Hpc [Hcapt [_ [_ [Hc _]]]]]]]]].
  exists pc, capt; auto.
Qed.

(** C4, the code at a failing input.  In the position
    [4k3/8/8/8/R7/8/8/R3K3 w Q - 0 1] White still has the queen-side right:
    king on e1 and rook on a1 have not moved.  The move of the other white
    rook from a4 (row 4, column 0) to b4 returns a state in which that right
    is cleared, although the rook did not leave its home rank (row 7) and
    king and a1 rook stand where they stood. *)
Theorem makeMove_clears_right_off_home_rank :
  returns (makeMove (fromFEN "4k3/8/8/8/R7/8/8/R3K3 w Q - 0 1")
                    (simpleMove (mkSquare 4 0) (mkSquare 4 1)))
          (fun r => exists s', r = Some s' /\
                               wQ (castling (fromFEN "4k3/8/8/8/R7/8/8/R3K3 w Q - 0 1")) = true /\
                               wQ (castling s') = false /\
                               cellAt (board s') 7 0 = Ok (Some (mkPiece WHITE ROOK)) /\
                               cellAt (board s') 7 4 = Ok (Some (mkPiece WHITE KING))).
Proof.
  vm_compute. eexists; split; [reflexivity|]. repeat split.
Qed.

(** ** C8: what an en-passant move does to the board *)

(** C8, as stated, fails for a move that carries the castling flag beside
    the en-passant flag: the rook move changes a fourth and a fifth
    square.  Here the white pawn on (3,4) takes en passant on (2,5) with
    the flag ['K'] set, and the rook on (3,7) lands on (3,5). *)
Lemma applyMoveToBoard_enPassant_counterexample :
  returns (applyMoveToBoard
             (board (fromFEN "4k3/8/8/4Pp1R/8/8/8/4K3 w - f6 0 1"))
             (mkMove (mkSquare 3 4) (mkSquare 2 5) None true (Some SideK)))
          (fun b' =>
             cellAt (board (fromFEN "4k3/8/8/4Pp1R/8/8/8/4K3 w - f6 0 1")) 3 7
             = Ok (Some (mkPiece WHITE ROOK)) /\
             cellAt b' 3 7 = Ok None /\
             ~ enPassantEffect
                 (board (fromFEN "4k3/8/8/4Pp1R/8/8/8/4K3 w - f6 0 1"))
                 (mkMove (mkSquare 3 4) (mkSquare 2 5) None true (Some SideK))
                 b').
Proof.
  vm_compute. split; [reflexivity|]. split; [reflexivity|].
  intros [_ [_ [_ H]]].
  specialize (H 3 7 eq_refl).
  assert (H1 : Ok (@None Piece) = Ok (Some (mkPiece WHITE ROOK))).
  { apply H; intros [E1 E2]; discriminate. }
  discriminate.
Qed.

(** C8, amended.  For every board of eight ranks of eight cells and every
    move between two of its squares that carries the en-passant flag and
    neither a castling nor a promotion flag, and whose destination is on
    another row than its origin, [applyMoveToBoard] empties the square on
    the row of the origin and the column of the destination, puts on the
    destination what stood on the origin, empties the origin and leaves
    every other square as it was. *)
Theorem applyMoveToBoard_enPassant : forall (b : Board) (m : Move),
    wfBoard b -> inRange (from m) -> inRange (to m) ->
    isEnPassant m = true -> castlingSide m = None -> promotion m = None ->
    row (to m) <> row (from m) ->
    exists b', applyMoveToBoard b m = Ok b' /\ enPassantEffect b m b'.
Proof.
  intros b m Hwf Hf Ht He Hc Hp Hrow. unfold inRange in *.
  unfold applyMoveToBoard. rewrite He, Hc, Hp.
  destruct (cellAt_cases _ _ _ Hwf Hf) as [piece Hpiece]. rewrite Hpiece. simpl.
  pose proof (setCell_spec b _ _ None Hwf Hf) as H1.
  apply returns_Ok in H1. destruct H1 as [b1 [E1 [Hwf1 R1]]]. rewrite E1. simpl.
  assert (Hmid : inBounds (row (from m)) (col (to m)) = true).
  { apply inBounds_iff in Hf, Ht. apply inBounds_iff. lia. }
  pose proof (setCell_spec b1 _ _ None Hwf1 Hmid) as H2.
  apply returns_Ok in H2. destruct H2 as [b2 [E2 [Hwf2 R2]]]. rewrite E2. simpl.
  pose proof (setCell_spec b2 _ _ piece Hwf2 Ht) as H3.
  apply returns_Ok in H3. destruct H3 as [b3 [E3 [Hwf3 R3]]].
  exists b3. split; [exact E3|].
  unfold enPassantEffect. repeat split.
  - rewrite R3, R2.
    destruct (Z.eqb_spec (row (from m)) (row (to m))); [congruence|].
    simpl. rewrite !Z.eqb_refl. reflexivity.
  - rewrite R3, !Z.eqb_refl. simpl. symmetry; exact Hpiece.
  - rewrite R3, R2, R1.
    destruct (Z.eqb_spec (row (from m)) (row (to m))); [congruence|].
    simpl. rewrite !Z.eqb_refl. simpl.
    destruct (col (from m) =? col (to m)); reflexivity.
  - intros r c _ Hnf Hnt Hnm. rewrite R3, R2, R1.
    destruct (Z.eqb_spec r (row (to m))); destruct (Z.eqb_spec c (col (to m)));
      destruct (Z.eqb_spec r (row (from m))); destruct (Z.eqb_spec c (col (from m)));
      simpl; try reflexivity; exfalso; tauto.
Qed.

Lemma applyMoveToBoard_enPassant_witness :
  exists b',
    applyMoveToBoard (board (fromFEN "4k3/8/8/4Pp2/8/8/8/4K3 w - f6 0 1"))
                     (mkMove (mkSquare 3 4) (mkSquare 2 5) None true None) = Ok b' /\
    enPassantEffect (board (fromFEN "4k3/8/8/4Pp2/8/8/8/4K3 w - f6 0 1"))
                    (mkMove (mkSquare 3 4) (mkSquare 2 5) None true None) b'.
Proof.
  apply (applyMoveToBoard_enPassant
           (board (fromFEN "4k3/8/8/4Pp2/8/8/8/4K3 w - f6 0 1"))
           (mkMove (mkSquare 3 4) (mkSquare 2 5) None true None));
    try reflexivity.
  simpl; lia.
Defined.

(** ** C9: king and bishop against king and bishop *)

Lemma piece_eqb_eq : forall p q, piece_eqb p q = true -> p = q.
Proof.
  intros [c1 k1] [c2 k2] H; unfold piece_eqb in H; simpl in H.
  apply andb_true_iff in H. destruct H as [H1 H2].
  apply color_eqb_eq in H1. apply type_eqb_eq in H2. congruence.
Qed.

Lemma holdsExactly_cell : forall b ps r c,
    holdsExactly b ps -> 0 <= r < 8 -> 0 <= c < 8 ->
    cellAt b r c = Ok (placed ps (mkSquare r c)).
Proof.
  intros b ps r c [_ H] Hr Hc.
  apply andb_true_iff in H. destruct H as [_ H].
  rewrite forallb_forall in H. specialize (H r (proj2 (idx8_range r) Hr)).
  rewrite forallb_forall in H. specialize (H c (proj2 (idx8_range c) Hc)).
  unfold cellIs in H.
  destruct (cellAt b r c) as [[p|]| | |]; destruct (placed ps (mkSquare r c));
    try discriminate; auto.
  apply piece_eqb_eq in H. congruence.
Qed.

Lemma forEach_nil : forall (A B : Type) (f : A -> Res (list B)) (l : list A),
    (forall x, In x l -> f x = Ok []) -> forEach f l = Ok [].
Proof.
  intros A B f l; induction l as [|x l IH]; intros H; simpl; auto.
  rewrite (H x (or_introl eq_refl)). simpl.
  rewrite IH; [reflexivity|]. intros y Hy; apply H; right; exact Hy.
Qed.

Lemma forEach_single : forall (A B : Type) (f : A -> Res (list B)) (l : list A)
                              (x0 : A) (y : B),
    NoDup l -> In x0 l -> f x0 = Ok [y] ->
    (forall x, In x l -> x <> x0 -> f x = Ok []) ->
    forEach f l = Ok [y].
Proof.
  intros A B f l x0 y; induction l as [|x l IH]; intros Hnd Hin Hx0 Hother.
  - contradiction.
  - inversion Hnd as [|x' l' Hnotin Hnd']; subst. simpl.
    destruct Hin as [-> | Hin].
    + rewrite Hx0. simpl. rewrite forEach_nil; [reflexivity|].
      intros z Hz. apply Hother; [right; exact Hz|].
      intros ->; contradiction.
    + rewrite (Hother x (or_introl eq_refl)); [|intros ->; contradiction].
      simpl. rewrite IH; auto.
      intros z Hz Hne; apply Hother; [right; exact Hz | exact Hne].
Qed.

Lemma NoDup_idx8 : NoDup idx8.
Proof.
  unfold idx8. repeat constructor; simpl; intros H; lia.
Qed.

(** The scan of [isInsufficientMaterial] on a board that holds exactly one
    piece of colour [c] beside kings: it collects that piece. *)
Lemma nonKings_single : forall b ps c sq k,
    holdsExactly b ps -> inRange sq -> k <> KING ->
    placed ps sq = Some (mkPiece c k) ->
    (forall r cc, 0 <= r < 8 -> 0 <= cc < 8 ->
                  (r <> row sq \/ cc <> col sq) ->
                  match placed ps (mkSquare r cc) with
                  | Some p => type p = KING \/ color p <> c
                  | None => True
                  end) ->
    nonKings b c = Ok [mkMaterial k (row sq) (col sq)].
Proof.
  intros b ps c sq k Hb Hsq Hk Hat Hother. unfold inRange in Hsq.
  apply inBounds_iff in Hsq. destruct Hsq as [Hr Hc].
  assert (Hquiet : forall r cc, 0 <= r < 8 -> 0 <= cc < 8 ->
                                (r <> row sq \/ cc <> col sq) ->
                                (p <- cellAt b r cc ;;
                                 Ok (match p with
                                     | Some pc =>
                                         if negb (type_eqb (type pc) KING)
                                            && color_eqb (color pc) c
                                         then [mkMaterial (type pc) r cc]
                                         else []
                                     | None => []
                                     end)) = Ok []).
  { intros r cc Hr' Hc' Hne.
    rewrite (holdsExactly_cell b ps r cc Hb Hr' Hc'). simpl.
    specialize (Hother r cc Hr' Hc' Hne).
    destruct (placed ps (mkSquare r cc)) as [p|]; [|reflexivity].
    destruct Hother as [H|H].
    - rewrite H. reflexivity.
    - destruct (color_eqb (color p) c) eqn:E.
      + apply color_eqb_eq in E; contradiction.
      + rewrite andb_false_r; reflexivity. }
  unfold nonKings.
  apply forEach_single with (x0 := row sq).
  - apply NoDup_idx8.
  - apply idx8_range; exact Hr.
  - apply forEach_single with (x0 := col sq).
    + apply NoDup_idx8.
    + apply idx8_range; exact Hc.
    + rewrite (holdsExactly_cell b ps _ _ Hb Hr Hc).
      destruct sq as [sr sc]; simpl in *. rewrite Hat. simpl.
      replace (type_eqb k KING) with false
        by (symmetry; destruct k; try reflexivity; contradiction Hk; reflexivity).
      replace (color_eqb c c) with true by (symmetry; apply color_eqb_eq; reflexivity).
      reflexivity.
    + intros cc Hcc Hne. apply Hquiet; [exact Hr | apply idx8_range; exact Hcc | right; exact Hne].
  - intros r Hr' Hne. apply forEach_nil. intros cc Hcc.
    apply Hquiet; [apply idx8_range; exact Hr' | apply idx8_range; exact Hcc | left; exact Hne].
Qed.

Lemma square_eqb_eq : forall a r c,
    square_eqb a (mkSquare r c) = true <-> r = row a /\ c = col a.
Proof.
  intros a r c; unfold square_eqb; simpl.
  rewrite andb_true_iff, !Z.eqb_eq. intuition congruence.
Qed.

Lemma square_eqb_refl : forall a, square_eqb a a = true.
Proof. intros a; unfold square_eqb. rewrite !Z.eqb_refl; reflexivity. Qed.

Lemma square_eqb_sym : forall a b, square_eqb a b = square_eqb b a.
Proof.
  intros a b; unfold square_eqb. rewrite (Z.eqb_sym (row a)), (Z.eqb_sym (col a)).
  reflexivity.
Qed.

Lemma kingBishopEach_material : forall b wk bk wb bb,
    kingBishopEach b wk bk wb bb ->
    isInsufficientMaterial b =
    Ok ((row wb + col wb) mod 2 =? (row bb + col bb) mod 2).
Proof.
  intros b wk bk wb bb H. pose proof H as [Hwf Hb].
  apply andb_true_iff in Hb. destruct Hb as [Hb _].
  apply andb_true_iff in Hb. destruct Hb as [Hin Hd].
  rewrite forallb_forall in Hin.
  assert (Hwb : inRange wb).
  { apply (Hin (wb, mkPiece WHITE BISHOP)). simpl; auto. }
  assert (Hbb : inRange bb).
  { apply (Hin (bb, mkPiece BLACK BISHOP)). simpl; auto. }
  clear Hin.
  cbn [fst map distinctSquares existsb] in Hd.
  rewrite !andb_true_r, !orb_false_r in Hd.
  repeat match goal with
         | H : (_ && _) = true |- _ => apply andb_true_iff in H; destruct H
         | H : negb _ = true |- _ => apply negb_true_iff in H
         | H : (_ || _) = false |- _ => apply orb_false_iff in H; destruct H
         end.
  assert (Hw : nonKings b WHITE = Ok [mkMaterial BISHOP (row wb) (col wb)]).
  { eapply nonKings_single; [exact H | assumption | discriminate | |].
    - cbn [placed].
      repeat match goal with E : square_eqb _ _ = false |- _ => rewrite E; clear E end.
      rewrite square_eqb_refl. reflexivity.
    - intros r cc Hr Hc Hne. cbn [placed].
      destruct (square_eqb wk (mkSquare r cc)); [left; reflexivity|].
      destruct (square_eqb bk (mkSquare r cc)); [left; reflexivity|].
      destruct (square_eqb wb (mkSquare r cc)) eqn:E.
      + apply square_eqb_eq in E. lia.
      + destruct (square_eqb bb (mkSquare r cc)); [right; discriminate|exact I]. }
  assert (Hbl : nonKings b BLACK = Ok [mkMaterial BISHOP (row bb) (col bb)]).
  { eapply nonKings_single; [exact H | assumption | discriminate | |].
    - cbn [placed].
      repeat match goal with E : square_eqb _ _ = false |- _ => rewrite E; clear E end.
      rewrite square_eqb_refl. reflexivity.
    - intros r cc Hr Hc Hne. cbn [placed].
      destruct (square_eqb wk (mkSquare r cc)); [left; reflexivity|].
      destruct (square_eqb bk (mkSquare r cc)); [left; reflexivity|].
      destruct (square_eqb wb (mkSquare r cc)); [right; discriminate|].
      destruct (square_eqb bb (mkSquare r cc)) eqn:E; [|exact I].
      apply square_eqb_eq in E. lia. }
  unfold isInsufficientMaterial. rewrite Hw, Hbl. reflexivity.
Qed.

(** C9, as stated, fails when the state given to [makeMove] is already
    over: [gameOver] and [result] are copied by [cloneState], the test
    [!newState.gameOver] then skips the insufficient-material rule, and the
    state returned keeps the copied result.  Here Black has legal replies,
    the board holds king and bishop against king and bishop with both
    bishops on squares of the same colour, and the result stays a win of
    White. *)
Lemma makeMove_sameBishops_counterexample :
  makeMove bishopsOver kingStep = Ok (Some (stateAfter bishopsOver kingStep)) /\
  returns (getLegalMoves (stateAfter bishopsOver kingStep)
                         (Some (turn (stateAfter bishopsOver kingStep))))
          (fun replies => replies <> []) /\
  kingBishopEach (board (stateAfter bishopsOver kingStep))
                 (mkSquare 6 4) (mkSquare 0 4) (mkSquare 7 2) (mkSquare 0 5) /\
  (7 + 2) mod 2 = (0 + 5) mod 2 /\
  gameOver (stateAfter bishopsOver kingStep) = true /\
  result (stateAfter bishopsOver kingStep) = Some WhiteWins /\
  result (stateAfter bishopsOver kingStep) <> Some Draw.
Proof.
  split; [vm_compute; reflexivity|].
  split; [vm_compute; discriminate|].
  split; [split; vm_compute; reflexivity|].
  split; [reflexivity|].
  split; [vm_compute; reflexivity|].
  split; [vm_compute; reflexivity|].
  vm_compute; discriminate.
Qed.

(** C9, amended.  For every [makeMove(s, m)] that returns a state [s'],
    from a state [s] that is not over, such that the side to move in [s']
    has a legal move (no checkmate, no stalemate): if the board of [s']
    holds one king and one bishop of each colour and nothing else, then
    [s'] is over with result Draw when the two bishops stand on squares of
    the same colour (equal parity of row + col); when they stand on
    squares of opposite colours, [isInsufficientMaterial] is false on that
    board and the rule sets nothing in [s']: [s'] is over exactly when its
    half-move clock has reached 100, and below 100 its result is the
    result of [s]. *)
Theorem makeMove_kingBishopEach :
  forall (s : GameState) (m : Move) (s' : GameState)
         (wk bk wb bb : Square) (reply : Move) (rest : list Move),
    makeMove s m = Ok (Some s') ->
    gameOver s = false ->
    getLegalMoves s' (Some (turn s')) = Ok (reply :: rest) ->
    kingBishopEach (board s') wk bk wb bb ->
    ((row wb + col wb) mod 2 = (row bb + col bb) mod 2 ->
     gameOver s' = true /\ result s' = Some Draw) /\
    ((row wb + col wb) mod 2 <> (row bb + col bb) mod 2 ->
     isInsufficientMaterial (board s') = Ok false /\
     gameOver s' = (100 <=? halfMoveClock s') /\
     (halfMoveClock s' < 100 -> result s' = result s)).
Proof.
  intros s m s' wk bk wb bb reply rest Hmove Hlive Hreplies Hkb.
  pose proof (kingBishopEach_material _ _ _ _ _ Hkb) as Hmat.
  split.
  - intros Hpar. apply makeMove_inv in Hmove.
    destruct Hmove as [pc [capt [replies [inCheck
                        [_ [_ [_ [_ [_ [Hr [_ [_ Hins]]]]]]]]]]]].
    rewrite Hreplies in Hr. injection Hr as <-.
    destruct (Hins ltac:(discriminate) Hlive) as [ins [Hi Hdraw]].
    rewrite Hmat in Hi. injection Hi as <-.
    apply Hdraw. apply Z.eqb_eq. exact Hpar.
  - intros Hpar.
    assert (Hfalse : isInsufficientMaterial (board s') = Ok false).
    { rewrite Hmat. f_equal. apply Z.eqb_neq. exact Hpar. }
    split; [exact Hfalse|].
    apply makeMove_fields in Hmove.
    destruct Hmove as (pc & capt & notation & replies & inCheck & _ & _ & _
                       & Hr & _ & _ & _ & _ & _ & _ & _ & _ & Hquiet & Hover & _).
    rewrite Hreplies in Hr. injection Hr as <-.
    assert (Hiff : gameOver s' = true <-> 100 <= halfMoveClock s').
    { rewrite Hover. split.
      - intros [Hx|[Hx|[Hx|Hx]]]; [discriminate|congruence|congruence|exact Hx].
      - intros Hx. right; right; right. exact Hx. }
    assert (Hnot : halfMoveClock s' < 100 -> gameOver s' = false).
    { intros Hlt. destruct (gameOver s'); [|reflexivity].
      assert (100 <= halfMoveClock s') by (apply Hiff; reflexivity). lia. }
    split.
    + destruct (Z.leb_spec 100 (halfMoveClock s')) as [Hge|Hlt].
      * apply Hiff. exact Hge.
      * apply Hnot. exact Hlt.
    + intros Hlt. apply Hquiet; [discriminate|]. apply Hnot. exact Hlt.
Qed.

Lemma makeMove_kingBishopEach_witness :
  (gameOver (stateAfter (fromFEN bishopsFEN) kingStep) = true /\
   result (stateAfter (fromFEN bishopsFEN) kingStep) = Some Draw) /\
  (isInsufficientMaterial (board (stateAfter (fromFEN oppositeBishopsFEN) kingStep))
   = Ok false /\
   gameOver (stateAfter (fromFEN oppositeBishopsFEN) kingStep)
   = (100 <=? halfMoveClock (stateAfter (fromFEN oppositeBishopsFEN) kingStep)) /\
   (halfMoveClock (stateAfter (fromFEN oppositeBishopsFEN) kingStep) < 100 ->
    result (stateAfter (fromFEN oppositeBishopsFEN) kingStep)
    = result (fromFEN oppositeBishopsFEN))).
Proof.
  split.
  - apply (proj1 (makeMove_kingBishopEach
                    (fromFEN bishopsFEN) kingStep
                    (stateAfter (fromFEN bishopsFEN) kingStep)
                    (mkSquare 6 4) (mkSquare 0 4) (mkSquare 7 2) (mkSquare 0 5)
                    (simpleMove (mkSquare 0 4) (mkSquare 0 3))
                    (tl (match getLegalMoves (stateAfter (fromFEN bishopsFEN) kingStep)
                                             (Some BLACK) with
                         | Ok l => l
                         | _ => []
                         end))
                    ltac:(vm_compute; reflexivity)
                    ltac:(vm_compute; reflexivity)
                    ltac:(vm_compute; reflexivity)
                    ltac:(split; vm_compute; reflexivity))).
    vm_compute; reflexivity.
  - apply (proj2 (makeMove_kingBishopEach
                    (fromFEN oppositeBishopsFEN) kingStep
                    (stateAfter (fromFEN oppositeBishopsFEN) kingStep)
                    (mkSquare 6 4) (mkSquare 0 4) (mkSquare 7 3) (mkSquare 0 5)
                    (simpleMove (mkSquare 0 4) (mkSquare 0 3))
                    (tl (match getLegalMoves
                                 (stateAfter (fromFEN oppositeBishopsFEN) kingStep)
                                 (Some BLACK) with
                         | Ok l => l
                         | _ => []
                         end))
                    ltac:(vm_compute; reflexivity)
                    ltac:(vm_compute; reflexivity)
                    ltac:(vm_compute; reflexivity)
                    ltac:(split; vm_compute; reflexivity))).
    vm_compute; discriminate.
Defined.

(** * The search *)

(** ** Scores with infinities *)

Lemma within_emb : forall B x, within B x -> - B <= emb B x <= B.
Proof. intros B [|z|]; simpl; lia. Qed.

Lemma num_ltb_emb : forall B a b,
    within B a -> within B b -> (num_ltb a b = true <-> emb B a < emb B b).
Proof.
  intros B [|x|] [|y|]; simpl; rewrite ?Z.ltb_lt; intros Ha Hb;
    split; intros H; try discriminate; try reflexivity; lia.
Qed.

Lemma num_leb_emb : forall B a b,
    within B a -> within B b -> (num_leb a b = true <-> emb B a <= emb B b).
Proof.
  intros B [|x|] [|y|]; unfold num_leb; simpl;
    rewrite ?negb_true_iff, ?Z.ltb_ge; intros Ha Hb;
    split; intros H; try discriminate; try reflexivity; lia.
Qed.

Lemma num_leb_emb_false : forall B a b,
    within B a -> within B b -> (num_leb a b = false <-> emb B b < emb B a).
Proof.
  intros B [|x|] [|y|]; unfold num_leb; simpl;
    rewrite ?negb_false_iff, ?Z.ltb_lt; intros Ha Hb;
    split; intros H; try discriminate; try reflexivity; lia.
Qed.

Lemma num_eq_emb : forall B a b,
    within B a -> within B b -> (a = b <-> emb B a = emb B b).
Proof.
  intros B [|x|] [|y|]; simpl; intros Ha Hb; split; intros H;
    try discriminate; try reflexivity; try lia.
  - injection H as ->; reflexivity.
  - f_equal; exact H.
Qed.

Lemma num_max_emb : forall B a b,
    within B a -> within B b ->
    within B (num_max a b) /\ emb B (num_max a b) = Z.max (emb B a) (emb B b).
Proof.
  intros B a b Ha Hb. unfold num_max.
  pose proof (num_ltb_emb B a b Ha Hb) as H.
  destruct (num_ltb a b).
  - split; [exact Hb|]. destruct H as [H _]. specialize (H eq_refl). lia.
  - split; [exact Ha|]. destruct H as [_ H].
    destruct (Z_lt_ge_dec (emb B a) (emb B b)) as [L|G]; [|lia].
    specialize (H L); discriminate.
Qed.

Lemma num_min_emb : forall B a b,
    within B a -> within B b ->
    within B (num_min a b) /\ emb B (num_min a b) = Z.min (emb B a) (emb B b).
Proof.
  intros B a b Ha Hb. unfold num_min.
  pose proof (num_ltb_emb B b a Hb Ha) as H.
  destruct (num_ltb b a).
  - split; [exact Hb|]. destruct H as [H _]. specialize (H eq_refl). lia.
  - split; [exact Ha|]. destruct H as [_ H].
    destruct (Z_lt_ge_dec (emb B b) (emb B a)) as [L|G]; [|lia].
    specialize (H L); discriminate.
Qed.

Lemma boundOf_pos : forall l, 0 < boundOf l.
Proof. induction l as [|x l IH]; cbn [boundOf]; lia. Qed.

Lemma boundOf_within : forall l x, In x l -> within (boundOf l) x.
Proof.
  induction l as [|y l IH]; intros x Hin; [contradiction|].
  pose proof (boundOf_pos l). destruct Hin as [-> | H0].
  - destruct x; cbn [boundOf within]; lia.
  - specialize (IH x H0). destruct x; destruct y; cbn [boundOf within] in *; lia.
Qed.

(** Decides a statement about the order of the scores listed in [vars]:
    comparisons, maxima and minima are read on integers. *)
Ltac within_hyp B a k :=
  match goal with
  | Ha : within B a |- _ => k Ha
  end.

Ltac num_order vars :=
  let B := fresh "B" in
  set (B := boundOf vars);
  repeat match goal with
         | x : Num |- _ =>
             lazymatch goal with
             | _ : within B x |- _ => fail
             | _ => assert (within B x) by (apply boundOf_within; simpl; tauto)
             end
         end;
  clearbody B;
  repeat match goal with
         | |- context [num_max ?a ?b] =>
             within_hyp B a ltac:(fun Ha =>
             within_hyp B b ltac:(fun Hb =>
               let H1 := fresh in
               let H2 := fresh in
               destruct (num_max_emb B a b Ha Hb) as [H1 H2];
               let mx := fresh "mx" in
               set (mx := num_max a b) in *; clearbody mx))
         | |- context [num_min ?a ?b] =>
             within_hyp B a ltac:(fun Ha =>
             within_hyp B b ltac:(fun Hb =>
               let H1 := fresh in
               let H2 := fresh in
               destruct (num_min_emb B a b Ha Hb) as [H1 H2];
               let mn := fresh "mn" in
               set (mn := num_min a b) in *; clearbody mn))
         end;
  repeat match goal with
         | |- context [num_ltb ?a ?b = true] =>
             within_hyp B a ltac:(fun Ha =>
             within_hyp B b ltac:(fun Hb => rewrite (num_ltb_emb B a b Ha Hb)))
         | |- context [num_leb ?a ?b = true] =>
             within_hyp B a ltac:(fun Ha =>
             within_hyp B b ltac:(fun Hb => rewrite (num_leb_emb B a b Ha Hb)))
         | |- context [num_leb ?a ?b = false] =>
             within_hyp B a ltac:(fun Ha =>
             within_hyp B b ltac:(fun Hb => rewrite (num_leb_emb_false B a b Ha Hb)))
         | |- context [@eq Num ?a ?b] =>
             within_hyp B a ltac:(fun Ha =>
             within_hyp B b ltac:(fun Hb => rewrite (num_eq_emb B a b Ha Hb)))
         end;
  repeat match goal with
         | H : within B ?x |- _ => apply within_emb in H
         end;
  lia.

Lemma num_leb_refl : forall x, num_leb x x = true.
Proof. intros x. num_order [x]. Qed.

Lemma num_max_neg : forall x, num_max x NegInf = x.
Proof. intros [|z|]; reflexivity. Qed.

Lemma num_min_pos : forall x, num_min x PosInf = x.
Proof. intros [|z|]; reflexivity. Qed.

Lemma failsoft_refl : forall alpha beta x, failsoft alpha beta x x.
Proof.
  intros alpha beta x; unfold failsoft.
  repeat split; intros; auto using num_leb_refl.
Qed.

Lemma failsoft_full_window : forall x v, failsoft NegInf PosInf x v -> x = v.
Proof.
  intros x v [H1 [H2 H3]]. destruct x.
  - specialize (H1 eq_refl). destruct v; try reflexivity; discriminate.
  - apply H3; reflexivity.
  - specialize (H2 eq_refl). destruct v; try reflexivity; discriminate.
Qed.

(** The arithmetic of one step of the maximizing loop.  [m] and [a] are
    [maxEval] and [alpha] of the pruning loop, [M] is [maxEval] of the full
    loop, [alpha0] is [alpha] at loop entry, [x] and [v] are the scores the
    child returns to the two loops. *)
Lemma max_exit : forall alpha0 beta m a M,
    a = num_max alpha0 m -> num_ltb a beta = true -> num_leb M m = true ->
    (num_ltb alpha0 m = true -> num_leb m M = true) ->
    failsoft alpha0 beta m M.
Proof.
  unfold failsoft. intros alpha0 beta m a M Ha. subst a.
  num_order [alpha0; beta; m; M].
Qed.

Lemma max_break : forall alpha0 beta m a M x v F,
    a = num_max alpha0 m -> num_ltb a beta = true -> num_leb M m = true ->
    (num_ltb alpha0 m = true -> num_leb m M = true) ->
    failsoft a beta x v ->
    num_leb beta (num_max a x) = true ->
    num_leb (num_max M v) F = true ->
    failsoft alpha0 beta (num_max m x) F.
Proof.
  unfold failsoft. intros alpha0 beta m a M x v F Ha. subst a.
  num_order [alpha0; beta; m; M; x; v; F].
Qed.

Lemma max_continue : forall alpha0 beta m a M x v,
    a = num_max alpha0 m -> num_ltb a beta = true -> num_leb M m = true ->
    (num_ltb alpha0 m = true -> num_leb m M = true) ->
    failsoft a beta x v ->
    num_leb beta (num_max a x) = false ->
    num_max a x = num_max alpha0 (num_max m x) /\
    num_ltb (num_max a x) beta = true /\
    num_leb (num_max M v) (num_max m x) = true /\
    (num_ltb alpha0 (num_max m x) = true ->
     num_leb (num_max m x) (num_max M v) = true).
Proof.
  unfold failsoft. intros alpha0 beta m a M x v Ha. subst a.
  num_order [alpha0; beta; m; M; x; v].
Qed.

(** The mirror image for the minimizing loop: [m] and [b] are [minEval] and
    [beta] of the pruning loop, [M] is [minEval] of the full loop, [beta0]
    is [beta] at loop entry. *)
Lemma min_exit : forall alpha beta0 m b M,
    b = num_min beta0 m -> num_ltb alpha b = true -> num_leb m M = true ->
    (num_ltb m beta0 = true -> num_leb M m = true) ->
    failsoft alpha beta0 m M.
Proof.
  unfold failsoft. intros alpha beta0 m b M Hb. subst b.
  num_order [alpha; beta0; m; M].
Qed.

Lemma min_break : forall alpha beta0 m b M x v F,
    b = num_min beta0 m -> num_ltb alpha b = true -> num_leb m M = true ->
    (num_ltb m beta0 = true -> num_leb M m = true) ->
    failsoft alpha b x v ->
    num_leb (num_min b x) alpha = true ->
    num_leb F (num_min M v) = true ->
    failsoft alpha beta0 (num_min m x) F.
Proof.
  unfold failsoft. intros alpha beta0 m b M x v F Hb. subst b.
  num_order [alpha; beta0; m; M; x; v; F].
Qed.

Lemma min_continue : forall alpha beta0 m b M x v,
    b = num_min beta0 m -> num_ltb alpha b = true -> num_leb m M = true ->
    (num_ltb m beta0 = true -> num_leb M m = true) ->
    failsoft alpha b x v ->
    num_leb (num_min b x) alpha = false ->
    num_min b x = num_min beta0 (num_min m x) /\
    num_ltb alpha (num_min b x) = true /\
    num_leb (num_min m x) (num_min M v) = true /\
    (num_ltb (num_min m x) beta0 = true ->
     num_leb (num_min M v) (num_min m x) = true).
Proof.
  unfold failsoft. intros alpha beta0 m b M x v Hb. subst b.
  num_order [alpha; beta0; m; M; x; v].
Qed.

(** ** The pruning search against the full search *)

Lemma maxLoopFull_lower : forall rec s moves M a b best r,
    maxLoopFull rec s moves M a b best = Ok r -> num_leb M (score r) = true.
Proof.
  intros rec s moves; induction moves as [|m moves IH]; intros M a b best r H;
    cbn [maxLoopFull] in H.
  - injection H as <-. apply num_leb_refl.
  - apply bind_Ok in H. destruct H as [[ns|] [_ H]]; [|eapply IH; exact H].
    apply bind_Ok in H. destruct H as [rc [_ H]]. cbv zeta in H.
    apply IH in H. fold (num_max M (score rc)) in H.
    revert H. generalize (score rc) (score r). intros x F.
    num_order [M; x; F].
Qed.

Lemma minLoopFull_upper : forall rec s moves M a b best r,
    minLoopFull rec s moves M a b best = Ok r -> num_leb (score r) M = true.
Proof.
  intros rec s moves; induction moves as [|m moves IH]; intros M a b best r H;
    cbn [minLoopFull] in H.
  - injection H as <-. apply num_leb_refl.
  - apply bind_Ok in H. destruct H as [[ns|] [_ H]]; [|eapply IH; exact H].
    apply bind_Ok in H. destruct H as [rc [_ H]]. cbv zeta in H.
    apply IH in H. fold (num_min M (score rc)) in H.
    revert H. generalize (score rc) (score r). intros x F.
    num_order [M; x; F].
Qed.

Section Loops.

Variables recA recF : GameState -> Num -> Num -> Res SearchResult.

(** The recursive calls: whenever the full search of a child returns, the
    pruning search of the child returns for every window that is not
    empty, with a score related by [failsoft]. *)
Hypothesis Hrec : forall ns alpha beta a0 b0 rF,
    num_ltb alpha beta = true ->
    recF ns a0 b0 = Ok rF ->
    exists r, recA ns alpha beta = Ok r /\
              failsoft alpha beta (score r) (score rF).

Variable s : GameState.

Lemma maxLoop_failsoft : forall alpha0 beta moves m a M bestA bestF aF bF rF,
    a = num_max alpha0 m -> num_ltb a beta = true -> num_leb M m = true ->
    (num_ltb alpha0 m = true -> num_leb m M = true) ->
    maxLoopFull recF s moves M aF bF bestF = Ok rF ->
    exists r, maxLoop recA s moves m a beta bestA = Ok r /\
              failsoft alpha0 beta (score r) (score rF).
Proof.
  intros alpha0 beta moves; induction moves as [|mv moves IH];
    intros m a M bestA bestF aF bF rF Ha Hwin Hlow Hup H;
    cbn [maxLoopFull] in H; cbn [maxLoop].
  - injection H as <-. eexists; split; [reflexivity|]. simpl.
    eapply max_exit; eassumption.
  - apply bind_Ok in H. destruct H as [o [Hmk H]]. rewrite Hmk. simpl.
    destruct o as [ns|]; [|eapply IH; eassumption].
    apply bind_Ok in H. destruct H as [rc [Hrc H]]. cbv zeta in H.
    destruct (Hrec ns a beta aF bF rc Hwin Hrc) as [ra [Hra Hfs]].
    rewrite Hra. simpl.
    fold (num_max m (score ra)). fold (num_max M (score rc)) in H.
    destruct (num_leb beta (num_max a (score ra))) eqn:Ecut.
    + eexists; split; [reflexivity|]. simpl.
      eapply max_break; try eassumption.
      eapply maxLoopFull_lower; exact H.
    + destruct (max_continue alpha0 beta m a M (score ra) (score rc)
                             Ha Hwin Hlow Hup Hfs Ecut)
        as [Ha' [Hwin' [Hlow' Hup']]].
      eapply IH; eassumption.
Qed.

Lemma minLoop_failsoft : forall alpha beta0 moves m b M bestA bestF aF bF rF,
    b = num_min beta0 m -> num_ltb alpha b = true -> num_leb m M = true ->
    (num_ltb m beta0 = true -> num_leb M m = true) ->
    minLoopFull recF s moves M aF bF bestF = Ok rF ->
    exists r, minLoop recA s moves m alpha b bestA = Ok r /\
              failsoft alpha beta0 (score r) (score rF).
Proof.
  intros alpha beta0 moves; induction moves as [|mv moves IH];
    intros m b M bestA bestF aF bF rF Hb Hwin Hup Hlow H;
    cbn [minLoopFull] in H; cbn [minLoop].
  - injection H as <-. eexists; split; [reflexivity|]. simpl.
    eapply min_exit; eassumption.
  - apply bind_Ok in H. destruct H as [o [Hmk H]]. rewrite Hmk. simpl.
    destruct o as [ns|]; [|eapply IH; eassumption].
    apply bind_Ok in H. destruct H as [rc [Hrc H]]. cbv zeta in H.
    destruct (Hrec ns alpha b aF bF rc Hwin Hrc) as [ra [Hra Hfs]].
    rewrite Hra. simpl.
    fold (num_min m (score ra)). fold (num_min M (score rc)) in H.
    destruct (num_leb (num_min b (score ra)) alpha) eqn:Ecut.
    + eexists; split; [reflexivity|]. simpl.
      eapply min_break; try eassumption.
      eapply minLoopFull_upper; exact H.
    + destruct (min_continue alpha beta0 m b M (score ra) (score rc)
                             Hb Hwin Hup Hlow Hfs Ecut)
        as [Hb' [Hwin' [Hup' Hlow']]].
      eapply IH; eassumption.
Qed.

End Loops.

(** Whenever the full search returns, the pruning search returns for every
    window that is not empty, and its score is related to the full score
    by [failsoft]. *)
Lemma minimax_failsoft : forall fuel s depth alpha beta a0 b0 maximizing rF,
    num_ltb alpha beta = true ->
    minimaxFull fuel s depth a0 b0 maximizing = Ok rF ->
    exists r, minimax fuel s depth alpha beta maximizing = Ok r /\
              failsoft alpha beta (score r) (score rF).
Proof.
  induction fuel as [|fuel IH];
    intros s depth alpha beta a0 b0 maximizing rF Hwin H; [discriminate|].
  cbn [minimaxFull] in H. cbn [minimax].
  destruct ((depth =? 0) || gameOver s).
  { exists rF. split; [exact H | apply failsoft_refl]. }
  apply bind_Ok in H. destruct H as [legal [Hlegal H]]. rewrite Hlegal.
  apply bind_Ok in H. destruct H as [moves [Hmoves H]].
  cbn [bind]. rewrite Hmoves. cbn [bind].
  destruct moves as [|m0 moves].
  { exists rF. split; [exact H | apply failsoft_refl]. }
  destruct maximizing.
  - eapply (maxLoop_failsoft
              (fun ns a b => minimax fuel ns (depth - 1) a b false)
              (fun ns a b => minimaxFull fuel ns (depth - 1) a b false));
      try exact H.
    + intros ns al be a1 b1 r1 Hw Hr. eapply IH; eassumption.
    + symmetry; apply num_max_neg.
    + exact Hwin.
    + reflexivity.
    + intros Hc. destruct alpha; discriminate.
  - eapply (minLoop_failsoft
              (fun ns a b => minimax fuel ns (depth - 1) a b true)
              (fun ns a b => minimaxFull fuel ns (depth - 1) a b true));
      try exact H.
    + intros ns al be a1 b1 r1 Hw Hr. eapply IH; eassumption.
    + symmetry; apply num_min_pos.
    + exact Hwin.
    + reflexivity.
    + intros Hc. destruct beta; discriminate.
Qed.

(** ** The search returns on boards of the right shape *)

Lemma evalCols_total : forall b r cs sc,
    wfBoard b -> 0 <= r < 8 -> total (evalCols b r cs sc).
Proof.
  intros b r cs; induction cs as [|c cs IH]; intros sc Hwf Hr; cbn [evalCols].
  - simpl; auto.
  - eapply returns_bind; [apply cellAt_total; assumption|].
    intros [pc|] _; apply IH; assumption.
Qed.

Lemma evalRows_total : forall b rs sc,
    wfBoard b -> (forall r, In r rs -> 0 <= r < 8) -> total (evalRows b rs sc).
Proof.
  intros b rs; induction rs as [|r rs IH]; intros sc Hwf Hrs; cbn [evalRows].
  - simpl; auto.
  - eapply returns_bind;
      [apply evalCols_total; [assumption | apply Hrs; left; reflexivity]|].
    intros sc' _. apply IH; [assumption|].
    intros r' Hr'; apply Hrs; right; exact Hr'.
Qed.

Lemma evaluate_total : forall s, wfBoard (board s) -> total (evaluate s).
Proof.
  intros s Hwf; unfold evaluate. apply evalRows_total; [assumption|].
  intros r Hr; apply idx8_range; exact Hr.
Qed.

Lemma moveScore_total : forall s c m,
    wfBoard (board s) -> fromPiece (board s) c m -> total (moveScore s m).
Proof.
  intros s c m Hwf [Hf [Ht [pc [Hpc _]]]]. unfold moveScore.
  eapply returns_bind; [apply cellAt_inb; assumption|]. intros capt _.
  eapply returns_bind with (Q := fun _ => True); [|intros; simpl; auto].
  destruct capt as [cp|]; [|simpl; auto].
  rewrite Hpc. simpl; auto.
Qed.

Lemma scoreAll_spec : forall s c moves,
    wfBoard (board s) -> (forall m, In m moves -> fromPiece (board s) c m) ->
    returns (scoreAll s moves) (fun sc => map snd sc = moves).
Proof.
  intros s c moves Hwf; induction moves as [|m moves IH]; intros H; cbn [scoreAll].
  - reflexivity.
  - eapply returns_bind;
      [eapply moveScore_total; [assumption | apply H; left; reflexivity]|].
    intros sc _.
    eapply returns_bind; [apply IH; intros m' Hm'; apply H; right; exact Hm'|].
    intros rest Hrest. simpl. rewrite Hrest. reflexivity.
Qed.

Lemma insertByScore_In : forall x y l,
    In x (insertByScore y l) <-> x = y \/ In x l.
Proof.
  intros x y l; induction l as [|z l IH]; simpl.
  - intuition congruence.
  - destruct (fst y <? fst z); simpl; rewrite ?IH; intuition congruence.
Qed.

Lemma sortByScore_In : forall x l, In x (sortByScore l) <-> In x l.
Proof.
  intros x l; induction l as [|y l IH]; simpl; [tauto|].
  rewrite insertByScore_In, IH. intuition congruence.
Qed.

(** [orderMoves] returns the moves it is given, in some order. *)
Lemma orderMoves_spec : forall s c moves,
    wfBoard (board s) -> (forall m, In m moves -> fromPiece (board s) c m) ->
    returns (orderMoves s moves) (fun l => forall m, In m l <-> In m moves).
Proof.
  intros s c moves Hwf H. unfold orderMoves.
  destruct moves as [|m1 [|m2 moves]]; try (simpl; tauto).
  eapply returns_bind; [eapply scoreAll_spec; eassumption|].
  intros sc Hsc.
  change (forall m, In m (map snd (sortByScore sc)) <-> In m (m1 :: m2 :: moves)).
  intros m. rewrite <- Hsc.
  rewrite !in_map_iff. split; intros [x [Hx Hin]]; exists x; split; auto;
    apply sortByScore_In; exact Hin.
Qed.

Section LoopsReturn.

Variable rec : GameState -> Num -> Num -> Res SearchResult.
Hypothesis Hrec : forall ns a b, wfBoard (board ns) -> total (rec ns a b).

Variable s : GameState.
Hypothesis Hwf : wfBoard (board s).

Lemma maxLoopFull_total : forall moves M a b best,
    (forall m, In m moves -> inRange (from m) /\ inRange (to m)) ->
    total (maxLoopFull rec s moves M a b best).
Proof.
  induction moves as [|m moves IH]; intros M a b best H; cbn [maxLoopFull].
  - simpl; auto.
  - destruct (H m (or_introl eq_refl)) as [Hf Ht].
    eapply returns_bind; [apply makeMove_spec; assumption|].
    intros [ns|] Hns.
    + destruct Hns as [Hwf' _].
      eapply returns_bind; [apply Hrec; exact Hwf'|]. intros r _.
      apply IH. intros m' Hm'; apply H; right; exact Hm'.
    + apply IH. intros m' Hm'; apply H; right; exact Hm'.
Qed.

Lemma minLoopFull_total : forall moves M a b best,
    (forall m, In m moves -> inRange (from m) /\ inRange (to m)) ->
    total (minLoopFull rec s moves M a b best).
Proof.
  induction moves as [|m moves IH]; intros M a b best H; cbn [minLoopFull].
  - simpl; auto.
  - destruct (H m (or_introl eq_refl)) as [Hf Ht].
    eapply returns_bind; [apply makeMove_spec; assumption|].
    intros [ns|] Hns.
    + destruct Hns as [Hwf' _].
      eapply returns_bind; [apply Hrec; exact Hwf'|]. intros r _.
      apply IH. intros m' Hm'; apply H; right; exact Hm'.
    + apply IH. intros m' Hm'; apply H; right; exact Hm'.
Qed.

End LoopsReturn.

Lemma minimaxFull_total : forall fuel s depth a b maximizing,
    wfBoard (board s) -> 0 <= depth -> (Z.to_nat depth < fuel)%nat ->
    total (minimaxFull fuel s depth a b maximizing).
Proof.
  induction fuel as [|fuel IH]; intros s depth a b maximizing Hwf Hd Hfuel; [lia|].
  cbn [minimaxFull].
  destruct ((depth =? 0) || gameOver s) eqn:E.
  { eapply returns_bind; [apply evaluate_total; assumption|]. intros; simpl; auto. }
  apply orb_false_iff in E. destruct E as [E _]. apply Z.eqb_neq in E.
  rewrite getLegalMoves_default.
  eapply returns_bind; [apply getLegalMoves_spec; assumption|].
  intros legal Hlegal.
  eapply returns_bind.
  { eapply orderMoves_spec; [assumption|]. intros m Hm. apply Hlegal; exact Hm. }
  intros moves Hmoves.
  assert (Hrange : forall m, In m moves -> inRange (from m) /\ inRange (to m)).
  { intros m Hm. apply Hmoves in Hm. destruct (Hlegal m Hm) as [[Hf [Ht _]] _]. auto. }
  assert (Hrec : forall mx ns a1 b1, wfBoard (board ns) ->
                                     total (minimaxFull fuel ns (depth - 1) a1 b1 mx)).
  { intros mx ns a1 b1 Hns. apply IH; [assumption | lia | lia]. }
  destruct moves as [|m0 moves].
  - eapply returns_bind; [apply isInCheck_total; assumption|].
    intros [|] _; simpl; auto.
  - destruct maximizing.
    + apply maxLoopFull_total; auto; intros ns a1 b1; apply Hrec.
    + apply minLoopFull_total; auto; intros ns a1 b1; apply Hrec.
Qed.

(** ** C7: pruning does not change the score *)

(** C7.  For every state, every depth and either value of the maximizing
    flag: whenever the recursion of [minimax] without the two pruning
    breaks returns from the window (-Infinity, +Infinity), [minimax] itself
    returns from that window, with the same score; and both do return when
    the board has eight ranks of eight cells and the depth is a number of
    plies (a natural number, within the recursion bound of the model). *)
Theorem minimax_score_unpruned :
  forall (fuel : nat) (s : GameState) (depth : Z) (maximizing : bool),
    (forall rF,
        minimaxFull fuel s depth NegInf PosInf maximizing = Ok rF ->
        exists r, minimax fuel s depth NegInf PosInf maximizing = Ok r /\
                  score r = score rF) /\
    (wfBoard (board s) -> 0 <= depth -> (Z.to_nat depth < fuel)%nat ->
     exists r rF,
       minimax fuel s depth NegInf PosInf maximizing = Ok r /\
       minimaxFull fuel s depth NegInf PosInf maximizing = Ok rF /\
       score r = score rF).
Proof.
  intros fuel s depth maximizing.
  assert (Hrel : forall rF,
             minimaxFull fuel s depth NegInf PosInf maximizing = Ok rF ->
             exists r, minimax fuel s depth NegInf PosInf maximizing = Ok r /\
                       score r = score rF).
  { intros rF HrF.
    destruct (minimax_failsoft fuel s depth NegInf PosInf NegInf PosInf maximizing rF
                               eq_refl HrF) as [r [Hr Hfs]].
    exists r. split; [exact Hr|]. apply failsoft_full_window; exact Hfs. }
  split; [exact Hrel|].
  intros Hwf Hd Hfuel.
  pose proof (minimaxFull_total fuel s depth NegInf PosInf maximizing Hwf Hd Hfuel) as HF.
  apply total_Ok in HF. destruct HF as [rF HrF].
  destruct (Hrel rF HrF) as [r [Hr Heq]].
  exists r, rF. auto.
Qed.

Lemma minimax_score_unpruned_witness :
  exists r rF,
    minimax 4 (fromFEN "6k1/5ppp/8/8/8/8/1Q6/K7 w - - 0 1") 3 NegInf PosInf true = Ok r /\
    minimaxFull 4 (fromFEN "6k1/5ppp/8/8/8/8/1Q6/K7 w - - 0 1") 3 NegInf PosInf true = Ok rF /\
    score r = score rF.
Proof.
  apply (proj2 (minimax_score_unpruned
                  4 (fromFEN "6k1/5ppp/8/8/8/8/1Q6/K7 w - - 0 1") 3 true)).
  - reflexivity.
  - lia.
  - simpl; lia.
Defined.

(** ** C6: the move [getBestMove] returns *)

Lemma minimax_returns : forall fuel s depth maximizing,
    wfBoard (board s) -> 0 <= depth -> (Z.to_nat depth < fuel)%nat ->
    exists r, minimax fuel s depth NegInf PosInf maximizing = Ok r.
Proof.
  intros fuel s depth maximizing Hwf Hd Hfuel.
  pose proof (minimaxFull_total fuel s depth NegInf PosInf maximizing Hwf Hd Hfuel) as HF.
  apply total_Ok in HF. destruct HF as [rF HrF].
  destruct (minimax_failsoft fuel s depth NegInf PosInf NegInf PosInf maximizing rF
                             eq_refl HrF) as [r [Hr _]].
  exists r; exact Hr.
Qed.

Lemma maxLoop_move : forall rec s moves M a b best r,
    maxLoop rec s moves M a b best = Ok r ->
    exists m, rmove r = Some m /\ (m = best \/ In m moves).
Proof.
  intros rec s moves; induction moves as [|mv moves IH]; intros M a b best r H;
    cbn [maxLoop] in H.
  - injection H as <-. exists best; simpl; auto.
  - apply bind_Ok in H. destruct H as [[ns|] [_ H]].
    + apply bind_Ok in H. destruct H as [rc [_ H]]. cbv zeta in H.
      destruct (num_leb b (num_max a (score rc))).
      * injection H as <-. simpl.
        destruct (num_ltb M (score rc)); eexists; split; try reflexivity;
          simpl; auto.
      * apply IH in H. destruct H as [m [Hm Hin]]. exists m; split; [exact Hm|].
        destruct (num_ltb M (score rc)); simpl; intuition.
    + apply IH in H. destruct H as [m [Hm Hin]]. exists m; split; [exact Hm|].
      simpl; intuition.
Qed.

Lemma minLoop_move : forall rec s moves M a b best r,
    minLoop rec s moves M a b best = Ok r ->
    exists m, rmove r = Some m /\ (m = best \/ In m moves).
Proof.
  intros rec s moves; induction moves as [|mv moves IH]; intros M a b best r H;
    cbn [minLoop] in H.
  - injection H as <-. exists best; simpl; auto.
  - apply bind_Ok in H. destruct H as [[ns|] [_ H]].
    + apply bind_Ok in H. destruct H as [rc [_ H]]. cbv zeta in H.
      destruct (num_leb (num_min b (score rc)) a).
      * injection H as <-. simpl.
        destruct (num_ltb (score rc) M); eexists; split; try reflexivity;
          simpl; auto.
      * apply IH in H. destruct H as [m [Hm Hin]]. exists m; split; [exact Hm|].
        destruct (num_ltb (score rc) M); simpl; intuition.
    + apply IH in H. destruct H as [m [Hm Hin]]. exists m; split; [exact Hm|].
      simpl; intuition.
Qed.

(** C6, as stated, fails at depth 0: the base case of [minimax] returns no
    move although the initial position has twenty legal moves. *)
Lemma getBestMove_depth0_counterexample :
  getBestMove 4 startState 0 = Ok None /\
  returns (getLegalMoves startState None)
          (fun legal => List.length legal = 20%nat /\ legal <> []).
Proof.
  split; [vm_compute; reflexivity|].
  vm_compute. split; [reflexivity|discriminate].
Qed.

(** C6, amended.  For every state that is not over (board of eight ranks of
    eight cells) and every depth of at least one ply (within the recursion
    bound of the model), [getBestMove] returns; it returns no move only
    when [getLegalMoves] of the state is empty, and whenever the side to
    move has a legal move it returns one of the legal moves. *)
Theorem getBestMove_legal :
  forall (fuel : nat) (s : GameState) (depth : Z),
    wfBoard (board s) -> gameOver s = false ->
    0 < depth -> (Z.to_nat depth < fuel)%nat ->
    exists legal best,
      getLegalMoves s None = Ok legal /\
      getBestMove fuel s depth = Ok best /\
      (best = None -> legal = []) /\
      (legal <> [] -> exists m, best = Some m /\ In m legal).
Proof.
  intros fuel s depth Hwf Hlive Hd Hfuel.
  destruct (minimax_returns fuel s depth (color_eqb (turn s) WHITE) Hwf
                            ltac:(lia) Hfuel) as [r Hr].
  unfold getBestMove. rewrite Hr. cbn [bind].
  destruct fuel as [|fuel]; [discriminate|]. cbn [minimax] in Hr.
  rewrite Hlive in Hr.
  destruct (Z.eqb_spec depth 0) as [E|_]; [lia|]. cbn [orb] in Hr.
  apply bind_Ok in Hr. destruct Hr as [legal [Hlegal Hr]].
  apply bind_Ok in Hr. destruct Hr as [moves [Hmoves Hr]].
  pose proof (getLegalMoves_spec s (turn s) Hwf) as Hspec.
  rewrite <- getLegalMoves_default, Hlegal in Hspec. simpl in Hspec.
  pose proof (orderMoves_spec s (turn s) legal Hwf
                              (fun m Hm => proj1 (Hspec m Hm))) as Hord.
  rewrite Hmoves in Hord. simpl in Hord.
  exists legal, (rmove r). split; [exact Hlegal|]. split; [reflexivity|].
  assert (Hsome : moves <> [] -> exists m, rmove r = Some m /\ In m legal).
  { destruct moves as [|m0 moves]; [intros H; contradiction H; reflexivity|].
    intros _.
    destruct (color_eqb (turn s) WHITE);
      [apply maxLoop_move in Hr | apply minLoop_move in Hr];
      destruct Hr as [m [Hm Hin]]; exists m; (split; [exact Hm|]);
      apply Hord; destruct Hin as [-> | Hin]; [left; reflexivity | exact Hin
                                              |left; reflexivity | exact Hin]. }
  assert (Hne : legal <> [] -> moves <> []).
  { intros Hl Hm. subst moves. destruct legal as [|m legal]; [apply Hl; reflexivity|].
    apply (Hord m). left; reflexivity. }
  split.
  - intros Hnone. destruct legal as [|m legal]; [reflexivity|].
    destruct (Hsome (Hne ltac:(discriminate))) as [m' [Hm' _]]. congruence.
  - intros Hl. apply Hsome, Hne, Hl.
Qed.

Lemma getBestMove_legal_witness :
  exists legal best,
    getLegalMoves startState None = Ok legal /\
    getBestMove 2 startState 1 = Ok best /\
    (best = None -> legal = []) /\
    (legal <> [] -> exists m, best = Some m /\ In m legal).
Proof.
  apply (getBestMove_legal 2 startState 1).
  - reflexivity.
  - reflexivity.
  - lia.
  - simpl; lia.
Defined.

(** * FEN: serializing what was parsed *)

(** ** Splitting and joining *)

Lemma split_cons : forall sep s, exists w ws, split sep s = w :: ws.
Proof.
  intros sep s; destruct s as [|ch s]; simpl.
  - eexists; eexists; reflexivity.
  - destruct (Ascii.eqb ch sep); [eexists; eexists; reflexivity|].
    destruct (split sep s); eexists; eexists; reflexivity.
Qed.

Lemma join_cons : forall sep x w ws,
    join sep (x :: w :: ws) = (x ++ sep ++ join sep (w :: ws))%string.
Proof. reflexivity. Qed.

Lemma join_split : forall sep s, join (String sep EmptyString) (split sep s) = s.
Proof.
  intros sep s; induction s as [|ch s IH]; [reflexivity|].
  cbn [split]. destruct (Ascii.eqb_spec ch sep) as [->|Hne].
  - destruct (split_cons sep s) as [w [ws E]]. rewrite E in *.
    rewrite join_cons, IH. reflexivity.
  - destruct (split_cons sep s) as [w [ws E]]. rewrite E in *.
    destruct ws as [|w' ws].
    + simpl in *. rewrite IH. reflexivity.
    + rewrite join_cons in *. rewrite <- IH. reflexivity.
Qed.

Lemma append_nil_r : forall s : string, (s ++ "")%string = s.
Proof. induction s as [|ch s IH]; simpl; [reflexivity | rewrite IH; reflexivity]. Qed.

Lemma append_assoc : forall a b c : string,
    ((a ++ b) ++ c)%string = (a ++ (b ++ c))%string.
Proof. induction a as [|ch a IH]; intros b c; simpl; [|rewrite IH]; reflexivity. Qed.

(** ** Characters *)

Lemma isDigit_cases : forall ch,
    isDigit ch = true ->
    In ch ["0"; "1"; "2"; "3"; "4"; "5"; "6"; "7"; "8"; "9"]%char.
Proof.
  intros ch; destruct ch as [[|] [|] [|] [|] [|] [|] [|] [|]];
    intros H; vm_compute in H; try discriminate; simpl; tauto.
Qed.

Lemma isPieceLetter_cases : forall ch,
    isPieceLetter ch = true ->
    In ch ["P"; "N"; "B"; "R"; "Q"; "K"; "p"; "n"; "b"; "r"; "q"; "k"]%char.
Proof.
  intros ch; destruct ch as [[|] [|] [|] [|] [|] [|] [|] [|]];
    intros H; vm_compute in H; try discriminate; simpl; tauto.
Qed.

Ltac each_char H :=
  simpl in H;
  repeat (destruct H as [H | H]; [subst|]); try contradiction.

Lemma numToString_digit : forall ch,
    isDigit ch = true -> numToString (digitVal ch) = String ch EmptyString.
Proof.
  intros ch H. apply isDigit_cases in H. each_char H; reflexivity.
Qed.

Lemma pieceOfChar_letter : forall ch,
    isPieceLetter ch = true ->
    exists p, pieceOfChar ch = Ok p /\ pieceChar p = String ch EmptyString.
Proof.
  intros ch H. apply isPieceLetter_cases in H.
  each_char H; eexists; split; reflexivity.
Qed.

Lemma isPieceLetter_not_digit : forall ch,
    isPieceLetter ch = true -> isDigit ch = false.
Proof.
  intros ch H. apply isPieceLetter_cases in H. each_char H; reflexivity.
Qed.

(** ** One rank *)

Lemma skipn_nth : forall (A : Type) (k : nat) (l : list A) (d : A),
    (k < List.length l)%nat -> skipn k l = nth k l d :: skipn (S k) l.
Proof.
  intros A k; induction k as [|k IH]; intros [|x l] d H; simpl in *; try lia.
  - reflexivity.
  - apply IH; lia.
Qed.

Lemma fenRow_render : forall b r rw,
    rowAt b r = Some rw ->
    forall n k e,
      (k + n = List.length rw)%nat ->
      fenRow b r (map Z.of_nat (seq k n)) e = Ok (renderCells (skipn k rw) e).
Proof.
  intros b r rw Hrow n; induction n as [|n IH]; intros k e Hlen.
  - simpl. rewrite skipn_all2 by lia. reflexivity.
  - cbn [seq map fenRow]. unfold cellAt. rewrite Hrow.
    destruct (Z.leb_spec 0 (Z.of_nat k)); [|lia].
    rewrite Nat2Z.id. cbn [bind].
    rewrite (skipn_nth _ k rw None) by lia.
    destruct (nth k rw None) as [pc|]; cbn [renderCells].
    + rewrite IH by lia. reflexivity.
    + apply IH; lia.
Qed.

Lemma renderCells_repeat : forall n cs e,
    renderCells (repeat (None : Cell) n ++ cs) e = renderCells cs (e + Z.of_nat n).
Proof.
  induction n as [|n IH]; intros cs e.
  - simpl. rewrite Z.add_0_r. reflexivity.
  - cbn [repeat app renderCells]. rewrite IH. f_equal. lia.
Qed.

Lemma flushEmpty_digit : forall ch,
    isDigit ch = true -> 1 <= digitVal ch ->
    flushEmpty (digitVal ch) = String ch EmptyString.
Proof.
  intros ch H H1. unfold flushEmpty.
  destruct (Z.ltb_spec 0 (digitVal ch)); [|lia].
  apply numToString_digit; exact H.
Qed.

(** Parsing a well-formed rank gives cells that the serializer renders as
    the rank itself. *)
Lemma parseRow_render : forall s afterDigit,
    rankChars s afterDigit = true ->
    exists cells,
      parseRow s = Ok cells /\
      Z.of_nat (List.length cells) = rankWidth s /\
      renderCells cells 0 = s /\
      (afterDigit = true ->
       forall e, renderCells cells e = (flushEmpty e ++ s)%string).
Proof.
  induction s as [|ch s IH]; intros afterDigit H.
  - exists []. repeat split; try reflexivity.
    intros _ e. simpl. rewrite append_nil_r. reflexivity.
  - cbn [rankChars] in H. cbn [parseRow rankWidth].
    destruct (isDigit ch) eqn:Ed.
    + repeat (apply andb_true_iff in H; destruct H as [H ?]).
      apply negb_true_iff in H. subst afterDigit.
      match goal with H1 : (1 <=? _) = true |- _ => apply Z.leb_le in H1 end.
      match goal with H1 : (_ <=? 8) = true |- _ => apply Z.leb_le in H1 end.
      match goal with H1 : rankChars s true = true |- _ =>
                      destruct (IH true H1) as [cells [Hp [Hlen [_ Hr]]]] end.
      rewrite Hp. cbn [bind].
      exists (repeat None (Z.to_nat (digitVal ch)) ++ cells).
      split; [reflexivity|]. split; [|split].
      * rewrite length_app, repeat_length. unfold Cell in *. lia.
      * rewrite renderCells_repeat, Z2Nat.id by lia.
        rewrite Hr by reflexivity. cbn [Z.add].
        rewrite flushEmpty_digit by (assumption || lia). reflexivity.
      * discriminate.
    + apply andb_true_iff in H. destruct H as [Hl H].
      destruct (pieceOfChar_letter ch Hl) as [p [Hp Hc]].
      destruct (IH false H) as [cells [Hcells [Hlen [Hr _]]]].
      rewrite Hp. cbn [bind]. rewrite Hcells. cbn [bind].
      exists (Some p :: cells).
      split; [reflexivity|]. split; [|split].
      * cbn [List.length app]. unfold Cell in *. lia.
      * cbn [app renderCells]. rewrite Hc, Hr. reflexivity.
      * intros _ e. cbn [app renderCells]. rewrite Hc, Hr. reflexivity.
Qed.

Lemma rankOk_cells : forall s,
    rankOk s = true ->
    exists cells,
      parseRow s = Ok cells /\ List.length cells = 8%nat /\
      renderCells cells 0 = s.
Proof.
  intros s H. unfold rankOk in H. apply andb_true_iff in H.
  destruct H as [H1 H2]. apply Z.eqb_eq in H2.
  destruct (parseRow_render s false H1) as [cells [Hp [Hlen [Hr _]]]].
  exists cells. split; [exact Hp|]. split; [lia | exact Hr].
Qed.

(** ** The placement field *)

Lemma wfBoard_intro : forall r0 r1 r2 r3 r4 r5 r6 r7 : list Cell,
    Forall (fun rw => List.length rw = 8%nat) [r0; r1; r2; r3; r4; r5; r6; r7] ->
    wfBoard [r0; r1; r2; r3; r4; r5; r6; r7].
Proof.
  intros r0 r1 r2 r3 r4 r5 r6 r7 H. unfold wfBoard.
  apply andb_true_iff; split; [reflexivity|].
  apply forallb_forall. intros rw Hin. rewrite Forall_forall in H.
  apply Nat.eqb_eq, H, Hin.
Qed.

Lemma fenRow_full : forall b r rw,
    rowAt b r = Some rw -> List.length rw = 8%nat ->
    fenRow b r idx8 0 = Ok (renderCells rw 0).
Proof.
  intros b r rw Hrow Hlen.
  change idx8 with (map Z.of_nat (seq 0 8)).
  rewrite (fenRow_render b r rw Hrow 8 0 0) by lia. reflexivity.
Qed.

Lemma placement_roundtrip : forall p,
    placementOk p = true ->
    exists b,
      forEach (fun r : Z =>
                 match nth_error (split "/" p) (Z.to_nat r) with
                 | None => TypeError
                 | Some s => rw <- parseRow s ;; Ok [rw]
                 end) idx8 = Ok b /\
      wfBoard b /\ fenRows b idx8 = Ok p.
Proof.
  intros p H. unfold placementOk in H. apply andb_true_iff in H.
  destruct H as [Hlen Hrows]. apply Nat.eqb_eq in Hlen.
  pose proof (join_split "/" p) as Hp.
  destruct (split "/" p) as [|s0 [|s1 [|s2 [|s3 [|s4 [|s5 [|s6 [|s7 [|s8 l]]]]]]]]];
    try discriminate.
  cbn [forallb] in Hrows.
  repeat (apply andb_true_iff in Hrows; destruct Hrows as [? Hrows]).
  repeat match goal with
         | H : rankOk ?s = true |- _ =>
             let c := fresh "c" in
             let Hp := fresh "Hparse" in
             let Hl := fresh "Hlen" in
             let Hr := fresh "Hrender" in
             destruct (rankOk_cells s H) as [c [Hp [Hl Hr]]]; clear H
         end.
  exists [c6; c5; c4; c3; c2; c1; c0; c].
  split; [|split].
  - simpl.
    repeat (match goal with H : parseRow _ = Ok _ |- _ => rewrite H; clear H end;
            simpl).
    reflexivity.
  - apply wfBoard_intro. repeat constructor; assumption.
  - cbn [fenRows idx8].
    rewrite (fenRow_full _ 0 c6), (fenRow_full _ 1 c5), (fenRow_full _ 2 c4),
      (fenRow_full _ 3 c3), (fenRow_full _ 4 c2), (fenRow_full _ 5 c1),
      (fenRow_full _ 6 c0), (fenRow_full _ 7 c) by (reflexivity || assumption).
    cbn [bind].
    repeat match goal with H : renderCells _ 0 = _ |- _ => rewrite H; clear H end.
    rewrite <- Hp. simpl. rewrite append_nil_r. reflexivity.
Qed.

(** ** Numerals *)

Lemma allDigits_uint : forall s,
    allDigits s = true -> exists d, NilEmpty.uint_of_string s = Some d.
Proof.
  induction s as [|ch s IH]; intros H; cbn [allDigits] in H.
  - exists Decimal.Nil; reflexivity.
  - apply andb_true_iff in H. destruct H as [Hd Hs].
    destruct (IH Hs) as [d Hdd]. cbn [NilEmpty.uint_of_string]. rewrite Hdd.
    apply isDigit_cases in Hd. each_char Hd; eexists; reflexivity.
Qed.

Lemma digitsValue_acc : forall d acc,
    digitsValue (Z.pos acc) (NilEmpty.string_of_uint d)
    = Z.pos (Pos.of_uint_acc d acc).
Proof.
  induction d as [|d IH|d IH|d IH|d IH|d IH|d IH|d IH|d IH|d IH|d IH]; intros acc;
    [reflexivity|..];
    cbn [NilEmpty.string_of_uint digitsValue Pos.of_uint_acc];
    match goal with
    | |- context [isDigit ?c] => change (isDigit c) with true; cbv iota
    end;
    rewrite <- IH; f_equal;
    match goal with
    | |- context [digitVal ?c] =>
        let v := eval vm_compute in (digitVal c) in change (digitVal c) with v
    end;
    lia.
Qed.

Lemma digitsValue_uint : forall d,
    digitsValue 0 (NilEmpty.string_of_uint d) = Z.of_N (Pos.of_uint d).
Proof.
  induction d as [|d IH|d IH|d IH|d IH|d IH|d IH|d IH|d IH|d IH|d IH];
    [reflexivity|exact IH|..];
    cbn [NilEmpty.string_of_uint digitsValue Pos.of_uint];
    match goal with
    | |- context [isDigit ?c] => change (isDigit c) with true; cbv iota
    end;
    cbn [Z.of_N]; rewrite <- digitsValue_acc; reflexivity.
Qed.

Lemma numToString_uint : forall d,
    d <> Decimal.Nil -> Decimal.unorm d = d ->
    numToString (Z.of_N (Pos.of_uint d)) = NilEmpty.string_of_uint d.
Proof.
  intros d Hnil Hnorm. unfold numToString.
  change (Z.of_N (Pos.of_uint d)) with (Z.of_int (Decimal.Pos d)).
  rewrite DecimalZ.to_of. cbn [Decimal.norm]. rewrite Hnorm.
  cbn [NilZero.string_of_int]. unfold NilZero.string_of_uint.
  destruct d; try reflexivity. contradiction Hnil; reflexivity.
Qed.

Lemma digitsValue_mono : forall s acc, 0 <= acc -> acc <= digitsValue acc s.
Proof.
  induction s as [|ch s IH]; intros acc Hacc; cbn [digitsValue]; [lia|].
  destruct (isDigit ch) eqn:E; [|lia].
  assert (0 <= digitVal ch).
  { apply isDigit_cases in E. each_char E; unfold digitVal; simpl; lia. }
  specialize (IH (10 * acc + digitVal ch)). lia.
Qed.

(** A well-formed numeral is parsed to its value, and the value is printed
    as the numeral. *)
Lemma numeral_roundtrip : forall s,
    numeralOk s = true ->
    parseInt s = Ok (Some (digitsValue 0 s)) /\
    numToString (digitsValue 0 s) = s /\
    (s <> "0"%string -> digitsValue 0 s <> 0).
Proof.
  intros s H. destruct s as [|ch s']; [discriminate|].
  assert (Hd : isDigit ch = true).
  { unfold numeralOk in H.
    destruct ch as [[|] [|] [|] [|] [|] [|] [|] [|]]; try reflexivity;
      destruct s'; try discriminate;
      repeat (apply andb_true_iff in H; destruct H as [H ?]); assumption. }
  destruct (Ascii.eqb_spec ch "0") as [->|Hnz].
  - destruct s' as [|c2 s'']; [repeat split; try reflexivity; congruence|].
    simpl in H. discriminate.
  - assert (H' : allDigits s' = true /\
                 (digitsValue 0 (String ch s') <? 2 ^ 53) = true).
    { pose proof Hd as Hc. apply isDigit_cases in Hc.
      each_char Hc; try (contradiction Hnz; reflexivity);
        unfold numeralOk in H;
        repeat (apply andb_true_iff in H; destruct H as [H ?]); auto. }
    destruct H' as [Hall Hsafe].
    assert (Hall' : allDigits (String ch s') = true).
    { cbn [allDigits]. rewrite Hd, Hall. reflexivity. }
    destruct (allDigits_uint _ Hall') as [d Hdd].
    pose proof (NilEmpty.sus _ _ Hdd) as Hstr.
    split; [|split].
    + unfold parseInt. rewrite Hd.
      pose proof Hd as Hc. apply isDigit_cases in Hc.
      each_char Hc; try (contradiction Hnz; reflexivity);
        rewrite Hsafe; reflexivity.
    + rewrite <- Hstr at 1. rewrite digitsValue_uint.
      rewrite numToString_uint; [exact Hstr| |].
      * intros ->. discriminate Hstr.
      * pose proof Hd as Hc. apply isDigit_cases in Hc.
        destruct d; try reflexivity; try discriminate Hstr.
        cbn [NilEmpty.string_of_uint] in Hstr. injection Hstr as Hch _.
        contradiction Hnz. symmetry; exact Hch.
    + intros _. cbn [digitsValue]. rewrite Hd.
      assert (1 <= digitVal ch).
      { pose proof Hd as Hc. apply isDigit_cases in Hc.
        each_char Hc; try (contradiction Hnz; reflexivity);
          unfold digitVal; simpl; lia. }
      pose proof (digitsValue_mono s' (10 * 0 + digitVal ch) ltac:(lia)). lia.
Qed.

(** ** The other fields *)

Lemma turn_roundtrip : forall t,
    turnOk t = true ->
    colorLetter (if String.eqb (partOr (Some t) "w") "w" then WHITE else BLACK) = t.
Proof.
  intros t H. unfold turnOk in H. apply orb_true_iff in H.
  destruct H as [H|H]; apply String.eqb_eq in H; subst t; reflexivity.
Qed.

Lemma castling_roundtrip : forall c,
    castlingOk c = true ->
    let cs := mkCastling (includes (partOr (Some c) "KQkq") "K")
                         (includes (partOr (Some c) "KQkq") "Q")
                         (includes (partOr (Some c) "KQkq") "k")
                         (includes (partOr (Some c) "KQkq") "q") in
    match castleLetters cs with
    | EmptyString => "-"%string
    | String _ _ => castleLetters cs
    end = c.
Proof.
  intros c H. unfold castlingOk in H. apply existsb_exists in H.
  destruct H as [x [Hin Hx]]. apply String.eqb_eq in Hx. subst x.
  each_char Hin; reflexivity.
Qed.

Lemma enPassant_roundtrip : forall e,
    enPassantOk e = true ->
    exists sq,
      parseEnPassant (Some e) = Ok sq /\
      match sq with
      | Some q =>
          l <- fromCharCode (97 + col q) ;;
          Ok (l ++ numToString (8 - row q))%string
      | None => Ok "-"%string
      end = Ok e.
Proof.
  intros e H. destruct e as [|f [|r [|x e]]]; try discriminate.
  - exists None. unfold enPassantOk in H.
    destruct (Ascii.eqb_spec f "-") as [->|Hne]; [split; reflexivity|].
    destruct f as [[|] [|] [|] [|] [|] [|] [|] [|]]; try discriminate;
      contradiction Hne; reflexivity.
  - assert (H' : (97 <=? Z.of_nat (nat_of_ascii f)) = true /\
                 (Z.of_nat (nat_of_ascii f) <=? 104) = true /\
                 isDigit r = true).
    { unfold enPassantOk in H.
      destruct f as [[|] [|] [|] [|] [|] [|] [|] [|]];
        repeat (apply andb_true_iff in H; destruct H as [H ?]); auto. }
    destruct H' as [H1 [H2 H3]].
    apply Z.leb_le in H1, H2.
    exists (Some (mkSquare (8 - digitVal r) (Z.of_nat (nat_of_ascii f) - 97))).
    split.
    + unfold parseEnPassant.
      replace (String.eqb (String f (String r "")) "-") with false.
      * rewrite H3. reflexivity.
      * symmetry. apply String.eqb_neq. intros Heq. discriminate Heq.
    + cbn [row col]. unfold fromCharCode.
      replace (97 + (Z.of_nat (nat_of_ascii f) - 97))
        with (Z.of_nat (nat_of_ascii f)) by lia.
      destruct (Z.leb_spec 0 (Z.of_nat (nat_of_ascii f))); [|lia].
      destruct (Z.ltb_spec (Z.of_nat (nat_of_ascii f)) 128); [|lia].
      cbn [andb bind]. rewrite Nat2Z.id, ascii_nat_embedding.
      replace (8 - (8 - digitVal r)) with (digitVal r) by lia.
      rewrite numToString_digit by exact H3. reflexivity.
  - unfold enPassantOk in H.
    destruct f as [[|] [|] [|] [|] [|] [|] [|] [|]]; discriminate.
Qed.

(** ** C3: the round trip *)

(** C3.  For every well-formed FEN string [f] (six fields separated by
    single spaces: eight ranks of piece letters and digits 1 to 8 without
    two digits in a row, each rank of eight squares; ["w"] or ["b"]; the
    castling letters present, in the order [KQkq], or ["-"]; an en-passant
    square or ["-"]; two decimal numerals without leading zeros, the second
    at least 1), [stateFromFEN(f)] returns a state and [boardToFEN] of that
    state returns [f], character for character. *)
Theorem fen_roundtrip : forall f : string,
    wellFormedFEN f = true ->
    exists s, stateFromFEN f = Ok s /\ boardToFEN s = Ok f.
Proof.
  intros f H. unfold wellFormedFEN in H.
  pose proof (join_split " " f) as Hjoin.
  unfold stateFromFEN, parseFEN.
  destruct (split " " f) as [|p [|t [|c [|e [|h [|n [|x l]]]]]]]; try discriminate.
  apply andb_true_iff in H. destruct H as [H Hn0].
  apply andb_true_iff in H. destruct H as [H Hn].
  apply andb_true_iff in H. destruct H as [H Hh].
  apply andb_true_iff in H. destruct H as [H He].
  apply andb_true_iff in H. destruct H as [H Hc].
  apply andb_true_iff in H. destruct H as [Hp Ht].
  apply negb_true_iff, String.eqb_neq in Hn0.
  destruct (placement_roundtrip p Hp) as [b [Hb [Hwf Hfen]]].
  pose proof (turn_roundtrip t Ht) as Hturn.
  pose proof (castling_roundtrip c Hc) as Hcastle. cbv zeta in Hcastle.
  destruct (enPassant_roundtrip e He) as [sq [Hsq Hep]].
  destruct (numeral_roundtrip h Hh) as [Hh1 [Hh2 _]].
  destruct (numeral_roundtrip n Hn) as [Hn1 [Hn2 Hn3]].
  cbn [nth nth_error]. rewrite Hb. cbn [bind].
  rewrite Hsq. cbn [bind parseIntPart]. rewrite Hh1, Hn1. cbn [bind].
  eexists. split; [reflexivity|].
  unfold boardToFEN. cbn [board turn castling enPassant halfMoveClock fullMoveNumber
                          pBoard pTurn pCastling pEnPassant pHalfMoveClock
                          pFullMoveNumber].
  rewrite Hfen. cbn [bind]. rewrite Hep. cbn [bind].
  rewrite Hturn, Hcastle.
  assert (Eh : orElse (Some (digitsValue 0 h)) 0 = digitsValue 0 h).
  { unfold orElse. destruct (Z.eqb_spec (digitsValue 0 h) 0) as [E|E]; congruence. }
  assert (En : orElse (Some (digitsValue 0 n)) 1 = digitsValue 0 n).
  { unfold orElse. destruct (Z.eqb_spec (digitsValue 0 n) 0) as [E|E]; [|reflexivity].
    exfalso. apply Hn3; assumption. }
  rewrite Eh, En, Hh2, Hn2. rewrite <- Hjoin. reflexivity.
Qed.

Lemma fen_roundtrip_witness :
  wellFormedFEN "rnbqkbnr/pppp1ppp/8/4p3/4P3/8/PPPP1PPP/RNBQKBNR w KQkq e6 0 2" = true /\
  exists s,
    stateFromFEN "rnbqkbnr/pppp1ppp/8/4p3/4P3/8/PPPP1PPP/RNBQKBNR w KQkq e6 0 2" = Ok s /\
    boardToFEN s = Ok "rnbqkbnr/pppp1ppp/8/4p3/4P3/8/PPPP1PPP/RNBQKBNR w KQkq e6 0 2"%string.
Proof.
  split; [vm_compute; reflexivity|].
  apply (fen_roundtrip
           "rnbqkbnr/pppp1ppp/8/4p3/4P3/8/PPPP1PPP/RNBQKBNR w KQkq e6 0 2").
  vm_compute; reflexivity.
Defined.

(** * The state after a move *)

(** X1.  After a move that [makeMove] applies, the game is over exactly
    when the side to move has no legal reply, or the game was over
    before, or the material on the new board is insufficient, or the
    half-move clock has reached 100. *)
Theorem makeMove_gameOver_iff : forall (s : GameState) (m : Move) (s' : GameState)
                                       (replies : list Move),
    makeMove s m = Ok (Some s') ->
    getLegalMoves s' (Some (turn s')) = Ok replies ->
    (gameOver s' = true <->
     replies = [] \/ gameOver s = true \/
     isInsufficientMaterial (board s') = Ok true \/
     100 <= halfMoveClock s').
Proof.
  intros s m s' replies H Hr. fields_of H.
  assert (replies' = replies) by congruence. subst replies'. assumption.
Qed.

Lemma makeMove_gameOver_iff_witness :
  makeMove (fromFEN backRankFEN) queenMate = Ok (Some mated) /\
  getLegalMoves mated (Some (turn mated)) = Ok [] /\
  (gameOver mated = true <->
   @nil Move = [] \/ gameOver (fromFEN backRankFEN) = true \/
   isInsufficientMaterial (board mated) = Ok true \/
   100 <= halfMoveClock mated).
Proof.
  split; [vm_compute; reflexivity|]. split; [vm_compute; reflexivity|].
  apply (makeMove_gameOver_iff (fromFEN backRankFEN) queenMate mated []);
    vm_compute; reflexivity.
Defined.

(** X2.  When the side to move has no legal reply after a move, the game
    is over: won by the colour of the piece that moved when the side to
    move is in check, drawn otherwise. *)
Theorem makeMove_no_reply : forall (s : GameState) (m : Move) (s' : GameState),
    makeMove s m = Ok (Some s') ->
    getLegalMoves s' (Some (turn s')) = Ok [] ->
    exists pc inCheck,
      cellAt (board s) (row (from m)) (col (from m)) = Ok (Some pc) /\
      isInCheck (board s') (turn s') = Ok inCheck /\
      gameOver s' = true /\
      result s' = Some (if inCheck
                        then match color pc with
                             | WHITE => WhiteWins
                             | BLACK => BlackWins
                             end
                        else Draw).
Proof.
  intros s m s' H Hr. fields_of H.
  assert (replies' = []) by congruence. subst replies'.
  exists pc, inCheck. split; [assumption|]. split; [assumption|].
  destruct Hnone as [Ho Hres]; [reflexivity|]. split; [exact Ho|].
  rewrite Hres. destruct inCheck, (color pc); reflexivity.
Qed.

Lemma makeMove_no_reply_witness :
  makeMove (fromFEN backRankFEN) queenMate = Ok (Some mated) /\
  getLegalMoves mated (Some (turn mated)) = Ok [] /\
  exists pc inCheck,
    cellAt (board (fromFEN backRankFEN)) (row (from queenMate)) (col (from queenMate))
    = Ok (Some pc) /\
    isInCheck (board mated) (turn mated) = Ok inCheck /\
    gameOver mated = true /\
    result mated = Some (if inCheck
                         then match color pc with
                              | WHITE => WhiteWins
                              | BLACK => BlackWins
                              end
                         else Draw).
Proof.
  split; [vm_compute; reflexivity|]. split; [vm_compute; reflexivity|].
  apply (makeMove_no_reply (fromFEN backRankFEN) queenMate mated);
    vm_compute; reflexivity.
Defined.

(** X3.  When a move ends a game that was not over and leaves the side to
    move a legal reply, the result is a draw, and the cause is the
    material on the new board or the half-move clock. *)
Theorem makeMove_draw : forall (s : GameState) (m : Move) (s' : GameState)
                               (replies : list Move),
    makeMove s m = Ok (Some s') ->
    getLegalMoves s' (Some (turn s')) = Ok replies ->
    replies <> [] -> gameOver s = false -> gameOver s' = true ->
    result s' = Some Draw /\
    (isInsufficientMaterial (board s') = Ok true \/ 100 <= halfMoveClock s').
Proof.
  intros s m s' replies H Hr Hne Hg Ho. fields_of H.
  assert (replies' = replies) by congruence. subst replies'.
  split; [apply Hdraw; assumption|].
  apply Hover in Ho. destruct Ho as [Ho|[Ho|[Ho|Ho]]]; auto; congruence.
Qed.

Lemma makeMove_draw_witness :
  makeMove (fromFEN fiftyFEN) kingStep
  = Ok (Some (stateAfter (fromFEN fiftyFEN) kingStep)) /\
  gameOver (fromFEN fiftyFEN) = false /\
  gameOver (stateAfter (fromFEN fiftyFEN) kingStep) = true /\
  result (stateAfter (fromFEN fiftyFEN) kingStep) = Some Draw /\
  (isInsufficientMaterial (board (stateAfter (fromFEN fiftyFEN) kingStep)) = Ok true \/
   100 <= halfMoveClock (stateAfter (fromFEN fiftyFEN) kingStep)).
Proof.
  split; [vm_compute; reflexivity|].
  split; [vm_compute; reflexivity|].
  split; [vm_compute; reflexivity|].
  apply (makeMove_draw (fromFEN fiftyFEN) kingStep
                       (stateAfter (fromFEN fiftyFEN) kingStep)
                       (match getLegalMoves (stateAfter (fromFEN fiftyFEN) kingStep)
                                            (Some BLACK) with
                        | Ok l => l
                        | _ => []
                        end));
    vm_compute; try reflexivity. discriminate.
Defined.

(** X4.  A move that [makeMove] applies adds exactly one entry at the end
    of the move history: the move, what stood on its destination, and the
    castling rights and the en-passant target of the state before. *)
Theorem makeMove_history : forall (s : GameState) (m : Move) (s' : GameState),
    makeMove s m = Ok (Some s') ->
    exists capt,
      cellAt (board s) (row (to m)) (col (to m)) = Ok capt /\
      moveHistory s' =
        moveHistory s ++ [mkHistoryEntry m capt (castling s) (enPassant s)].
Proof.
  intros s m s' H. fields_of H. exists capt; auto.
Qed.

Lemma makeMove_history_witness :
  makeMove startState pawnE4 = Ok (Some (stateAfter startState pawnE4)) /\
  exists capt,
    cellAt (board startState) (row (to pawnE4)) (col (to pawnE4)) = Ok capt /\
    moveHistory (stateAfter startState pawnE4) =
      moveHistory startState
      ++ [mkHistoryEntry pawnE4 capt (castling startState) (enPassant startState)].
Proof.
  split; [vm_compute; reflexivity|].
  apply (makeMove_history startState pawnE4 (stateAfter startState pawnE4)).
  vm_compute; reflexivity.
Defined.

(** X5.  A move that [makeMove] applies adds exactly one notation at the
    end of the list: the notation [getMoveNotation] gives on the state
    before, followed by [#] when the side to move is in check without a
    legal reply, by [+] when it is in check with a reply, by nothing
    otherwise. *)
Theorem makeMove_notation : forall (s : GameState) (m : Move) (s' : GameState),
    makeMove s m = Ok (Some s') ->
    exists pc capt notation replies inCheck,
      cellAt (board s) (row (from m)) (col (from m)) = Ok (Some pc) /\
      cellAt (board s) (row (to m)) (col (to m)) = Ok capt /\
      getMoveNotation s m pc capt = Ok notation /\
      getLegalMoves s' (Some (turn s')) = Ok replies /\
      isInCheck (board s') (turn s') = Ok inCheck /\
      moveNotations s' =
        moveNotations s ++ [marked notation replies inCheck].
Proof.
  intros s m s' H. fields_of H.
  exists pc, capt, notation, replies', inCheck. auto 10.
Qed.

Lemma makeMove_notation_witness :
  makeMove (fromFEN backRankFEN) queenMate = Ok (Some mated) /\
  moveNotations mated = ["Qb8#"%string] /\
  exists pc capt notation replies inCheck,
    cellAt (board (fromFEN backRankFEN)) (row (from queenMate)) (col (from queenMate))
    = Ok (Some pc) /\
    cellAt (board (fromFEN backRankFEN)) (row (to queenMate)) (col (to queenMate))
    = Ok capt /\
    getMoveNotation (fromFEN backRankFEN) queenMate pc capt = Ok notation /\
    getLegalMoves mated (Some (turn mated)) = Ok replies /\
    isInCheck (board mated) (turn mated) = Ok inCheck /\
    moveNotations mated =
      moveNotations (fromFEN backRankFEN)
      ++ [marked notation replies inCheck].
Proof.
  split; [vm_compute; reflexivity|]. split; [vm_compute; reflexivity|].
  apply (makeMove_notation (fromFEN backRankFEN) queenMate mated).
  vm_compute; reflexivity.
Defined.



(** X7.  After a move that [makeMove] applies, the state has an en-passant
    target exactly when a pawn moved by two rows; the target is then the
    square the pawn passed over, on the column of the origin.  Neither the
    colour of the pawn nor its row enters. *)
Theorem makeMove_enPassant_target : forall (s : GameState) (m : Move) (s' : GameState),
    makeMove s m = Ok (Some s') ->
    exists pc,
      cellAt (board s) (row (from m)) (col (from m)) = Ok (Some pc) /\
      match enPassant s' with
      | Some e =>
          type pc = PAWN /\ col e = col (from m) /\
          (row e = row (from m) - 1 /\ row (to m) = row (from m) - 2 \/
           row e = row (from m) + 1 /\ row (to m) = row (from m) + 2)
      | None =>
          type pc <> PAWN \/ Z.abs (row (to m) - row (from m)) <> 2
      end.
Proof.
  intros s m s' H. fields_of H. exists pc. split; [assumption|].
  rewrite Hep.
  destruct (type_eqb (type pc) PAWN) eqn:Et; cbn [andb].
  - destruct (Z.abs (row (to m) - row (from m)) =? 2) eqn:Ea.
    + apply Z.eqb_eq in Ea. cbn [row col].
      split; [apply type_eqb_eq; exact Et|]. split; [reflexivity|].
      destruct (Z.abs_spec (row (to m) - row (from m))) as [[_ Hx]|[_ Hx]].
      * right. assert (row (to m) = row (from m) + 2) as -> by lia.
        split; [|reflexivity].
        replace (row (from m) + (row (from m) + 2)) with ((row (from m) + 1) * 2) by lia.
        apply Z.div_mul; lia.
      * left. assert (row (to m) = row (from m) - 2) as -> by lia.
        split; [|reflexivity].
        replace (row (from m) + (row (from m) - 2)) with ((row (from m) - 1) * 2) by lia.
        apply Z.div_mul; lia.
    + right. apply Z.eqb_neq in Ea. exact Ea.
  - left. intros Hp. apply type_eqb_eq in Hp. congruence.
Qed.

Lemma makeMove_enPassant_target_witness :
  makeMove startState pawnE4 = Ok (Some (stateAfter startState pawnE4)) /\
  enPassant (stateAfter startState pawnE4) = Some (mkSquare 5 4) /\
  exists pc,
    cellAt (board startState) (row (from pawnE4)) (col (from pawnE4)) = Ok (Some pc) /\
    match enPassant (stateAfter startState pawnE4) with
    | Some e =>
        type pc = PAWN /\ col e = col (from pawnE4) /\
        (row e = row (from pawnE4) - 1 /\ row (to pawnE4) = row (from pawnE4) - 2 \/
         row e = row (from pawnE4) + 1 /\ row (to pawnE4) = row (from pawnE4) + 2)
    | None =>
        type pc <> PAWN \/ Z.abs (row (to pawnE4) - row (from pawnE4)) <> 2
    end.
Proof.
  split; [vm_compute; reflexivity|]. split; [vm_compute; reflexivity|].
  apply (makeMove_enPassant_target startState pawnE4 (stateAfter startState pawnE4)).
  vm_compute; reflexivity.
Defined.

(** * The board after a move *)

(** X8.  On a board of eight ranks of eight cells, a move between two of
    its squares that is neither en passant nor a castling, from a square
    that holds a piece, puts on the destination that piece (or, for a
    promotion, a piece of the same colour and of the promoted kind),
    empties the origin and leaves every other square as it was. *)
Theorem applyMoveToBoard_plain : forall (b : Board) (m : Move) (pc : Piece),
    wfBoard b -> inRange (from m) -> inRange (to m) ->
    isEnPassant m = false -> castlingSide m = None ->
    cellAt b (row (from m)) (col (from m)) = Ok (Some pc) ->
    exists b',
      applyMoveToBoard b m = Ok b' /\
      forall r c,
        cellAt b' r c =
        if (r =? row (to m)) && (c =? col (to m))
        then Ok (Some (match promotion m with
                       | Some k => mkPiece (color pc) k
                       | None => pc
                       end))
        else if (r =? row (from m)) && (c =? col (from m)) then Ok None
             else cellAt b r c.
Proof.
  intros b m pc Hwf Hf Ht He Hc Hpc. unfold inRange in *.
  unfold applyMoveToBoard. rewrite He, Hc, Hpc. simpl.
  pose proof (setCell_spec b _ _ None Hwf Hf) as H1.
  apply returns_Ok in H1. destruct H1 as [b1 [E1 [Hwf1 R1]]]. rewrite E1. simpl.
  destruct (promotion m) as [k|].
  - pose proof (setCell_spec b1 _ _ (Some (mkPiece (color pc) k)) Hwf1 Ht) as H3.
    apply returns_Ok in H3. destruct H3 as [b3 [E3 [Hwf3 R3]]].
    exists b3. split; [exact E3|]. intros r c. rewrite R3, R1. reflexivity.
  - pose proof (setCell_spec b1 _ _ (Some pc) Hwf1 Ht) as H3.
    apply returns_Ok in H3. destruct H3 as [b3 [E3 [Hwf3 R3]]].
    exists b3. split; [exact E3|]. intros r c. rewrite R3, R1. reflexivity.
Qed.

Lemma applyMoveToBoard_plain_witness :
  exists b',
    applyMoveToBoard (board (fromFEN promoFEN)) promoteQueen = Ok b' /\
    forall r c,
      cellAt b' r c =
      if (r =? row (to promoteQueen)) && (c =? col (to promoteQueen))
      then Ok (Some (match promotion promoteQueen with
                     | Some k => mkPiece (color (mkPiece WHITE PAWN)) k
                     | None => mkPiece WHITE PAWN
                     end))
      else if (r =? row (from promoteQueen)) && (c =? col (from promoteQueen))
           then Ok None
           else cellAt (board (fromFEN promoFEN)) r c.
Proof.
  apply (applyMoveToBoard_plain (board (fromFEN promoFEN)) promoteQueen
                                (mkPiece WHITE PAWN));
    vm_compute; reflexivity.
Defined.

(** X9.  On a board of eight ranks of eight cells, a castling move of the
    king from column 4 of a row to column 6 (king's side) or 2 (queen's
    side) of that row empties the square of the king, puts on the
    destination what stood on the square of the king, moves what stands in
    the corner of that side (column 7 or 0) next to it (column 5 or 3),
    empties the corner, and leaves every other square as it was. *)
Theorem applyMoveToBoard_castling : forall (b : Board) (m : Move)
                                           (side : CastleSide) (r : Z),
    wfBoard b -> 0 <= r < 8 ->
    from m = mkSquare r 4 -> to m = mkSquare r (kingTo side) ->
    castlingSide m = Some side -> isEnPassant m = false -> promotion m = None ->
    exists b',
      applyMoveToBoard b m = Ok b' /\
      forall r' c,
        cellAt b' r' c =
        if r' =? r then
          if c =? 4 then Ok None
          else if c =? kingTo side then cellAt b r 4
          else if c =? rookTo side then cellAt b r (rookFrom side)
          else if c =? rookFrom side then Ok None
          else cellAt b r c
        else cellAt b r' c.
Proof.
  intros b m side r Hwf Hr Hf Ht Hc He Hp.
  unfold applyMoveToBoard. rewrite Hf, Ht, Hc, He, Hp. cbn [row col].
  assert (Hin : forall c, 0 <= c < 8 -> inBounds r c = true).
  { intros c Hcc. apply inBounds_iff. lia. }
  destruct (cellAt_cases b r 4 Hwf (Hin 4 ltac:(lia))) as [piece Hpiece].
  rewrite Hpiece. simpl.
  pose proof (setCell_spec b r 4 None Hwf (Hin 4 ltac:(lia))) as H1.
  apply returns_Ok in H1. destruct H1 as [b1 [E1 [Hwf1 R1]]]. rewrite E1. simpl.
  destruct side; cbn [kingTo rookFrom rookTo].
    destruct (cellAt_cases b r 7 Hwf (Hin 7 ltac:(lia))) as [rook Hrook].
    rewrite R1. rewrite Z.eqb_refl. cbn [andb Z.eqb]. rewrite Hrook. simpl.
    pose proof (setCell_spec b1 r 5 rook Hwf1 (Hin 5 ltac:(lia))) as H2.
    apply returns_Ok in H2. destruct H2 as [b2 [E2 [Hwf2 R2]]]. rewrite E2. simpl.
    pose proof (setCell_spec b2 r 7 None Hwf2 (Hin 7 ltac:(lia))) as H3.
    apply returns_Ok in H3. destruct H3 as [b3 [E3 [Hwf3 R3]]]. rewrite E3. simpl.
    pose proof (setCell_spec b3 r 6 piece Hwf3 (Hin 6 ltac:(lia))) as H4.
    apply returns_Ok in H4. destruct H4 as [b4 [E4 [Hwf4 R4]]].
    exists b4. split; [exact E4|]. intros r' c. rewrite R4, R3, R2, R1.
    destruct (Z.eqb_spec r' r) as [->|Hne]; cbn [andb]; [|reflexivity].
    destruct (Z.eqb_spec c 4) as [->|H4']; [reflexivity|].
    destruct (Z.eqb_spec c 6) as [->|H6]; [reflexivity|].
    destruct (Z.eqb_spec c 5) as [->|H5]; [reflexivity|].
    destruct (Z.eqb_spec c 7) as [->|H7]; reflexivity.
  - destruct (cellAt_cases b r 0 Hwf (Hin 0 ltac:(lia))) as [rook Hrook].
    rewrite R1. rewrite Z.eqb_refl. cbn [andb Z.eqb]. rewrite Hrook. simpl.
    pose proof (setCell_spec b1 r 3 rook Hwf1 (Hin 3 ltac:(lia))) as H2.
    apply returns_Ok in H2. destruct H2 as [b2 [E2 [Hwf2 R2]]]. rewrite E2. simpl.
    pose proof (setCell_spec b2 r 0 None Hwf2 (Hin 0 ltac:(lia))) as H3.
    apply returns_Ok in H3. destruct H3 as [b3 [E3 [Hwf3 R3]]]. rewrite E3. simpl.
    pose proof (setCell_spec b3 r 2 piece Hwf3 (Hin 2 ltac:(lia))) as H4.
    apply returns_Ok in H4. destruct H4 as [b4 [E4 [Hwf4 R4]]].
    exists b4. split; [exact E4|]. intros r' c. rewrite R4, R3, R2, R1.
    destruct (Z.eqb_spec r' r) as [->|Hne]; cbn [andb]; [|reflexivity].
    destruct (Z.eqb_spec c 4) as [->|H4']; [reflexivity|].
    destruct (Z.eqb_spec c 2) as [->|H6]; [reflexivity|].
    destruct (Z.eqb_spec c 3) as [->|H5]; [reflexivity|].
    destruct (Z.eqb_spec c 0) as [->|H7]; reflexivity.
Qed.

Lemma applyMoveToBoard_castling_witness :
  exists b',
    applyMoveToBoard (board (fromFEN castleFEN)) castleShort = Ok b' /\
    forall r' c,
      cellAt b' r' c =
      if r' =? 7 then
        if c =? 4 then Ok None
        else if c =? kingTo SideK then cellAt (board (fromFEN castleFEN)) 7 4
        else if c =? rookTo SideK
             then cellAt (board (fromFEN castleFEN)) 7 (rookFrom SideK)
        else if c =? rookFrom SideK then Ok None
        else cellAt (board (fromFEN castleFEN)) 7 c
      else cellAt (board (fromFEN castleFEN)) r' c.
Proof.
  apply (applyMoveToBoard_castling (board (fromFEN castleFEN)) castleShort SideK 7);
    try reflexivity. lia.
Defined.

(** * Move generation against the rules of movement *)

(** ** Loops that collect *)

Lemma forEach_In : forall (A B : Type) (f : A -> Res (list B)) (l : list A)
                          (ys : list B),
    forEach f l = Ok ys ->
    forall y, In y ys <-> exists x xs, In x l /\ f x = Ok xs /\ In y xs.
Proof.
  intros A B f l; induction l as [|a l IH]; simpl; intros ys H y.
  - injection H as <-. split; [intros []|intros (x & xs & [] & _)].
  - apply bind_Ok in H. destruct H as [xs [Hx H]].
    apply bind_Ok in H. destruct H as [zs [Hz H]]. injection H as <-.
    rewrite in_app_iff, (IH _ Hz). split.
    + intros [Hy | (x & xs' & Hin & Hf & Hy)].
      * exists a, xs; auto.
      * exists x, xs'; auto.
    + intros (x & xs' & [<-|Hin] & Hf & Hy).
      * left. congruence.
      * right. exists x, xs'; auto.
Qed.

Lemma forEach_each : forall (A B : Type) (f : A -> Res (list B)) (l : list A)
                            (ys : list B),
    forEach f l = Ok ys -> forall x, In x l -> exists xs, f x = Ok xs.
Proof.
  intros A B f l; induction l as [|a l IH]; simpl; intros ys H x Hx.
  - contradiction.
  - apply bind_Ok in H. destruct H as [xs [Hxs H]].
    apply bind_Ok in H. destruct H as [zs [Hz H]].
    destruct Hx as [<-|Hx]; [exists xs; exact Hxs|]. eapply IH; eauto.
Qed.

Lemma filterR_In : forall (A : Type) (f : A -> Res bool) (l r : list A),
    filterR f l = Ok r ->
    forall x, In x r <-> In x l /\ f x = Ok true.
Proof.
  intros A f l; induction l as [|a l IH]; simpl; intros r H x.
  - injection H as <-. split; [intros []|intros [[] _]].
  - apply bind_Ok in H. destruct H as [b [Hb H]].
    apply bind_Ok in H. destruct H as [ys [Hys H]]. injection H as <-.
    specialize (IH _ Hys x). destruct b; simpl; rewrite IH; split.
    + intros [<-|[H1 H2]]; auto.
    + intros [[<-|H1] H2]; auto.
    + intros [H1 H2]; auto.
    + intros [[<-|H1] H2]; auto. congruence.
Qed.

(** ** Reads that find a piece *)

Lemma cellAt_Some_inb : forall b r c pc,
    wfBoard b -> cellAt b r c = Ok (Some pc) -> inBounds r c = true.
Proof.
  intros b r c pc Hwf H. unfold cellAt, rowAt in H.
  destruct (Z.leb_spec 0 r) as [Hr|]; [|discriminate].
  destruct (nth_error b (Z.to_nat r)) as [rw|] eqn:E; [|discriminate].
  assert (Hlen : (Z.to_nat r < 8)%nat).
  { rewrite <- (wfBoard_length _ Hwf). apply nth_error_Some. congruence. }
  assert (Hrw : List.length rw = 8%nat).
  { eapply wfBoard_rows; eauto. eapply nth_error_In; eauto. }
  injection H as H.
  destruct (Z.leb_spec 0 c) as [Hc|]; [|discriminate].
  assert (Hc8 : (Z.to_nat c < 8)%nat).
  { rewrite <- Hrw. destruct (Nat.lt_ge_cases (Z.to_nat c) (List.length rw)); auto.
    rewrite nth_overflow in H by assumption. discriminate. }
  apply inBounds_iff. lia.
Qed.

(** ** The squares of a line *)

Lemma between_inb : forall r c dr dc j k,
    -1 <= dr <= 1 -> -1 <= dc <= 1 -> 0 <= j <= k ->
    inBounds (r - dr) (c - dc) = true ->
    inBounds (r + k * dr) (c + k * dc) = true ->
    inBounds (r + j * dr) (c + j * dc) = true.
Proof.
  intros r c dr dc j k Hdr Hdc Hj Hp Hk.
  apply inBounds_iff in Hp. apply inBounds_iff in Hk. apply inBounds_iff.
  assert (Edr : dr = -1 \/ dr = 0 \/ dr = 1) by lia.
  assert (Edc : dc = -1 \/ dc = 0 \/ dc = 1) by lia.
  destruct Edr as [-> | [-> | ->]]; destruct Edc as [-> | [-> | ->]]; lia.
Qed.

(** What one direction of [slideMoves] pushes: the moves to the squares of
    the line up to the first occupied one, that one included when a piece
    of the other colour stands on it. *)
Lemma slideRay_In : forall b c f dr dc,
    wfBoard b -> -1 <= dr <= 1 -> -1 <= dc <= 1 ->
    forall fuel r0 c0 ms,
      inBounds (r0 - dr) (c0 - dc) = true ->
      (inBounds r0 c0 = true ->
       inBounds (r0 + Z.of_nat fuel * dr) (c0 + Z.of_nat fuel * dc) = false) ->
      slideRay fuel b c f dr dc r0 c0 = Ok ms ->
      forall m,
        In m ms <->
        exists k, 0 <= k /\
                  m = simpleMove f (mkSquare (r0 + k * dr) (c0 + k * dc)) /\
                  inBounds (r0 + k * dr) (c0 + k * dc) = true /\
                  (forall j, 0 <= j < k ->
                             cellAt b (r0 + j * dr) (c0 + j * dc) = Ok None) /\
                  exists x, cellAt b (r0 + k * dr) (c0 + k * dc) = Ok x /\
                            freeFor c x = true.
Proof.
  intros b c f dr dc Hwf Hdr Hdc fuel.
  assert (Hout : forall r0 c0 m,
             inBounds (r0 - dr) (c0 - dc) = true -> inBounds r0 c0 = false ->
             ~ exists k, 0 <= k /\
                  m = simpleMove f (mkSquare (r0 + k * dr) (c0 + k * dc)) /\
                  inBounds (r0 + k * dr) (c0 + k * dc) = true /\
                  (forall j, 0 <= j < k ->
                             cellAt b (r0 + j * dr) (c0 + j * dc) = Ok None) /\
                  exists x, cellAt b (r0 + k * dr) (c0 + k * dc) = Ok x /\
                            freeFor c x = true).
  { intros r0 c0 m Hp E (k & Hk & _ & Hin & _).
    pose proof (between_inb r0 c0 dr dc 0 k Hdr Hdc ltac:(lia) Hp Hin) as H0.
    rewrite !Z.mul_0_l, !Z.add_0_r in H0. congruence. }
  induction fuel as [|fuel IH]; intros r0 c0 ms Hp Hfuel H m.
  - simpl in H. destruct (inBounds r0 c0) eqn:E; simpl in H; [discriminate|].
    injection H as <-. split; [intros []|]. intros Hex. exfalso.
    exact (Hout r0 c0 m Hp E Hex).
  - cbn [slideRay] in H. destruct (inBounds r0 c0) eqn:E; cbn [negb] in H.
    2:{ injection H as <-. split; [intros []|]. intros Hex. exfalso.
        exact (Hout r0 c0 m Hp E Hex). }
    apply bind_Ok in H. destruct H as [p [Hcell H]].
    destruct p as [pc|].
    + injection H as <-. split.
      * intros Hin. destruct (negb (color_eqb (color pc) c)) eqn:Ec; [|contradiction].
        destruct Hin as [<-|[]]. exists 0.
        rewrite !Z.mul_0_l, !Z.add_0_r. split; [lia|]. split; [reflexivity|].
        split; [exact E|]. split; [intros j Hj; lia|].
        exists (Some pc). split; [exact Hcell|exact Ec].
      * intros (k & Hk & -> & Hin & Hpath & x & Hx & Hfree).
        destruct (Z.eq_dec k 0) as [->|Hk0].
        -- rewrite !Z.mul_0_l, !Z.add_0_r in *.
           rewrite Hcell in Hx. injection Hx as <-. simpl in Hfree.
           rewrite Hfree. left; reflexivity.
        -- specialize (Hpath 0 ltac:(lia)).
           rewrite !Z.mul_0_l, !Z.add_0_r in Hpath. congruence.
    + apply bind_Ok in H. destruct H as [rest [Hrest H]]. injection H as <-.
      assert (Hp' : inBounds (r0 + dr - dr) (c0 + dc - dc) = true).
      { replace (r0 + dr - dr) with r0 by lia.
        replace (c0 + dc - dc) with c0 by lia. exact E. }
      assert (Hfuel' : inBounds (r0 + dr) (c0 + dc) = true ->
                       inBounds (r0 + dr + Z.of_nat fuel * dr)
                                (c0 + dc + Z.of_nat fuel * dc) = false).
      { intros _. specialize (Hfuel eq_refl).
        replace (r0 + dr + Z.of_nat fuel * dr) with (r0 + Z.of_nat (S fuel) * dr) by lia.
        replace (c0 + dc + Z.of_nat fuel * dc) with (c0 + Z.of_nat (S fuel) * dc) by lia.
        exact Hfuel. }
      specialize (IH _ _ _ Hp' Hfuel' Hrest m). split.
      * intros [<-|Hin].
        -- exists 0. rewrite !Z.mul_0_l, !Z.add_0_r. split; [lia|].
           split; [reflexivity|]. split; [exact E|]. split; [intros j Hj; lia|].
           exists None. split; [exact Hcell|reflexivity].
        -- apply IH in Hin. destruct Hin as (k & Hk & -> & Hin & Hpath & x & Hx & Hfree).
           exists (k + 1). split; [lia|].
           replace (r0 + (k + 1) * dr) with (r0 + dr + k * dr) by lia.
           replace (c0 + (k + 1) * dc) with (c0 + dc + k * dc) by lia.
           split; [reflexivity|]. split; [exact Hin|]. split.
           ++ intros j Hj. destruct (Z.eq_dec j 0) as [->|Hj0].
              ** rewrite !Z.mul_0_l, !Z.add_0_r. exact Hcell.
              ** specialize (Hpath (j - 1) ltac:(lia)).
                 replace (r0 + dr + (j - 1) * dr) with (r0 + j * dr) in Hpath by lia.
                 replace (c0 + dc + (j - 1) * dc) with (c0 + j * dc) in Hpath by lia.
                 exact Hpath.
           ++ exists x; auto.
      * intros (k & Hk & -> & Hin & Hpath & x & Hx & Hfree).
        destruct (Z.eq_dec k 0) as [->|Hk0].
        -- left. rewrite !Z.mul_0_l, !Z.add_0_r. reflexivity.
        -- right. apply IH. exists (k - 1). split; [lia|].
           replace (r0 + dr + (k - 1) * dr) with (r0 + k * dr) by lia.
           replace (c0 + dc + (k - 1) * dc) with (c0 + k * dc) by lia.
           split; [reflexivity|]. split; [exact Hin|]. split.
           ++ intros j Hj. specialize (Hpath (j + 1) ltac:(lia)).
              replace (r0 + (j + 1) * dr) with (r0 + dr + j * dr) in Hpath by lia.
              replace (c0 + (j + 1) * dc) with (c0 + dc + j * dc) in Hpath by lia.
              exact Hpath.
           ++ exists x; auto.
Qed.

Lemma slideMoves_In : forall b c f dirs ms,
    wfBoard b -> inRange f -> Forall unitDir dirs ->
    slideMoves b c f dirs = Ok ms ->
    forall m, In m ms <->
              m = simpleMove f (to m) /\ slidesTo b c dirs f (to m).
Proof.
  intros b c f dirs ms Hwf Hf Hd H m. unfold slideMoves in H.
  rewrite Forall_forall in Hd.
  assert (Hray : forall d xs,
             In d dirs ->
             slideRay 8 b c f (fst d) (snd d) (row f + fst d) (col f + snd d) = Ok xs ->
             forall m0,
               In m0 xs <->
               exists k, 0 <= k /\
                 m0 = simpleMove f (mkSquare (row f + fst d + k * fst d)
                                             (col f + snd d + k * snd d)) /\
                 inBounds (row f + fst d + k * fst d) (col f + snd d + k * snd d) = true /\
                 (forall j, 0 <= j < k ->
                            cellAt b (row f + fst d + j * fst d)
                                   (col f + snd d + j * snd d) = Ok None) /\
                 exists x, cellAt b (row f + fst d + k * fst d)
                                  (col f + snd d + k * snd d) = Ok x /\
                           freeFor c x = true).
  { intros d xs Hin Hxs. destruct (Hd _ Hin) as [H1 [H2 H3]].
    apply (slideRay_In b c f (fst d) (snd d) Hwf H1 H2 8); [| |exact Hxs].
    - replace (row f + fst d - fst d) with (row f) by lia.
      replace (col f + snd d - snd d) with (col f) by lia. exact Hf.
    - intros E. apply inBounds_false_iff. apply inBounds_iff in E.
      unfold inRange in Hf. apply inBounds_iff in Hf. lia. }
  rewrite (forEach_In _ _ _ _ _ H m). split.
  - intros (d & xs & Hin & Hxs & Hm).
    apply (Hray d xs Hin Hxs) in Hm.
    destruct Hm as (k & Hk & -> & Hinb & Hpath & x & Hx & Hfree).
    split; [reflexivity|]. cbn [to simpleMove]. split; [exact Hinb|].
    exists d, (k + 1). split; [exact Hin|]. split; [lia|]. cbn [row col].
    split; [lia|]. split; [lia|]. split.
    + intros j Hj. specialize (Hpath (j - 1) ltac:(lia)).
      replace (row f + fst d + (j - 1) * fst d) with (row f + j * fst d) in Hpath by lia.
      replace (col f + snd d + (j - 1) * snd d) with (col f + j * snd d) in Hpath by lia.
      exact Hpath.
    + exists x. auto.
  - intros [Hm (Hinb & d & k & Hin & Hk & Hr & Hc & Hpath & x & Hx & Hfree)].
    destruct (forEach_each _ _ _ _ _ H d Hin) as [xs Hxs].
    exists d, xs. split; [exact Hin|]. split; [exact Hxs|].
    apply (Hray d xs Hin Hxs). exists (k - 1). split; [lia|].
    replace (row f + fst d + (k - 1) * fst d) with (row (to m)) by lia.
    replace (col f + snd d + (k - 1) * snd d) with (col (to m)) by lia.
    split; [rewrite Hm at 1; destruct (to m); reflexivity|].
    split; [exact Hinb|]. split.
    + intros j Hj. specialize (Hpath (j + 1) ltac:(lia)).
      replace (row f + (j + 1) * fst d) with (row f + fst d + j * fst d) in Hpath by lia.
      replace (col f + (j + 1) * snd d) with (col f + snd d + j * snd d) in Hpath by lia.
      exact Hpath.
    + exists x; auto.
Qed.

(** ** The moves of one square *)

Lemma squareMoves_fromHere : forall state c r cc,
    wfBoard (board state) -> inBounds r cc = true ->
    returns (squareMoves state c r cc) (Forall (fromHere r cc)).
Proof.
  intros state c r cc Hwf Hin. unfold squareMoves.
  destruct (cellAt_cases _ _ _ Hwf Hin) as [p ->]. simpl.
  destruct p as [pc|]; [|constructor].
  destruct (negb (color_eqb (color pc) c)); [constructor|].
  destruct (type pc).
  - apply pawnMoves_fromHere; assumption.
  - apply knightMoves_fromHere; assumption.
  - apply slideMoves_fromHere; try assumption; apply unitDir_diag.
  - apply slideMoves_fromHere; try assumption; apply unitDir_straight.
  - apply slideMoves_fromHere; try assumption; apply unitDir_queen.
  - apply kingMoves_fromHere; assumption.
Qed.

(** The moves [getPseudoMoves] returns are the moves the body of its loops
    pushes at the square they start from. *)
Lemma getPseudoMoves_In : forall state c ms,
    wfBoard (board state) -> getPseudoMoves state c = Ok ms ->
    forall m,
      In m ms <->
      inRange (from m) /\
      exists xs, squareMoves state c (row (from m)) (col (from m)) = Ok xs /\ In m xs.
Proof.
  intros state c ms Hwf H m. unfold getPseudoMoves in H.
  rewrite (forEach_In _ _ _ _ _ H m). split.
  - intros (r & rowMoves & Hr & Hrow & Hm).
    rewrite (forEach_In _ _ _ _ _ Hrow m) in Hm.
    destruct Hm as (cc & xs & Hcc & Hxs & Hm).
    assert (Hin : inBounds r cc = true).
    { apply inBounds_iff. apply idx8_range in Hr, Hcc. lia. }
    pose proof (squareMoves_fromHere state c r cc Hwf Hin) as Hfrom.
    rewrite Hxs in Hfrom. simpl in Hfrom. rewrite Forall_forall in Hfrom.
    destruct (Hfrom m Hm) as [Hf _]. rewrite Hf. cbn [row col].
    split; [exact Hin|]. exists xs; auto.
  - intros [Hin (xs & Hxs & Hm)]. unfold inRange in Hin.
    apply inBounds_iff in Hin. destruct Hin as [Hr Hc].
    apply idx8_range in Hr, Hc.
    destruct (forEach_each _ _ _ _ _ H _ Hr) as [rowMoves Hrow].
    exists (row (from m)), rowMoves. split; [exact Hr|]. split; [exact Hrow|].
    rewrite (forEach_In _ _ _ _ _ Hrow m).
    exists (col (from m)), xs. auto.
Qed.

Lemma squareMoves_piece : forall state c r cc pc,
    cellAt (board state) r cc = Ok (Some pc) ->
    squareMoves state c r cc =
    if negb (color_eqb (color pc) c) then Ok []
    else match type pc with
         | PAWN => pawnMoves state c r cc
         | KNIGHT => knightMoves (board state) c r cc
         | BISHOP => slideMoves (board state) c (mkSquare r cc) diagDirs
         | ROOK => slideMoves (board state) c (mkSquare r cc) straightDirs
         | QUEEN => slideMoves (board state) c (mkSquare r cc) queenDirs
         | KING => kingMoves state c r cc
         end.
Proof.
  intros state c r cc pc H. unfold squareMoves. rewrite H. reflexivity.
Qed.

(** The moves of the piece on a square among the pseudo-legal moves: those
    the generator of its kind pushes, when the piece has the colour asked
    for. *)
Lemma getPseudoMoves_piece : forall state c ms m pc,
    wfBoard (board state) -> getPseudoMoves state c = Ok ms ->
    cellAt (board state) (row (from m)) (col (from m)) = Ok (Some pc) ->
    In m ms <->
    color pc = c /\
    exists xs,
      match type pc with
      | PAWN => pawnMoves state c (row (from m)) (col (from m))
      | KNIGHT => knightMoves (board state) c (row (from m)) (col (from m))
      | BISHOP => slideMoves (board state) c (from m) diagDirs
      | ROOK => slideMoves (board state) c (from m) straightDirs
      | QUEEN => slideMoves (board state) c (from m) queenDirs
      | KING => kingMoves state c (row (from m)) (col (from m))
      end = Ok xs /\ In m xs.
Proof.
  intros state c ms m pc Hwf H Hpc.
  rewrite (getPseudoMoves_In state c ms Hwf H m).
  rewrite (squareMoves_piece state c _ _ pc Hpc).
  assert (Hf : mkSquare (row (from m)) (col (from m)) = from m)
    by (destruct (from m); reflexivity).
  rewrite Hf.
  pose proof (cellAt_Some_inb _ _ _ _ Hwf Hpc) as Hin.
  destruct (color_eqb (color pc) c) eqn:Ec; cbn [negb].
  - apply color_eqb_eq in Ec. split.
    + intros [_ Hx]. split; assumption.
    + intros [_ Hx]. split; assumption.
  - split.
    + intros [_ (xs & Hxs & Hm)]. injection Hxs as <-. contradiction.
    + intros [Hc _]. apply color_eqb_eq in Hc. congruence.
Qed.

(** ** Bishops, rooks and queens *)

(** X10.  Among the pseudo-legal moves of a colour, the moves that start
    on a bishop, a rook or a queen are exactly the plain moves of a piece
    of that colour along a diagonal (bishop), a rank or a file (rook), or
    any of these (queen), over empty squares only, to a square of the
    board that is empty or holds a piece of the other colour. *)
Theorem getPseudoMoves_sliding : forall (state : GameState) (c : Color)
                                        (ms : list Move) (m : Move) (pc : Piece),
    wfBoard (board state) ->
    getPseudoMoves state c = Ok ms ->
    cellAt (board state) (row (from m)) (col (from m)) = Ok (Some pc) ->
    type pc = BISHOP \/ type pc = ROOK \/ type pc = QUEEN ->
    (In m ms <->
     color pc = c /\ m = simpleMove (from m) (to m) /\
     slidesTo (board state) c (slideDirs (type pc)) (from m) (to m)).
Proof.
  intros state c ms m pc Hwf H Hpc Hk.
  rewrite (getPseudoMoves_piece state c ms m pc Hwf H Hpc).
  pose proof (cellAt_Some_inb _ _ _ _ Hwf Hpc) as Hin.
  assert (Hgen : forall dirs,
             Forall unitDir dirs ->
             (exists xs, slideMoves (board state) c (from m) dirs = Ok xs /\ In m xs) <->
             m = simpleMove (from m) (to m) /\
             slidesTo (board state) c dirs (from m) (to m)).
  { intros dirs Hd.
    pose proof (slideMoves_fromHere state c _ _ Hwf Hin dirs Hd) as Hret.
    destruct (slideMoves (board state) c (mkSquare (row (from m)) (col (from m))) dirs)
      as [xs| | |] eqn:E; simpl in Hret; try contradiction.
    assert (Hf : mkSquare (row (from m)) (col (from m)) = from m)
      by (destruct (from m); reflexivity).
    rewrite Hf in E. rewrite E.
    rewrite <- (slideMoves_In _ _ _ _ _ Hwf Hin Hd E m). split.
    - intros (xs' & Hxs & Hm). injection Hxs as <-. exact Hm.
    - intros Hm. exists xs; auto. }
  destruct Hk as [Hk|[Hk|Hk]]; rewrite Hk; cbn [slideDirs];
    rewrite <- Hgen by (first [apply unitDir_diag|apply unitDir_straight|apply unitDir_queen]);
    reflexivity.
Qed.

Lemma getPseudoMoves_sliding_witness :
  In rookLift (pseudoOf (fromFEN castleFEN) WHITE) <->
  color (mkPiece WHITE ROOK) = WHITE /\
  rookLift = simpleMove (from rookLift) (to rookLift) /\
  slidesTo (board (fromFEN castleFEN)) WHITE (slideDirs (type (mkPiece WHITE ROOK)))
           (from rookLift) (to rookLift).
Proof.
  apply (getPseudoMoves_sliding (fromFEN castleFEN) WHITE
                                (pseudoOf (fromFEN castleFEN) WHITE)
                                rookLift (mkPiece WHITE ROOK));
    [reflexivity | vm_compute; reflexivity | vm_compute; reflexivity
    | right; left; reflexivity].
Defined.

(** ** Knights *)

Lemma knightMoves_In : forall b c r cc ms,
    knightMoves b c r cc = Ok ms ->
    forall m, In m ms <->
              m = simpleMove (mkSquare r cc) (to m) /\
              stepsTo b c knightOffsets (mkSquare r cc) (to m).
Proof.
  intros b c r cc ms H m. unfold knightMoves in H.
  rewrite (forEach_In _ _ _ _ _ H m). split.
  - intros (d & xs & Hd & Hxs & Hm).
    destruct (inBounds (r + fst d) (cc + snd d)) eqn:E; cbn [negb] in Hxs.
    2:{ injection Hxs as <-. contradiction. }
    apply bind_Ok in Hxs. destruct Hxs as [t [Ht Hxs]]. injection Hxs as <-.
    destruct (freeFor c t) eqn:Ef; [|contradiction].
    destruct Hm as [<-|[]]. split; [reflexivity|].
    unfold stepsTo, landsOn, inRange. cbn [to simpleMove row col].
    split; [exact E|]. split.
    + replace (r + fst d - r) with (fst d) by lia.
      replace (cc + snd d - cc) with (snd d) by lia.
      destruct d; exact Hd.
    + exists t; auto.
  - intros [Hm (Hin & Hoff & x & Hx & Hfree)].
    cbn [row col] in Hoff.
    destruct (forEach_each _ _ _ _ _ H _ Hoff) as [xs Hxs].
    exists (row (to m) - r, col (to m) - cc), xs.
    split; [exact Hoff|]. split; [exact Hxs|].
    cbn [fst snd] in Hxs.
    replace (r + (row (to m) - r)) with (row (to m)) in Hxs by lia.
    replace (cc + (col (to m) - cc)) with (col (to m)) in Hxs by lia.
    unfold inRange in Hin. rewrite Hin, Hx in Hxs. simpl in Hxs.
    rewrite Hfree in Hxs. injection Hxs as <-. left.
    assert (Ht : mkSquare (row (to m)) (col (to m)) = to m)
      by (destruct (to m); reflexivity).
    rewrite Ht. symmetry; exact Hm.
Qed.

(** X11.  Among the pseudo-legal moves of a colour, the moves that start
    on a knight are exactly the plain moves of a knight of that colour to
    a square of the board two rows and one column, or one row and two
    columns, away that is empty or holds a piece of the other colour. *)
Theorem getPseudoMoves_knight : forall (state : GameState) (c : Color)
                                       (ms : list Move) (m : Move) (pc : Piece),
    wfBoard (board state) ->
    getPseudoMoves state c = Ok ms ->
    cellAt (board state) (row (from m)) (col (from m)) = Ok (Some pc) ->
    type pc = KNIGHT ->
    (In m ms <->
     color pc = c /\ m = simpleMove (from m) (to m) /\
     stepsTo (board state) c knightOffsets (from m) (to m)).
Proof.
  intros state c ms m pc Hwf H Hpc Hk.
  rewrite (getPseudoMoves_piece state c ms m pc Hwf H Hpc). rewrite Hk.
  pose proof (cellAt_Some_inb _ _ _ _ Hwf Hpc) as Hin.
  pose proof (knightMoves_fromHere state c (row (from m)) (col (from m)) Hwf) as Hret.
  destruct (knightMoves (board state) c (row (from m)) (col (from m)))
    as [xs| | |] eqn:E; simpl in Hret; try contradiction.
  pose proof (knightMoves_In _ _ _ _ _ E m) as Hchar.
  assert (Hf : mkSquare (row (from m)) (col (from m)) = from m)
    by (destruct (from m); reflexivity).
  rewrite Hf in Hchar. rewrite <- Hchar. split.
  - intros [Hc (xs' & Hxs & Hm)]. injection Hxs as <-. auto.
  - intros [Hc Hm]. split; [exact Hc|]. exists xs; auto.
Qed.

Lemma getPseudoMoves_knight_witness :
  In knightJump (pseudoOf (fromFEN knightFEN) WHITE) <->
  color (mkPiece WHITE KNIGHT) = WHITE /\
  knightJump = simpleMove (from knightJump) (to knightJump) /\
  stepsTo (board (fromFEN knightFEN)) WHITE knightOffsets
          (from knightJump) (to knightJump).
Proof.
  apply (getPseudoMoves_knight (fromFEN knightFEN) WHITE
                               (pseudoOf (fromFEN knightFEN) WHITE)
                               knightJump (mkPiece WHITE KNIGHT));
    [reflexivity | vm_compute; reflexivity | vm_compute; reflexivity | reflexivity].
Defined.

(** ** Kings *)

Lemma anyR_false_iff : forall (A : Type) (f : A -> Res bool) (l : list A) (x : bool),
    anyR f l = Ok x ->
    (x = false <-> forall e, In e l -> f e = Ok false).
Proof.
  intros A f l; induction l as [|a l IH]; simpl; intros x H.
  - injection H as <-. split; [intros _ e []|reflexivity].
  - apply bind_Ok in H. destruct H as [b [Hb H]]. destruct b.
    + injection H as <-. split; [discriminate|].
      intros Hall. specialize (Hall a (or_introl eq_refl)). congruence.
    + rewrite (IH _ H). split.
      * intros Hall e [<-|He]; auto.
      * intros Hall e He. apply Hall. right; exact He.
Qed.

Lemma kingOffsets_iff : forall dr dc,
    In (dr, dc) kingOffsets <->
    In dr [-1; 0; 1] /\ In dc [-1; 0; 1] /\ (dr =? 0) && (dc =? 0) = false.
Proof.
  intros dr dc. unfold kingOffsets. simpl. split.
  - intros H.
    repeat (destruct H as [H|H]; [injection H as <- <-; simpl; tauto|]).
    contradiction.
  - intros [Hr [Hc Hz]].
    repeat (destruct Hr as [<-|Hr]; [|]); try contradiction;
      (repeat (destruct Hc as [<-|Hc]; [|])); try contradiction;
      simpl in Hz; try discriminate; tauto.
Qed.

Lemma kingSteps_In : forall b c r cc steps,
    forEach (fun dr : Z =>
               forEach (fun dc : Z =>
                          if (dr =? 0) && (dc =? 0) then Ok []
                          else
                            let nr := r + dr in
                            let nc := cc + dc in
                            if negb (inBounds nr nc) then Ok []
                            else
                              t <- cellAt b nr nc ;;
                              Ok (if freeFor c t
                                  then [simpleMove (mkSquare r cc) (mkSquare nr nc)]
                                  else []))
                       [-1; 0; 1])
            [-1; 0; 1] = Ok steps ->
    forall m, In m steps <->
              m = simpleMove (mkSquare r cc) (to m) /\
              stepsTo b c kingOffsets (mkSquare r cc) (to m).
Proof.
  intros b c r cc steps H m.
  rewrite (forEach_In _ _ _ _ _ H m). split.
  - intros (dr & rowMoves & Hdr & Hrow & Hm).
    rewrite (forEach_In _ _ _ _ _ Hrow m) in Hm.
    destruct Hm as (dc & xs & Hdc & Hxs & Hm).
    destruct ((dr =? 0) && (dc =? 0)) eqn:Ez.
    { injection Hxs as <-. contradiction. }
    cbv zeta in Hxs.
    destruct (inBounds (r + dr) (cc + dc)) eqn:E; cbn [negb] in Hxs.
    2:{ injection Hxs as <-. contradiction. }
    apply bind_Ok in Hxs. destruct Hxs as [t [Ht Hxs]]. injection Hxs as <-.
    destruct (freeFor c t) eqn:Ef; [|contradiction].
    destruct Hm as [<-|[]]. split; [reflexivity|].
    unfold stepsTo, landsOn, inRange. cbn [to simpleMove row col].
    split; [exact E|]. split.
    + replace (r + dr - r) with dr by lia.
      replace (cc + dc - cc) with dc by lia.
      apply kingOffsets_iff. auto.
    + exists t; auto.
  - intros [Hm (Hin & Hoff & x & Hx & Hfree)].
    cbn [row col] in Hoff. apply kingOffsets_iff in Hoff.
    destruct Hoff as [Hdr [Hdc Hz]].
    destruct (forEach_each _ _ _ _ _ H _ Hdr) as [rowMoves Hrow].
    exists (row (to m) - r), rowMoves.
    split; [exact Hdr|]. split; [exact Hrow|].
    rewrite (forEach_In _ _ _ _ _ Hrow m).
    destruct (forEach_each _ _ _ _ _ Hrow _ Hdc) as [xs Hxs].
    exists (col (to m) - cc), xs.
    split; [exact Hdc|]. split; [exact Hxs|].
    rewrite Hz in Hxs. cbv zeta in Hxs.
    replace (r + (row (to m) - r)) with (row (to m)) in Hxs by lia.
    replace (cc + (col (to m) - cc)) with (col (to m)) in Hxs by lia.
    unfold inRange in Hin. rewrite Hin, Hx in Hxs. simpl in Hxs.
    rewrite Hfree in Hxs. injection Hxs as <-. left.
    assert (Ht : mkSquare (row (to m)) (col (to m)) = to m)
      by (destruct (to m); reflexivity).
    rewrite Ht. symmetry; exact Hm.
Qed.

Lemma piece_eta : forall (p : Piece) c k,
    color p = c -> type p = k -> p = mkPiece c k.
Proof. intros [c0 k0] c k; simpl; intros -> ->; reflexivity. Qed.

Lemma castleCandidate_In : forall state c rw side empties rookCol kTo xs,
    castleCandidate state c rw side empties rookCol kTo = Ok xs ->
    forall m,
      In m xs <->
      m = mkMove (mkSquare rw 4) (mkSquare rw kTo) None false (Some side) /\
      right (castling state) c side = true /\
      (forall e, In e empties -> cellAt (board state) rw e = Ok None) /\
      cellAt (board state) rw rookCol = Ok (Some (mkPiece c ROOK)).
Proof.
  intros state c rw side empties rookCol kTo xs H m.
  unfold castleCandidate in H.
  apply bind_Ok in H. destruct H as [ok [Hok H]]. injection H as <-.
  unfold andR in Hok. cbn [bind] in Hok.
  destruct (right (castling state) c side) eqn:Er.
  2:{ injection Hok as <-. split; [intros []|]. intros (_ & Hx & _); discriminate. }
  apply bind_Ok in Hok. destruct Hok as [noPiece [Hno Hok]].
  apply bind_Ok in Hno. destruct Hno as [x [Hany Hno]]. injection Hno as <-.
  pose proof (anyR_false_iff _ _ _ _ Hany) as Hall.
  assert (Hempty : x = false <->
                   forall e, In e empties -> cellAt (board state) rw e = Ok None).
  { rewrite Hall. split.
    - intros Hf e He. specialize (Hf e He).
      apply bind_Ok in Hf. destruct Hf as [t [Ht Hf]].
      destruct t; [discriminate|]. exact Ht.
    - intros Hf e He. rewrite (Hf e He). reflexivity. }
  destruct x; cbn [negb] in Hok.
  - injection Hok as <-. split; [intros []|].
    intros (_ & _ & He & _). apply Hempty in He. discriminate.
  - apply bind_Ok in Hok. destruct Hok as [t [Ht Hok]]. injection Hok as <-.
    destruct t as [rk|].
    + destruct (type_eqb (type rk) ROOK) eqn:Et; cbn [andb].
      * destruct (color_eqb (color rk) c) eqn:Ec.
        -- apply type_eqb_eq in Et. apply color_eqb_eq in Ec.
           rewrite (piece_eta rk c ROOK Ec Et) in Ht. split.
           ++ intros [<-|[]]. split; [reflexivity|]. split; [reflexivity|].
              split; [apply Hempty; reflexivity|exact Ht].
           ++ intros (-> & _). left; reflexivity.
        -- split; [intros []|]. intros (_ & _ & _ & Hrk).
           rewrite Ht in Hrk. injection Hrk as ->. simpl in Ec.
           destruct c; discriminate.
      * split; [intros []|]. intros (_ & _ & _ & Hrk).
        rewrite Ht in Hrk. injection Hrk as ->. discriminate.
    + split; [intros []|]. intros (_ & _ & _ & Hrk). congruence.
Qed.

(** What [kingMoves] pushes: the steps to the adjacent squares and, from
    column 4 of the home row, the castling candidates. *)
Lemma kingMoves_In : forall state c r cc xs,
    kingMoves state c r cc = Ok xs ->
    forall m,
      In m xs <->
      (m = simpleMove (mkSquare r cc) (to m) /\
       stepsTo (board state) c kingOffsets (mkSquare r cc) (to m))
      \/ (mkSquare r cc = mkSquare (homeRow c) 4 /\
          exists side, m = castleMove c side /\ mayCastle state c side).
Proof.
  intros state c r cc xs E m. unfold kingMoves in E.
  apply bind_Ok in E. destruct E as [steps [Hsteps E]].
  apply bind_Ok in E. destruct E as [castles [Hcastles E]]. injection E as <-.
  pose proof (kingSteps_In _ _ _ _ _ Hsteps m) as Hst.
  assert (Hcs : In m castles <->
                mkSquare r cc = mkSquare (homeRow c) 4 /\
                exists side, m = castleMove c side /\ mayCastle state c side).
  { fold (homeRow c) in Hcastles.
    destruct ((r =? homeRow c) && (cc =? 4)) eqn:Eh.
    - apply andb_true_iff in Eh. destruct Eh as [E1 E2].
      apply Z.eqb_eq in E1, E2. subst r cc.
      apply bind_Ok in Hcastles. destruct Hcastles as [ks [Hks Hcastles]].
      apply bind_Ok in Hcastles. destruct Hcastles as [qs [Hqs Hcastles]].
      injection Hcastles as <-.
      rewrite in_app_iff.
      rewrite (castleCandidate_In _ _ _ _ _ _ _ _ Hks m).
      rewrite (castleCandidate_In _ _ _ _ _ _ _ _ Hqs m).
      unfold mayCastle, castleMove. split.
      + intros [Hx|Hx]; (split; [reflexivity|]);
          [exists SideK|exists SideQ]; exact Hx.
      + intros [_ [[|] Hx]]; [left|right]; exact Hx.
    - injection Hcastles as <-. split; [intros []|].
      intros [Hsq _]. injection Hsq as -> ->.
      rewrite !Z.eqb_refl in Eh. discriminate. }
  rewrite in_app_iff, Hst, Hcs. reflexivity.
Qed.

(** X12.  Among the pseudo-legal moves of a colour, the moves that start
    on a king are exactly: the plain moves of a king of that colour to an
    adjacent square of the board that is empty or holds a piece of the
    other colour; and, when the king stands on column 4 of the home row
    of its colour, the castling move of a side whose right is set, with
    empty squares between king and corner and a rook of the colour in
    the corner.  Attacks on the king or on the squares it passes are not
    looked at here. *)
Theorem getPseudoMoves_king : forall (state : GameState) (c : Color)
                                     (ms : list Move) (m : Move) (pc : Piece),
    wfBoard (board state) ->
    getPseudoMoves state c = Ok ms ->
    cellAt (board state) (row (from m)) (col (from m)) = Ok (Some pc) ->
    type pc = KING ->
    (In m ms <->
     color pc = c /\
     (m = simpleMove (from m) (to m) /\
      stepsTo (board state) c kingOffsets (from m) (to m)
      \/ exists side, m = castleMove c side /\ mayCastle state c side)).
Proof.
  intros state c ms m pc Hwf H Hpc Hk.
  rewrite (getPseudoMoves_piece state c ms m pc Hwf H Hpc). rewrite Hk.
  pose proof (cellAt_Some_inb _ _ _ _ Hwf Hpc) as Hin.
  pose proof (kingMoves_fromHere state c (row (from m)) (col (from m)) Hwf Hin) as Hret.
  destruct (kingMoves state c (row (from m)) (col (from m)))
    as [xs| | |] eqn:E; simpl in Hret; try contradiction.
  clear Hret.
  pose proof (kingMoves_In _ _ _ _ _ E m) as Hchar.
  assert (Hf : mkSquare (row (from m)) (col (from m)) = from m)
    by (destruct (from m); reflexivity).
  rewrite Hf in Hchar. split.
  - intros [Hc (xs' & Hxs & Hm)]. injection Hxs as <-.
    split; [exact Hc|]. apply Hchar in Hm.
    destruct Hm as [Hm|[_ Hm]]; [left|right]; exact Hm.
  - intros [Hc Hm]. split; [exact Hc|]. exists xs. split; [reflexivity|].
    apply Hchar. destruct Hm as [Hm|Hm]; [left; exact Hm|right].
    split; [|exact Hm]. destruct Hm as (side & -> & _). reflexivity.
Qed.

Lemma getPseudoMoves_king_witness :
  In castleShort (pseudoOf (fromFEN castleFEN) WHITE) <->
  color (mkPiece WHITE KING) = WHITE /\
  (castleShort = simpleMove (from castleShort) (to castleShort) /\
   stepsTo (board (fromFEN castleFEN)) WHITE kingOffsets
           (from castleShort) (to castleShort)
   \/ exists side, castleShort = castleMove WHITE side /\
                   mayCastle (fromFEN castleFEN) WHITE side).
Proof.
  apply (getPseudoMoves_king (fromFEN castleFEN) WHITE
                             (pseudoOf (fromFEN castleFEN) WHITE)
                             castleShort (mkPiece WHITE KING));
    [reflexivity | vm_compute; reflexivity | vm_compute; reflexivity | reflexivity].
Defined.

(** ** Pawns *)

Lemma arrival_In : forall c f t m,
    In m (if row t =? lastRow c then promoMoves f t else [simpleMove f t]) <->
    from m = f /\ to m = t /\ arrives c m.
Proof.
  intros c f t m. unfold arrives.
  destruct m as [mf mt p e cs]. cbn [from to promotion isEnPassant castlingSide].
  destruct (row t =? lastRow c) eqn:E.
  - unfold promoMoves. simpl. split.
    + intros H.
      repeat (destruct H as [H|H];
              [injection H as <- <- <- <- <-; rewrite E; simpl; tauto|]).
      contradiction.
    + intros (-> & -> & -> & -> & H). rewrite E in H. simpl in H.
      repeat (destruct H as [->|H]; [tauto|]). contradiction.
  - simpl. split.
    + intros [H|[]]. injection H as <- <- <- <- <-. rewrite E. tauto.
    + intros (-> & -> & -> & -> & H). rewrite E in H. subst p. left; reflexivity.
Qed.

Lemma pawnForward_In : forall b c r cc fw,
    (if inBounds (r + pawnDir c) cc then
       t <- cellAt b (r + pawnDir c) cc ;;
       match t with
       | Some _ => Ok []
       | None =>
           let single :=
             if r + pawnDir c =? lastRow c
             then promoMoves (mkSquare r cc) (mkSquare (r + pawnDir c) cc)
             else [simpleMove (mkSquare r cc) (mkSquare (r + pawnDir c) cc)] in
           let nr2 := r + 2 * pawnDir c in
           double <-
             (if r =? pawnStart c then
                t2 <- cellAt b nr2 cc ;;
                Ok (match t2 with
                    | None => [simpleMove (mkSquare r cc) (mkSquare nr2 cc)]
                    | Some _ => []
                    end)
              else Ok []) ;;
           Ok (single ++ double)
       end
     else Ok []) = Ok fw ->
    inBounds r cc = true ->
    forall m, In m fw <->
              from m = mkSquare r cc /\ (pawnPush b c m \/ pawnDouble b c m).
Proof.
  intros b c r cc fw H Hin m.
  assert (Hstart : r = pawnStart c -> inBounds (r + pawnDir c) cc = true).
  { intros ->. apply inBounds_iff in Hin. apply inBounds_iff.
    destruct c; simpl in *; lia. }
  destruct (inBounds (r + pawnDir c) cc) eqn:E.
  2:{ injection H as <-. split; [intros []|].
      intros [Hf [Hp|Hd]].
      - destruct Hp as (_ & Hr & Hc & Ht & _). unfold inRange in Ht.
        rewrite Hr, Hc, Hf in Ht. cbn [row col] in Ht. congruence.
      - destruct Hd as (_ & Hs & _). rewrite Hf in Hs. cbn [row] in Hs.
        specialize (Hstart Hs). congruence. }
  apply bind_Ok in H. destruct H as [t [Ht H]].
  destruct t as [tp|].
  { injection H as <-. split; [intros []|].
    intros [Hf [Hp|Hd]].
    - destruct Hp as (_ & Hr & Hc & _ & Hcell).
      rewrite Hr, Hc, Hf in Hcell. cbn [row col] in Hcell. congruence.
    - destruct Hd as (_ & _ & _ & _ & Hcell & _).
      rewrite Hf in Hcell. cbn [row col] in Hcell. congruence. }
  cbv zeta in H.
  apply bind_Ok in H. destruct H as [dbl [Hdbl H]]. injection H as <-.
  rewrite in_app_iff.
  pose proof (arrival_In c (mkSquare r cc) (mkSquare (r + pawnDir c) cc) m) as Harr.
  cbn [row] in Harr. rewrite Harr. clear Harr.
  assert (Hd : In m dbl <-> from m = mkSquare r cc /\ pawnDouble b c m).
  { unfold pawnDouble. destruct (r =? pawnStart c) eqn:Es.
    - apply Z.eqb_eq in Es.
      apply bind_Ok in Hdbl. destruct Hdbl as [t2 [Ht2 Hdbl]]. injection Hdbl as <-.
      destruct t2 as [tp2|].
      + split; [intros []|]. intros (Hf & _ & _ & Hr & Hc & _ & Hcell).
        rewrite Hr, Hc, Hf in Hcell. cbn [row col] in Hcell. congruence.
      + split.
        * intros [<-|[]]. cbn [from to simpleMove row col].
          repeat split; auto.
        * intros (Hf & Hm & _ & Hr & Hc & _ & _). left.
          rewrite Hm. rewrite Hf. f_equal.
          destruct (to m) as [tr tc]. cbn [row col] in Hr, Hc.
          rewrite Hf in Hr, Hc. cbn [row col] in Hr, Hc. subst tr tc. reflexivity.
    - injection Hdbl as <-. apply Z.eqb_neq in Es. split; [intros []|].
      intros (Hf & _ & Hs & _). rewrite Hf in Hs. cbn [row] in Hs. contradiction. }
  rewrite Hd. unfold pawnPush, inRange. split.
  - intros [(Hf & Hto & Ha)|[Hf Hdd]].
    + split; [exact Hf|]. left. rewrite Hto, Hf. cbn [row col]. auto.
    + split; [exact Hf|]. right. exact Hdd.
  - intros [Hf [(Ha & Hr & Hc & _)|Hdd]].
    + left. split; [exact Hf|]. split; [|exact Ha].
      destruct (to m) as [tr tc]. cbn [row col] in Hr, Hc.
      rewrite Hf in Hr, Hc. cbn [row col] in Hr, Hc. subst tr tc. reflexivity.
    + right. split; assumption.
Qed.

Lemma pawnCaptures_In : forall state c r cc caps,
    forEach (fun dc : Z =>
               let nc := cc + dc in
               if negb (inBounds (r + pawnDir c) nc) then Ok []
               else
                 target <- cellAt (board state) (r + pawnDir c) nc ;;
                 let capture :=
                   match target with
                   | Some tp =>
                       if negb (color_eqb (color tp) c) then
                         if r + pawnDir c =? lastRow c
                         then promoMoves (mkSquare r cc) (mkSquare (r + pawnDir c) nc)
                         else [simpleMove (mkSquare r cc) (mkSquare (r + pawnDir c) nc)]
                       else []
                   | None => []
                   end in
                 let ep :=
                   match enPassant state with
                   | Some e =>
                       if (row e =? r + pawnDir c) && (col e =? nc)
                       then [mkMove (mkSquare r cc) (mkSquare (r + pawnDir c) nc)
                                    None true None]
                       else []
                   | None => []
                   end in
                 Ok (capture ++ ep))
            [-1; 1] = Ok caps ->
    forall m, In m caps <->
              from m = mkSquare r cc /\
              (pawnCapture (board state) c m \/ pawnEnPassant state c m).
Proof.
  intros state c r cc caps H m.
  rewrite (forEach_In _ _ _ _ _ H m). split.
  - intros (dc & xs & Hdc & Hxs & Hm). cbv zeta in Hxs.
    destruct (inBounds (r + pawnDir c) (cc + dc)) eqn:E; cbn [negb] in Hxs.
    2:{ injection Hxs as <-. contradiction. }
    apply bind_Ok in Hxs. destruct Hxs as [target [Ht Hxs]]. injection Hxs as <-.
    assert (Hside : cc + dc = cc - 1 \/ cc + dc = cc + 1).
    { simpl in Hdc. lia. }
    apply in_app_iff in Hm. destruct Hm as [Hm|Hm].
    + destruct target as [tp|]; [|contradiction].
      destruct (negb (color_eqb (color tp) c)) eqn:Ec; [|contradiction].
      pose proof (arrival_In c (mkSquare r cc) (mkSquare (r + pawnDir c) (cc + dc)) m)
        as Harr.
      cbn [row] in Harr. apply Harr in Hm. destruct Hm as (Hf & Hto & Ha).
      split; [exact Hf|]. left. unfold pawnCapture, pawnDiagonal, inRange.
      rewrite Hto, Hf. cbn [row col].
      split; [exact Ha|]. split; [auto|].
      exists tp. split; [exact Ht|].
      apply negb_true_iff in Ec. intros Heq. apply color_eqb_eq in Heq. congruence.
    + destruct (enPassant state) as [e|] eqn:Ee; [|contradiction].
      destruct ((row e =? r + pawnDir c) && (col e =? cc + dc)) eqn:Em; [|contradiction].
      destruct Hm as [<-|[]]. apply andb_true_iff in Em. destruct Em as [E1 E2].
      apply Z.eqb_eq in E1, E2.
      split; [reflexivity|]. right. unfold pawnEnPassant, pawnDiagonal, inRange.
      cbn [from to row col]. split; [reflexivity|]. split; [auto|].
      exists e. auto.
  - intros [Hf Hm].
    assert (Hgen : pawnDiagonal c m ->
                   In (col (to m) - cc) [-1; 1] /\
                   to m = mkSquare (r + pawnDir c) (cc + (col (to m) - cc)) /\
                   inBounds (r + pawnDir c) (cc + (col (to m) - cc)) = true).
    { intros (Hr & Hc & Hin). rewrite Hf in Hr, Hc. cbn [row col] in Hr, Hc.
      split; [simpl; lia|].
      replace (cc + (col (to m) - cc)) with (col (to m)) by lia.
      rewrite <- Hr. split; [destruct (to m); reflexivity|exact Hin]. }
    assert (Hdiag : pawnDiagonal c m).
    { destruct Hm as [(_ & Hd & _)|(_ & Hd & _)]; exact Hd. }
    destruct (Hgen Hdiag) as (Hdc & Hto & Hin). clear Hgen.
    destruct (forEach_each _ _ _ _ _ H _ Hdc) as [xs Hxs].
    exists (col (to m) - cc), xs. split; [exact Hdc|]. split; [exact Hxs|].
    cbv zeta in Hxs. rewrite Hin in Hxs. cbn [negb] in Hxs.
    apply bind_Ok in Hxs. destruct Hxs as [target [Ht Hxs]]. injection Hxs as <-.
    apply in_app_iff. destruct Hm as [(Ha & _ & tp & Htp & Hcol)|(Hm & _ & e & He & Her & Hec)].
    + left. rewrite Hto in Htp. cbn [row col] in Htp. rewrite Ht in Htp.
      injection Htp as ->.
      assert (Ec : negb (color_eqb (color tp) c) = true).
      { apply negb_true_iff. destruct (color_eqb (color tp) c) eqn:Ec; auto.
        apply color_eqb_eq in Ec. contradiction. }
      rewrite Ec.
      pose proof (arrival_In c (mkSquare r cc)
                             (mkSquare (r + pawnDir c) (cc + (col (to m) - cc))) m)
        as Harr.
      cbn [row] in Harr. apply Harr. auto.
    + right. rewrite He. rewrite Hto in Her, Hec. cbn [row col] in Her, Hec.
      rewrite Her, Hec, !Z.eqb_refl. cbn [andb]. left.
      rewrite <- Hto, <- Hf. symmetry; exact Hm.
Qed.

Lemma pawnMoves_In : forall state c r cc xs,
    pawnMoves state c r cc = Ok xs -> inBounds r cc = true ->
    forall m,
      In m xs <->
      from m = mkSquare r cc /\
      (pawnPush (board state) c m \/ pawnDouble (board state) c m \/
       pawnCapture (board state) c m \/ pawnEnPassant state c m).
Proof.
  intros state c r cc xs H Hin m. unfold pawnMoves in H.
  apply bind_Ok in H. destruct H as [fw [Hfw H]].
  apply bind_Ok in H. destruct H as [caps [Hcaps H]]. injection H as <-.
  rewrite in_app_iff.
  rewrite (pawnForward_In (board state) c r cc fw Hfw Hin m).
  rewrite (pawnCaptures_In state c r cc caps Hcaps m).
  tauto.
Qed.

(** X13.  Among the pseudo-legal moves of a colour, the moves that start
    on a pawn are exactly the moves of a pawn of that colour: one row
    forward to an empty square; two rows forward from the start row over
    an empty square to an empty square; one row forward and one column
    aside onto a piece of the other colour; or, with the en-passant flag,
    one row forward and one column aside onto the en-passant target of
    the state.  A pawn that reaches the last row by one of the first three
    promotes to a queen, a rook, a bishop or a knight; no other pawn move
    promotes. *)
Theorem getPseudoMoves_pawn : forall (state : GameState) (c : Color)
                                     (ms : list Move) (m : Move) (pc : Piece),
    wfBoard (board state) ->
    getPseudoMoves state c = Ok ms ->
    cellAt (board state) (row (from m)) (col (from m)) = Ok (Some pc) ->
    type pc = PAWN ->
    (In m ms <->
     color pc = c /\
     (pawnPush (board state) c m \/ pawnDouble (board state) c m \/
      pawnCapture (board state) c m \/ pawnEnPassant state c m)).
Proof.
  intros state c ms m pc Hwf H Hpc Hk.
  rewrite (getPseudoMoves_piece state c ms m pc Hwf H Hpc). rewrite Hk.
  pose proof (cellAt_Some_inb _ _ _ _ Hwf Hpc) as Hin.
  pose proof (pawnMoves_fromHere state c (row (from m)) (col (from m)) Hwf) as Hret.
  destruct (pawnMoves state c (row (from m)) (col (from m)))
    as [xs| | |] eqn:E; simpl in Hret; try contradiction.
  pose proof (pawnMoves_In _ _ _ _ _ E Hin m) as Hchar.
  assert (Hf : from m = mkSquare (row (from m)) (col (from m)))
    by (destruct (from m); reflexivity).
  split.
  - intros [Hc (xs' & Hxs & Hm)]. injection Hxs as <-.
    split; [exact Hc|]. apply Hchar in Hm. tauto.
  - intros [Hc Hm]. split; [exact Hc|]. exists xs. split; [reflexivity|].
    apply Hchar. tauto.
Qed.

Lemma getPseudoMoves_pawn_witness :
  In takeEnPassant (pseudoOf (fromFEN enPassantFEN) WHITE) <->
  color (mkPiece WHITE PAWN) = WHITE /\
  (pawnPush (board (fromFEN enPassantFEN)) WHITE takeEnPassant \/
   pawnDouble (board (fromFEN enPassantFEN)) WHITE takeEnPassant \/
   pawnCapture (board (fromFEN enPassantFEN)) WHITE takeEnPassant \/
   pawnEnPassant (fromFEN enPassantFEN) WHITE takeEnPassant).
Proof.
  apply (getPseudoMoves_pawn (fromFEN enPassantFEN) WHITE
                             (pseudoOf (fromFEN enPassantFEN) WHITE)
                             takeEnPassant (mkPiece WHITE PAWN));
    [reflexivity | vm_compute; reflexivity | vm_compute; reflexivity | reflexivity].
Defined.

(** * Legal moves *)

Lemma isLegal_true_iff : forall state c m,
    isLegal state c m = Ok true <->
    castlingAllowed state c m = Ok true /\ leavesKingSafe (board state) c m.
Proof.
  intros state c m. unfold isLegal, leavesKingSafe. split.
  - intros H. apply bind_Ok in H. destruct H as [pass [Hpass H]].
    destruct pass; [|discriminate].
    apply bind_Ok in H. destruct H as [nb [Hnb H]].
    apply bind_Ok in H. destruct H as [chk [Hchk H]].
    injection H as H. apply negb_true_iff in H. subst chk.
    split; [exact Hpass|]. exists nb; auto.
  - intros [Hpass (nb & Hnb & Hchk)]. rewrite Hpass. simpl.
    rewrite Hnb. simpl. rewrite Hchk. reflexivity.
Qed.

Lemma castlingAllowed_side : forall state c m side,
    castlingSide m = Some side ->
    (castlingAllowed state c m = Ok true <->
     isInCheck (board state) c = Ok false /\
     isSquareAttacked (board state) (row (from m)) (rookTo side) (opponent c)
     = Ok false /\
     isSquareAttacked (board state) (row (from m)) (kingTo side) (opponent c)
     = Ok false).
Proof.
  intros state c m side Hs. unfold castlingAllowed. rewrite Hs. split.
  - intros H. apply bind_Ok in H. destruct H as [chk [Hchk H]].
    destruct chk; [discriminate|]. split; [exact Hchk|].
    destruct side; cbn [rookTo kingTo];
      apply bind_Ok in H; destruct H as [a1 [Ha1 H]];
      (destruct a1; [discriminate|]);
      apply bind_Ok in H; destruct H as [a2 [Ha2 H]];
      injection H as H; apply negb_true_iff in H; subst a2; auto.
  - intros (Hchk & Ha1 & Ha2). rewrite Hchk. simpl.
    destruct side; cbn [rookTo kingTo] in *; rewrite Ha1; simpl; rewrite Ha2;
      reflexivity.
Qed.

Lemma getLegalMoves_In : forall state c ms,
    getLegalMoves state (Some c) = Ok ms ->
    exists pseudo,
      getPseudoMoves state c = Ok pseudo /\
      forall m, In m ms <-> In m pseudo /\ isLegal state c m = Ok true.
Proof.
  intros state c ms H. unfold getLegalMoves in H.
  apply bind_Ok in H. destruct H as [pseudo [Hps H]].
  exists pseudo. split; [exact Hps|]. intros m.
  apply (filterR_In _ _ _ _ H).
Qed.

(** A pseudo-legal move with a castling flag is the castling move of a
    side that passes the tests of [kingMoves], made by a king on its home
    square. *)
Lemma getPseudoMoves_castle : forall state c ps m side,
    wfBoard (board state) -> getPseudoMoves state c = Ok ps ->
    (In m ps /\ castlingSide m = Some side <->
     m = castleMove c side /\ mayCastle state c side /\
     cellAt (board state) (homeRow c) 4 = Ok (Some (mkPiece c KING))).
Proof.
  intros state c ps m side Hwf H. split.
  - intros [Hm Hs].
    pose proof Hm as Hm'.
    apply (getPseudoMoves_In state c ps Hwf H) in Hm'.
    destruct Hm' as [Hin _].
    destruct (cellAt_cases _ _ _ Hwf Hin) as [p Hp].
    destruct p as [pc|].
    2:{ apply (getPseudoMoves_In state c ps Hwf H) in Hm.
        destruct Hm as [_ (xs & Hxs & Hx)].
        unfold squareMoves in Hxs. rewrite Hp in Hxs. simpl in Hxs.
        injection Hxs as <-. contradiction. }
    apply (getPseudoMoves_piece state c ps m pc Hwf H Hp) in Hm.
    destruct Hm as [Hc (xs & Hxs & Hx)].
    assert (Hf : mkSquare (row (from m)) (col (from m)) = from m)
      by (destruct (from m); reflexivity).
    assert (Hsimple : m = simpleMove (from m) (to m) -> False).
    { intros E. rewrite E in Hs. discriminate. }
    destruct (type pc) eqn:Ek.
    + apply (pawnMoves_In _ _ _ _ _ Hxs Hin) in Hx.
      destruct Hx as [_ [Hx|[Hx|[Hx|Hx]]]]; exfalso.
      * destruct Hx as ((_ & Hx & _) & _). congruence.
      * destruct Hx as (Hx & _). auto.
      * destruct Hx as ((_ & Hx & _) & _). congruence.
      * destruct Hx as (Hx & _). rewrite Hx in Hs. discriminate.
    + apply (knightMoves_In _ _ _ _ _ Hxs) in Hx. rewrite Hf in Hx.
      exfalso. tauto.
    + apply (slideMoves_In _ _ _ _ _ Hwf Hin unitDir_diag Hxs) in Hx.
      exfalso. tauto.
    + apply (slideMoves_In _ _ _ _ _ Hwf Hin unitDir_straight Hxs) in Hx.
      exfalso. tauto.
    + apply (slideMoves_In _ _ _ _ _ Hwf Hin unitDir_queen Hxs) in Hx.
      exfalso. tauto.
    + apply (kingMoves_In _ _ _ _ _ Hxs) in Hx. rewrite Hf in Hx.
      destruct Hx as [[Hx _]|[Hsq (side' & Hx & Hmay)]]; [exfalso; auto|].
      assert (side' = side).
      { rewrite Hx in Hs. unfold castleMove in Hs. simpl in Hs. congruence. }
      subst side'. split; [exact Hx|]. split; [exact Hmay|].
      rewrite Hsq in Hp. cbn [row col] in Hp.
      rewrite Hp. f_equal. f_equal. apply piece_eta; assumption.
  - intros (-> & Hmay & Hking). split; [|reflexivity].
    apply (getPseudoMoves_piece state c ps (castleMove c side)
                                (mkPiece c KING) Hwf H Hking).
    split; [reflexivity|]. cbn [type from castleMove row col].
    assert (Hin : inBounds (homeRow c) 4 = true) by (destruct c; reflexivity).
    pose proof (kingMoves_fromHere state c (homeRow c) 4 Hwf Hin) as Hret.
    destruct (kingMoves state c (homeRow c) 4) as [xs| | |] eqn:E;
      simpl in Hret; try contradiction.
    exists xs. split; [reflexivity|].
    apply (kingMoves_In _ _ _ _ _ E). right. split; [reflexivity|].
    exists side. auto.
Qed.

(** X14.  The castling move of a side is among the legal moves of a colour
    exactly when the king of the colour stands on column 4 of its home
    row, the right of the side is set, the squares between king and
    corner are empty, a rook of the colour stands in the corner, the king
    is not in check, neither the square the king passes nor the square it
    lands on is attacked by the other colour, and the king is not in
    check on the board after the move.  No other legal move carries a
    castling flag. *)
Theorem getLegalMoves_castling : forall (state : GameState) (c : Color)
                                        (ms : list Move) (side : CastleSide),
    wfBoard (board state) ->
    getLegalMoves state (Some c) = Ok ms ->
    (In (castleMove c side) ms <->
     cellAt (board state) (homeRow c) 4 = Ok (Some (mkPiece c KING)) /\
     mayCastle state c side /\
     isInCheck (board state) c = Ok false /\
     isSquareAttacked (board state) (homeRow c) (rookTo side) (opponent c)
     = Ok false /\
     isSquareAttacked (board state) (homeRow c) (kingTo side) (opponent c)
     = Ok false /\
     leavesKingSafe (board state) c (castleMove c side)) /\
    (forall m, In m ms -> castlingSide m = Some side -> m = castleMove c side).
Proof.
  intros state c ms side Hwf H.
  destruct (getLegalMoves_In state c ms H) as (ps & Hps & Hchar).
  pose proof (fun m => getPseudoMoves_castle state c ps m side Hwf Hps) as Hcastle.
  split.
  - rewrite Hchar, isLegal_true_iff.
    rewrite (castlingAllowed_side state c (castleMove c side) side eq_refl).
    cbn [from castleMove row].
    specialize (Hcastle (castleMove c side)). split.
    + intros [Hin [Hall Hsafe]].
      destruct Hcastle as [Hc _]. destruct Hc as (_ & Hmay & Hking); [auto|].
      tauto.
    + intros (Hking & Hmay & Hchk & Ha1 & Ha2 & Hsafe).
      destruct Hcastle as [_ Hc]. destruct Hc as [Hin _]; [auto|]. tauto.
  - intros m Hm Hs. apply Hchar in Hm. destruct Hm as [Hm _].
    destruct (Hcastle m) as [Hc _]. destruct Hc as (Hx & _); auto.
Qed.

Lemma getLegalMoves_castling_witness :
  (In (castleMove WHITE SideK) (legalOf (fromFEN castleFEN)) <->
   cellAt (board (fromFEN castleFEN)) (homeRow WHITE) 4
   = Ok (Some (mkPiece WHITE KING)) /\
   mayCastle (fromFEN castleFEN) WHITE SideK /\
   isInCheck (board (fromFEN castleFEN)) WHITE = Ok false /\
   isSquareAttacked (board (fromFEN castleFEN)) (homeRow WHITE) (rookTo SideK)
                    (opponent WHITE) = Ok false /\
   isSquareAttacked (board (fromFEN castleFEN)) (homeRow WHITE) (kingTo SideK)
                    (opponent WHITE) = Ok false /\
   leavesKingSafe (board (fromFEN castleFEN)) WHITE (castleMove WHITE SideK)) /\
  (forall m, In m (legalOf (fromFEN castleFEN)) -> castlingSide m = Some SideK ->
             m = castleMove WHITE SideK).
Proof.
  apply (getLegalMoves_castling (fromFEN castleFEN) WHITE
                                (legalOf (fromFEN castleFEN)) SideK);
    [reflexivity | vm_compute; reflexivity].
Defined.

(** X15.  On a board of eight ranks of eight cells, [makeMove] applies
    every move that [getLegalMoves] returns for the side to move: it
    returns a state, on a board of the same shape, in which the turn has
    passed to the other side and the king of the side that moved is not
    in check. *)
Theorem makeMove_legal : forall (s : GameState) (ms : list Move) (m : Move),
    wfBoard (board s) ->
    getLegalMoves s None = Ok ms -> In m ms ->
    exists s',
      makeMove s m = Ok (Some s') /\
      wfBoard (board s') /\
      turn s' = opponent (turn s) /\
      isInCheck (board s') (turn s) = Ok false.
Proof.
  intros s ms m Hwf H Hm. rewrite getLegalMoves_default in H.
  pose proof (getLegalMoves_spec s (turn s) Hwf) as Hspec.
  rewrite H in Hspec. simpl in Hspec.
  destruct (Hspec m Hm) as [(Hf & Ht & pc & Hpc & Hc) (nb & Hnb & Hsafe)].
  pose proof (makeMove_spec s m Hwf Hf Ht) as Hmk.
  destruct (makeMove s m) as [[s'|]| | |] eqn:E; simpl in Hmk; try contradiction.
  2:{ congruence. }
  exists s'. split; [reflexivity|]. destruct Hmk as [Hwf' _].
  split; [exact Hwf'|].
  apply makeMove_inv in E.
  destruct E as (pc' & capt & replies & inCheck & Hpc' & _ & Happ & Hturn & _).
  assert (pc' = pc) by congruence. subst pc'.
  rewrite cloneBoard_id in Hnb.
  assert (nb = board s') by congruence. subst nb.
  split; [rewrite Hturn, Hc; reflexivity|exact Hsafe].
Qed.

Lemma makeMove_legal_witness :
  In queenMate (legalOf (fromFEN backRankFEN)) /\
  exists s',
    makeMove (fromFEN backRankFEN) queenMate = Ok (Some s') /\
    wfBoard (board s') /\
    turn s' = opponent (turn (fromFEN backRankFEN)) /\
    isInCheck (board s') (turn (fromFEN backRankFEN)) = Ok false.
Proof.
  split; [vm_compute; tauto|].
  apply (makeMove_legal (fromFEN backRankFEN) (legalOf (fromFEN backRankFEN)) queenMate);
    [reflexivity | vm_compute; reflexivity | vm_compute; tauto].
Defined.

(** * Kings and material *)

(** ** The scan for the king *)

Lemma idx8_prefix : forall pre x post,
    idx8 = pre ++ x :: post -> forall y, 0 <= y < x -> In y pre.
Proof.
  intros pre x post H y Hy. unfold idx8 in H.
  repeat (destruct pre as [|? pre];
          [injection H as <-; intros; subst; simpl; lia
          |injection H as <- H]).
  destruct pre; discriminate.
Qed.

Lemma findKingRow_spec : forall b c r cs res,
    findKingRow b c r cs = Ok res ->
    match res with
    | Some sq =>
        row sq = r /\
        cellAt b r (col sq) = Ok (Some (mkPiece c KING)) /\
        exists pre post,
          cs = pre ++ col sq :: post /\
          forall cc, In cc pre -> cellAt b r cc <> Ok (Some (mkPiece c KING))
    | None =>
        forall cc, In cc cs -> cellAt b r cc <> Ok (Some (mkPiece c KING))
    end.
Proof.
  intros b c r cs; induction cs as [|c0 cs IH]; intros res H; cbn [findKingRow] in H.
  - injection H as <-. intros cc [].
  - apply bind_Ok in H. destruct H as [p [Hp H]].
    destruct (match p with
              | Some pc => color_eqb (color pc) c && type_eqb (type pc) KING
              | None => false
              end) eqn:E.
    + destruct p as [pc|]; [|discriminate]. rewrite E in H. injection H as <-.
      apply andb_true_iff in E. destruct E as [E1 E2].
      apply color_eqb_eq in E1. apply type_eqb_eq in E2.
      cbn [row col]. split; [reflexivity|]. split.
      * rewrite Hp. f_equal. f_equal. destruct pc; simpl in *; congruence.
      * exists [], cs. split; [reflexivity|]. intros cc [].
    + assert (Hn : cellAt b r c0 <> Ok (Some (mkPiece c KING))).
      { intros Hk. rewrite Hp in Hk. injection Hk as ->. simpl in E.
        replace (color_eqb c c) with true in E
          by (symmetry; apply color_eqb_eq; reflexivity).
        discriminate. }
      assert (H' : findKingRow b c r cs = Ok res).
      { destruct p as [pc|]; [rewrite E in H|]; exact H. }
      specialize (IH res H'). destruct res as [sq|].
      * destruct IH as (Hr & Hcell & pre & post & Hcs & Hpre).
        split; [exact Hr|]. split; [exact Hcell|].
        exists (c0 :: pre), post. split; [rewrite Hcs; reflexivity|].
        intros cc [<-|Hcc]; [exact Hn|apply Hpre; exact Hcc].
      * intros cc [<-|Hcc]; [exact Hn|apply IH; exact Hcc].
Qed.

Lemma findKingRows_spec : forall b c rs res,
    findKingRows b c rs = Ok res ->
    match res with
    | Some sq =>
        cellAt b (row sq) (col sq) = Ok (Some (mkPiece c KING)) /\
        (forall cc, 0 <= cc < col sq ->
                    cellAt b (row sq) cc <> Ok (Some (mkPiece c KING))) /\
        0 <= col sq < 8 /\
        exists pre post,
          rs = pre ++ row sq :: post /\
          forall r cc, In r pre -> 0 <= cc < 8 ->
                       cellAt b r cc <> Ok (Some (mkPiece c KING))
    | None =>
        forall r cc, In r rs -> 0 <= cc < 8 ->
                     cellAt b r cc <> Ok (Some (mkPiece c KING))
    end.
Proof.
  intros b c rs; induction rs as [|r rs IH]; intros res H; cbn [findKingRows] in H.
  - injection H as <-. intros r cc [].
  - apply bind_Ok in H. destruct H as [k [Hk H]].
    apply findKingRow_spec in Hk. destruct k as [sq|].
    + injection H as <-. destruct Hk as (Hr & Hcell & pre & post & Hcs & Hpre).
      subst r. split; [exact Hcell|]. split.
      * intros cc Hcc. apply Hpre. eapply idx8_prefix; eauto.
      * split.
        -- apply idx8_range. rewrite Hcs. apply in_or_app. right; left; reflexivity.
        -- exists [], rs. split; [reflexivity|]. intros r cc [].
    + specialize (IH res H).
      assert (Hrow : forall cc, 0 <= cc < 8 ->
                                cellAt b r cc <> Ok (Some (mkPiece c KING))).
      { intros cc Hcc. apply Hk. apply idx8_range. exact Hcc. }
      destruct res as [sq|].
      * destruct IH as (Hcell & Hcols & Hc & pre & post & Hrs & Hpre).
        split; [exact Hcell|]. split; [exact Hcols|]. split; [exact Hc|].
        exists (r :: pre), post. split; [rewrite Hrs; reflexivity|].
        intros r' cc [<-|Hr'] Hcc; [apply Hrow; exact Hcc|apply Hpre; assumption].
      * intros r' cc [<-|Hr'] Hcc; [apply Hrow; exact Hcc|apply IH; assumption].
Qed.

(** X16.  On a board of eight ranks of eight cells [findKing] returns a
    square that holds the king of the colour asked for, the first such
    square in the order of the scan (by rows, then by columns) when there
    are several; it returns [null] exactly when no square of the board
    holds that king. *)
Theorem findKing_spec : forall (b : Board) (c : Color),
    wfBoard b ->
    exists res,
      findKing b c = Ok res /\
      match res with
      | Some sq =>
          kingOf b c sq /\
          forall p, kingOf b c p -> p = sq \/ before sq p
      | None => forall p, ~ kingOf b c p
      end.
Proof.
  intros b c Hwf.
  pose proof (findKing_total b c Hwf) as Ht. apply total_Ok in Ht.
  destruct Ht as [res Hres]. exists res. split; [exact Hres|].
  unfold findKing in Hres. apply findKingRows_spec in Hres.
  destruct res as [sq|].
  - destruct Hres as (Hcell & Hcols & Hc & pre & post & Hrs & Hpre).
    assert (Hr : 0 <= row sq < 8).
    { apply idx8_range. rewrite Hrs. apply in_or_app. right; left; reflexivity. }
    split.
    + split; [apply inBounds_iff; lia|exact Hcell].
    + intros p [Hin Hp]. unfold inRange in Hin. apply inBounds_iff in Hin.
      unfold before.
      destruct (Z.lt_trichotomy (row p) (row sq)) as [Hlt|[Heq|Hgt]].
      * exfalso. apply (Hpre (row p) (col p)); [|lia|exact Hp].
        eapply idx8_prefix; eauto. lia.
      * destruct (Z.lt_trichotomy (col p) (col sq)) as [Hlt|[Heq2|Hgt]].
        -- exfalso. apply (Hcols (col p)); [lia|]. rewrite <- Heq. exact Hp.
        -- left. destruct p, sq; simpl in *; congruence.
        -- right. right. lia.
      * right. left. lia.
  - intros p [Hin Hp]. unfold inRange in Hin. apply inBounds_iff in Hin.
    apply (Hres (row p) (col p)); [apply idx8_range; lia|lia|exact Hp].
Qed.

Lemma findKing_spec_witness :
  exists res,
    findKing (board startState) BLACK = Ok res /\
    match res with
    | Some sq =>
        kingOf (board startState) BLACK sq /\
        forall p, kingOf (board startState) BLACK p -> p = sq \/ before sq p
    | None => forall p, ~ kingOf (board startState) BLACK p
    end.
Proof.
  apply (findKing_spec (board startState) BLACK). reflexivity.
Defined.

(** ** Material *)

Lemma nonKings_In : forall b c l,
    nonKings b c = Ok l ->
    forall x,
      In x l <->
      In (mRow x) idx8 /\ In (mCol x) idx8 /\
      exists pc, cellAt b (mRow x) (mCol x) = Ok (Some pc) /\
                 type pc = mType x /\ type pc <> KING /\ color pc = c.
Proof.
  intros b c l H x. unfold nonKings in H.
  rewrite (forEach_In _ _ _ _ _ H x). split.
  - intros (r & rowItems & Hr & Hrow & Hx).
    rewrite (forEach_In _ _ _ _ _ Hrow x) in Hx.
    destruct Hx as (cc & xs & Hcc & Hxs & Hx).
    apply bind_Ok in Hxs. destruct Hxs as [p [Hp Hxs]]. injection Hxs as <-.
    destruct p as [pc|]; [|contradiction].
    destruct (negb (type_eqb (type pc) KING) && color_eqb (color pc) c) eqn:E;
      [|contradiction].
    destruct Hx as [<-|[]]. cbn [mRow mCol mType].
    apply andb_true_iff in E. destruct E as [E1 E2].
    apply negb_true_iff in E1. apply color_eqb_eq in E2.
    split; [exact Hr|]. split; [exact Hcc|]. exists pc.
    split; [exact Hp|]. split; [reflexivity|]. split; [|exact E2].
    intros Hk. apply type_eqb_eq in Hk. congruence.
  - intros (Hr & Hcc & pc & Hp & Ht & Hk & Hc).
    destruct (forEach_each _ _ _ _ _ H _ Hr) as [rowItems Hrow].
    exists (mRow x), rowItems. split; [exact Hr|]. split; [exact Hrow|].
    rewrite (forEach_In _ _ _ _ _ Hrow x).
    exists (mCol x). rewrite Hp. cbn [bind].
    assert (E : negb (type_eqb (type pc) KING) && color_eqb (color pc) c = true).
    { apply andb_true_iff. split.
      - apply negb_true_iff. destruct (type_eqb (type pc) KING) eqn:E; auto.
        apply type_eqb_eq in E. contradiction.
      - apply color_eqb_eq. exact Hc. }
    rewrite E. eexists. split; [exact Hcc|]. split; [reflexivity|].
    left. rewrite Ht. destruct x; reflexivity.
Qed.

(** X17.  On a board of eight ranks of eight cells that holds a pawn, a
    rook or a queen, of either colour, [isInsufficientMaterial] returns
    [false]. *)
Theorem isInsufficientMaterial_heavy : forall (b : Board) (r cc : Z) (pc : Piece),
    wfBoard b ->
    cellAt b r cc = Ok (Some pc) ->
    type pc = PAWN \/ type pc = ROOK \/ type pc = QUEEN ->
    isInsufficientMaterial b = Ok false.
Proof.
  intros b r cc pc Hwf Hpc Hk.
  pose proof (cellAt_Some_inb _ _ _ _ Hwf Hpc) as Hin.
  apply inBounds_iff in Hin. destruct Hin as [Hr Hc].
  apply idx8_range in Hr, Hc.
  unfold isInsufficientMaterial.
  pose proof (nonKings_total b WHITE Hwf) as Hw. apply total_Ok in Hw.
  destruct Hw as [wp Hwp].
  pose proof (nonKings_total b BLACK Hwf) as Hb. apply total_Ok in Hb.
  destruct Hb as [bp Hbp].
  rewrite Hwp, Hbp. cbn [bind]. f_equal.
  assert (Hx : In (mkMaterial (type pc) r cc)
                  (match color pc with WHITE => wp | BLACK => bp end)).
  { assert (Hgen : forall c l, nonKings b c = Ok l -> color pc = c ->
                               In (mkMaterial (type pc) r cc) l).
    { intros c l Hl Hcol. apply (nonKings_In b c l Hl). cbn [mRow mCol mType].
      split; [exact Hr|]. split; [exact Hc|]. exists pc.
      split; [exact Hpc|]. split; [reflexivity|]. split; [|exact Hcol].
      destruct Hk as [Hk|[Hk|Hk]]; rewrite Hk; discriminate. }
    destruct (color pc) eqn:Ec; eapply Hgen; eauto. }
  assert (Hheavy : forall y, y = mkMaterial (type pc) r cc ->
                             minor (mType y) = false /\
                             type_eqb (mType y) BISHOP = false).
  { intros y ->. cbn [mType].
    destruct Hk as [Hk|[Hk|Hk]]; rewrite Hk; split; reflexivity. }
  destruct (color pc).
  - destruct wp as [|x [|x' wp]]; [contradiction| |].
    + destruct Hx as [Hx|[]]. destruct (Hheavy x Hx) as [H1 H2].
      destruct bp as [|y [|y' bp]]; [exact H1| |reflexivity].
      rewrite H2. reflexivity.
    + destruct bp as [|y [|y' bp]]; reflexivity.
  - destruct bp as [|y [|y' bp]]; [contradiction| |].
    + destruct Hx as [Hx|[]]. destruct (Hheavy y Hx) as [H1 H2].
      destruct wp as [|x [|x' wp]]; [exact H1| |reflexivity].
      rewrite H2, andb_false_r. reflexivity.
    + destruct wp as [|x [|x' wp]]; reflexivity.
Qed.

Lemma isInsufficientMaterial_heavy_witness :
  isInsufficientMaterial (board (fromFEN rookEndingFEN)) = Ok false.
Proof.
  apply (isInsufficientMaterial_heavy (board (fromFEN rookEndingFEN)) 7 0
                                      (mkPiece WHITE ROOK));
    [reflexivity | vm_compute; reflexivity | right; left; reflexivity].
Defined.

(** * Move ordering *)

Lemma insertByScore_perm : forall x l, Permutation (x :: l) (insertByScore x l).
Proof.
  intros x l; induction l as [|y l IH]; simpl.
  - apply Permutation_refl.
  - destruct (fst x <? fst y).
    + eapply Permutation_trans; [apply perm_swap|]. apply perm_skip. exact IH.
    + apply Permutation_refl.
Qed.

Lemma sortByScore_perm : forall l, Permutation l (sortByScore l).
Proof.
  induction l as [|x l IH]; simpl.
  - apply Permutation_refl.
  - eapply Permutation_trans; [apply perm_skip; exact IH|].
    apply insertByScore_perm.
Qed.

Lemma insertByScore_sorted : forall x l,
    StronglySorted (fun a b : Z * Move => fst b <= fst a) l ->
    StronglySorted (fun a b : Z * Move => fst b <= fst a) (insertByScore x l).
Proof.
  intros x l; induction l as [|y l IH]; intros Hs; simpl.
  - repeat constructor.
  - inversion Hs as [|y' l' Hs' Hall]; subst.
    destruct (Z.ltb_spec (fst x) (fst y)) as [Hlt|Hge].
    + constructor; [apply IH; exact Hs'|].
      apply Forall_forall. intros z Hz. apply insertByScore_In in Hz.
      destruct Hz as [->|Hz]; [lia|].
      rewrite Forall_forall in Hall. apply Hall; exact Hz.
    + constructor; [exact Hs|].
      constructor; [lia|].
      rewrite Forall_forall in Hall. apply Forall_forall. intros z Hz.
      specialize (Hall z Hz). simpl in Hall. lia.
Qed.

Lemma sortByScore_sorted : forall l,
    StronglySorted (fun a b : Z * Move => fst b <= fst a) (sortByScore l).
Proof.
  induction l as [|x l IH]; simpl; [constructor|].
  apply insertByScore_sorted; exact IH.
Qed.

Lemma scoreAll_scores : forall state moves sc,
    scoreAll state moves = Ok sc ->
    map snd sc = moves /\
    Forall (fun p : Z * Move => fst p = scoreOf state (snd p)) sc.
Proof.
  intros state moves; induction moves as [|m moves IH]; intros sc H;
    cbn [scoreAll] in H.
  - injection H as <-. split; [reflexivity|constructor].
  - apply bind_Ok in H. destruct H as [s [Hs H]].
    apply bind_Ok in H. destruct H as [rest [Hrest H]]. injection H as <-.
    destruct (IH rest Hrest) as [Hm Hall]. split.
    + simpl. rewrite Hm. reflexivity.
    + constructor; [|exact Hall]. simpl. unfold scoreOf. rewrite Hs. reflexivity.
Qed.

Lemma sorted_map_snd : forall state (l : list (Z * Move)),
    Forall (fun p : Z * Move => fst p = scoreOf state (snd p)) l ->
    StronglySorted (fun a b : Z * Move => fst b <= fst a) l ->
    StronglySorted (byScore state) (map snd l).
Proof.
  intros state l; induction l as [|p l IH]; intros Hall Hs; simpl; [constructor|].
  inversion Hall as [|p' l' Hp Hall']; subst.
  inversion Hs as [|p' l' Hs' Hhd]; subst.
  constructor; [apply IH; assumption|].
  apply Forall_forall. intros m Hm. apply in_map_iff in Hm.
  destruct Hm as [q [<- Hq]].
  rewrite Forall_forall in Hhd, Hall'. unfold byScore.
  rewrite <- Hp, <- (Hall' q Hq). apply Hhd; exact Hq.
Qed.

(** X18.  On a board of eight ranks of eight cells, for moves that start
    on a piece and stay on the board, [orderMoves] returns a rearrangement
    of the moves it is given (every move as many times as before) in
    which no move stands before a move of greater score. *)
Theorem orderMoves_sorted : forall (state : GameState) (c : Color)
                                   (moves : list Move),
    wfBoard (board state) ->
    (forall m, In m moves -> fromPiece (board state) c m) ->
    exists out,
      orderMoves state moves = Ok out /\
      Permutation moves out /\
      StronglySorted (byScore state) out.
Proof.
  intros state c moves Hwf Hfrom.
  pose proof (orderMoves_spec state c moves Hwf Hfrom) as Hret.
  destruct (orderMoves state moves) as [out| | |] eqn:E; simpl in Hret;
    try contradiction.
  clear Hret. exists out. split; [reflexivity|].
  unfold orderMoves in E.
  destruct moves as [|m1 [|m2 moves]].
  - injection E as <-. split; [apply Permutation_refl|constructor].
  - injection E as <-. split; [apply Permutation_refl|].
    repeat constructor.
  - apply bind_Ok in E. destruct E as [sc [Hsc E]]. injection E as <-.
    destruct (scoreAll_scores _ _ _ Hsc) as [Hm Hall]. split.
    + rewrite <- Hm. apply Permutation_map. apply sortByScore_perm.
    + apply sorted_map_snd; [|apply sortByScore_sorted].
      apply Forall_forall. intros p Hp.
      rewrite Forall_forall in Hall. apply Hall.
      apply sortByScore_In. exact Hp.
Qed.

Lemma orderMoves_sorted_witness :
  exists out,
    orderMoves (fromFEN queenHangsFEN) [quietPush; takeQueen] = Ok out /\
    Permutation [quietPush; takeQueen] out /\
    StronglySorted (byScore (fromFEN queenHangsFEN)) out.
Proof.
  apply (orderMoves_sorted (fromFEN queenHangsFEN) WHITE [quietPush; takeQueen]).
  - reflexivity.
  - intros m [<-|[<-|[]]];
      (split; [reflexivity|]); (split; [reflexivity|]);
      exists (mkPiece WHITE PAWN); split; reflexivity.
Defined.

(** * Attack detection against the rules of movement *)

Lemma anyR_true_iff : forall (A : Type) (f : A -> Res bool) (l : list A) (x : bool),
    anyR f l = Ok x ->
    (x = true <-> exists e, In e l /\ f e = Ok true).
Proof.
  intros A f l; induction l as [|a l IH]; simpl; intros x H.
  - injection H as <-. split; [discriminate|intros (e & [] & _)].
  - apply bind_Ok in H. destruct H as [b [Hb H]]. destruct b.
    + injection H as <-. split; [|reflexivity]. intros _. exists a. auto.
    + rewrite (IH _ H). split.
      * intros (e & He & Hf). exists e. auto.
      * intros (e & [<-|He] & Hf); [congruence|]. exists e. auto.
Qed.

Lemma holds_true_iff : forall b r c byColor k,
    holds b r c byColor k = Ok true <->
    inBounds r c = true /\
    exists pc, cellAt b r c = Ok (Some pc) /\ color pc = byColor /\ type pc = k.
Proof.
  intros b r c byColor k. unfold holds, andR. cbn [bind]. split.
  - intros H. destruct (inBounds r c); [|discriminate]. split; [reflexivity|].
    apply bind_Ok in H. destruct H as [t [Ht H]].
    destruct t as [pc|]; [|discriminate]. injection H as H.
    apply andb_true_iff in H. destruct H as [H1 H2].
    apply color_eqb_eq in H1. apply type_eqb_eq in H2. exists pc. auto.
  - intros [Hin (pc & Hpc & Hc & Hk)]. rewrite Hin, Hpc. cbn [bind].
    f_equal. apply andb_true_iff. split.
    + apply color_eqb_eq; exact Hc.
    + apply type_eqb_eq; exact Hk.
Qed.

(** What one direction of the sliding checks answers: [true] exactly when
    the first occupied square of the line holds a piece of the colour and
    of one of the two kinds. *)
Lemma attackRay_true_iff : forall b byColor k1 k2 dr dc,
    -1 <= dr <= 1 -> -1 <= dc <= 1 ->
    forall fuel r0 c0,
      inBounds (r0 - dr) (c0 - dc) = true ->
      (inBounds r0 c0 = true ->
       inBounds (r0 + Z.of_nat fuel * dr) (c0 + Z.of_nat fuel * dc) = false) ->
      (attackRay fuel b byColor k1 k2 dr dc r0 c0 = Ok true <->
       exists k, 0 <= k /\
                 inBounds (r0 + k * dr) (c0 + k * dc) = true /\
                 (forall j, 0 <= j < k ->
                            cellAt b (r0 + j * dr) (c0 + j * dc) = Ok None) /\
                 exists pc, cellAt b (r0 + k * dr) (c0 + k * dc) = Ok (Some pc) /\
                            color pc = byColor /\
                            (type pc = k1 \/ type pc = k2)).
Proof.
  intros b byColor k1 k2 dr dc Hdr Hdc fuel.
  assert (Hstart : forall r0 c0 k,
             inBounds (r0 - dr) (c0 - dc) = true -> 0 <= k ->
             inBounds (r0 + k * dr) (c0 + k * dc) = true ->
             inBounds r0 c0 = true).
  { intros r0 c0 k Hp Hk Hin.
    pose proof (between_inb r0 c0 dr dc 0 k Hdr Hdc ltac:(lia) Hp Hin) as H0.
    rewrite !Z.mul_0_l, !Z.add_0_r in H0. exact H0. }
  induction fuel as [|fuel IH]; intros r0 c0 Hp Hfuel.
  - simpl. destruct (inBounds r0 c0) eqn:E.
    + specialize (Hfuel eq_refl). simpl in Hfuel.
      rewrite !Z.add_0_r in Hfuel. congruence.
    + simpl. split; [discriminate|].
      intros (k & Hk & Hin & _). rewrite (Hstart r0 c0 k Hp Hk Hin) in E.
      discriminate.
  - cbn [attackRay]. destruct (inBounds r0 c0) eqn:E; cbn [negb].
    2:{ split; [discriminate|].
        intros (k & Hk & Hin & _). rewrite (Hstart r0 c0 k Hp Hk Hin) in E.
        discriminate. }
    assert (Hp' : inBounds (r0 + dr - dr) (c0 + dc - dc) = true).
    { replace (r0 + dr - dr) with r0 by lia.
      replace (c0 + dc - dc) with c0 by lia. exact E. }
    assert (Hfuel' : inBounds (r0 + dr) (c0 + dc) = true ->
                     inBounds (r0 + dr + Z.of_nat fuel * dr)
                              (c0 + dc + Z.of_nat fuel * dc) = false).
    { intros _. specialize (Hfuel eq_refl).
      replace (r0 + dr + Z.of_nat fuel * dr) with (r0 + Z.of_nat (S fuel) * dr) by lia.
      replace (c0 + dc + Z.of_nat fuel * dc) with (c0 + Z.of_nat (S fuel) * dc) by lia.
      exact Hfuel. }
    specialize (IH _ _ Hp' Hfuel'). split.
    + intros H. apply bind_Ok in H. destruct H as [p [Hcell H]].
      destruct p as [pc|].
      * injection H as H. apply andb_true_iff in H. destruct H as [H1 H2].
        apply color_eqb_eq in H1. apply orb_true_iff in H2.
        exists 0. rewrite !Z.mul_0_l, !Z.add_0_r. split; [lia|].
        split; [exact E|]. split; [intros j Hj; lia|].
        exists pc. split; [exact Hcell|]. split; [exact H1|].
        destruct H2 as [H2|H2]; apply type_eqb_eq in H2; auto.
      * apply IH in H. destruct H as (k & Hk & Hin & Hpath & pc & Hpc & Hc & Ht).
        exists (k + 1). split; [lia|].
        replace (r0 + (k + 1) * dr) with (r0 + dr + k * dr) by lia.
        replace (c0 + (k + 1) * dc) with (c0 + dc + k * dc) by lia.
        split; [exact Hin|]. split.
        -- intros j Hj. destruct (Z.eq_dec j 0) as [->|Hj0].
           ++ rewrite !Z.mul_0_l, !Z.add_0_r. exact Hcell.
           ++ specialize (Hpath (j - 1) ltac:(lia)).
              replace (r0 + dr + (j - 1) * dr) with (r0 + j * dr) in Hpath by lia.
              replace (c0 + dc + (j - 1) * dc) with (c0 + j * dc) in Hpath by lia.
              exact Hpath.
        -- exists pc. auto.
    + intros (k & Hk & Hin & Hpath & pc & Hpc & Hc & Ht).
      destruct (Z.eq_dec k 0) as [->|Hk0].
      * rewrite !Z.mul_0_l, !Z.add_0_r in Hpc. rewrite Hpc. cbn [bind].
        f_equal. apply andb_true_iff. split; [apply color_eqb_eq; exact Hc|].
        apply orb_true_iff. destruct Ht as [Ht|Ht]; [left|right];
          apply type_eqb_eq; exact Ht.
      * pose proof (Hpath 0 ltac:(lia)) as H0.
        rewrite !Z.mul_0_l, !Z.add_0_r in H0. rewrite H0. cbn [bind].
        apply IH. exists (k - 1). split; [lia|].
        replace (r0 + dr + (k - 1) * dr) with (r0 + k * dr) by lia.
        replace (c0 + dc + (k - 1) * dc) with (c0 + k * dc) by lia.
        split; [exact Hin|]. split.
        -- intros j Hj. specialize (Hpath (j + 1) ltac:(lia)).
           replace (r0 + (j + 1) * dr) with (r0 + dr + j * dr) in Hpath by lia.
           replace (c0 + (j + 1) * dc) with (c0 + dc + j * dc) in Hpath by lia.
           exact Hpath.
        -- exists pc. auto.
Qed.

(** The sliding checks of [isSquareAttacked] in the directions [dirs]:
    some piece of the colour and of one of the two kinds stands on a line
    from the square, with only empty squares between. *)
Lemma attackRays_true_iff : forall b byColor k1 k2 r c dirs x,
    wfBoard b -> inBounds r c = true -> Forall unitDir dirs ->
    anyR (fun d : Z * Z =>
            attackRay 8 b byColor k1 k2 (fst d) (snd d)
                      (r + fst d) (c + snd d)) dirs = Ok x ->
    (x = true <->
     exists a pc, cellAt b (row a) (col a) = Ok (Some pc) /\
                  color pc = byColor /\ (type pc = k1 \/ type pc = k2) /\
                  reaches b dirs a r c).
Proof.
  intros b byColor k1 k2 r c dirs x Hwf Hin Hd H.
  rewrite (anyR_true_iff _ _ _ _ H). rewrite Forall_forall in Hd.
  assert (Hray : forall d,
             In d dirs ->
             attackRay 8 b byColor k1 k2 (fst d) (snd d) (r + fst d) (c + snd d)
             = Ok true <->
             exists k, 0 <= k /\
               inBounds (r + fst d + k * fst d) (c + snd d + k * snd d) = true /\
               (forall j, 0 <= j < k ->
                          cellAt b (r + fst d + j * fst d) (c + snd d + j * snd d)
                          = Ok None) /\
               exists pc, cellAt b (r + fst d + k * fst d) (c + snd d + k * snd d)
                          = Ok (Some pc) /\
                          color pc = byColor /\ (type pc = k1 \/ type pc = k2)).
  { intros d Hdin. destruct (Hd _ Hdin) as [H1 [H2 H3]].
    apply (attackRay_true_iff b byColor k1 k2 (fst d) (snd d) H1 H2 8).
    - replace (r + fst d - fst d) with r by lia.
      replace (c + snd d - snd d) with c by lia. exact Hin.
    - intros E. apply inBounds_false_iff. apply inBounds_iff in E.
      apply inBounds_iff in Hin. lia. }
  unfold reaches, clearBetween. cbn [row col]. split.
  - intros (d & Hdin & Hatt). apply (Hray d Hdin) in Hatt.
    destruct Hatt as (k & Hk & _ & Hpath & pc & Hpc & Hc & Ht).
    exists (mkSquare (r + fst d + k * fst d) (c + snd d + k * snd d)), pc.
    cbn [row col]. split; [exact Hpc|]. split; [exact Hc|]. split; [exact Ht|].
    exists d, (k + 1). split; [exact Hdin|]. split; [lia|].
    split; [lia|]. split; [lia|].
    intros j Hj. specialize (Hpath (j - 1) ltac:(lia)).
    replace (r + fst d + (j - 1) * fst d) with (r + j * fst d) in Hpath by lia.
    replace (c + snd d + (j - 1) * snd d) with (c + j * snd d) in Hpath by lia.
    exact Hpath.
  - intros (a & pc & Hpc & Hc & Ht & d & k & Hdin & Hk & Hr & Hcol & Hpath).
    exists d. split; [exact Hdin|]. apply (Hray d Hdin).
    exists (k - 1). split; [lia|].
    replace (r + fst d + (k - 1) * fst d) with (row a) by lia.
    replace (c + snd d + (k - 1) * snd d) with (col a) by lia.
    split; [apply (cellAt_Some_inb _ _ _ _ Hwf Hpc)|]. split.
    + intros j Hj. specialize (Hpath (j + 1) ltac:(lia)).
      replace (r + (j + 1) * fst d) with (r + fst d + j * fst d) in Hpath by lia.
      replace (c + (j + 1) * snd d) with (c + snd d + j * snd d) in Hpath by lia.
      exact Hpath.
    + exists pc. auto.
Qed.

Lemma orR_Ok : forall x (m : Res bool), orR (Ok x) m = if x then Ok true else m.
Proof. reflexivity. Qed.

Lemma reaches_queen : forall b a r c,
    reaches b queenDirs a r c <->
    reaches b diagDirs a r c \/ reaches b straightDirs a r c.
Proof.
  intros b a r c. unfold reaches. split.
  - intros (d & k & Hd & H).
    assert (Hd' : In d diagDirs \/ In d straightDirs).
    { unfold queenDirs, diagDirs, straightDirs in *. simpl in *. tauto. }
    destruct Hd' as [Hd'|Hd']; [left|right]; exists d, k; auto.
  - intros [(d & k & Hd & H)|(d & k & Hd & H)]; exists d, k;
      (split; [|exact H]);
      unfold queenDirs, diagDirs, straightDirs in *; simpl in *; tauto.
Qed.

(** X19.  On a board of eight ranks of eight cells and for a square of
    the board, [isSquareAttacked] answers [true] exactly when some piece
    of the colour asked for attacks the square: a knight at a knight's
    jump, a king on an adjacent square, a pawn on an adjacent column of
    the next row on its own side, or a bishop, rook or queen on one of
    its lines with only empty squares between. *)
Theorem isSquareAttacked_iff : forall (b : Board) (r c : Z) (byColor : Color),
    wfBoard b -> inBounds r c = true ->
    (isSquareAttacked b r c byColor = Ok true <-> attackedBy b r c byColor).
Proof.
  intros b r c byColor Hwf Hin. unfold isSquareAttacked.
  assert (Hh : forall (A : Type) (f : A -> Z * Z) k (l : list A),
             exists x,
               anyR (fun d => holds b (fst (f d)) (snd (f d)) byColor k) l = Ok x /\
               (x = true <->
                exists e pc, In e l /\
                             cellAt b (fst (f e)) (snd (f e)) = Ok (Some pc) /\
                             color pc = byColor /\ type pc = k)).
  { intros A f k l.
    assert (Ht : total (anyR (fun d => holds b (fst (f d)) (snd (f d)) byColor k) l)).
    { apply returns_anyR; intros; apply holds_total; assumption. }
    apply total_Ok in Ht. destruct Ht as [x Hx]. exists x. split; [exact Hx|].
    rewrite (anyR_true_iff _ _ _ _ Hx). split.
    - intros (e & He & Hhold). apply holds_true_iff in Hhold.
      destruct Hhold as [_ (pc & Hpc & Hc & Hk)]. exists e, pc. auto.
    - intros (e & pc & He & Hpc & Hc & Hk). exists e. split; [exact He|].
      apply holds_true_iff. split; [apply (cellAt_Some_inb _ _ _ _ Hwf Hpc)|].
      exists pc. auto. }
  destruct (Hh _ (fun d : Z * Z => (r + fst d, c + snd d)) KNIGHT knightOffsets)
    as (x1 & E1 & H1).
  destruct (Hh _ (fun d : Z * Z => (r + fst d, c + snd d)) KING kingOffsets)
    as (x2 & E2 & H2).
  destruct (Hh _ (fun dc : Z => (r + match byColor with WHITE => 1 | BLACK => -1 end,
                                 c + dc)) PAWN [-1; 1])
    as (x3 & E3 & H3).
  clear Hh. cbn [fst snd] in E1, E2, E3, H1, H2, H3.
  pose proof (attackRays_total b byColor BISHOP QUEEN r c diagDirs Hwf unitDir_diag)
    as T4.
  apply total_Ok in T4. destruct T4 as [x4 E4].
  pose proof (attackRays_total b byColor ROOK QUEEN r c straightDirs Hwf
                               unitDir_straight) as T5.
  apply total_Ok in T5. destruct T5 as [x5 E5].
  pose proof (attackRays_true_iff b byColor BISHOP QUEEN r c diagDirs x4
                                  Hwf Hin unitDir_diag E4) as H4.
  pose proof (attackRays_true_iff b byColor ROOK QUEEN r c straightDirs x5
                                  Hwf Hin unitDir_straight E5) as H5.
  rewrite E1, orR_Ok, E2, orR_Ok. cbv zeta. rewrite E3, orR_Ok, E4, orR_Ok, E5.
  assert (Hres : (if x1 then Ok true
                  else if x2 then Ok true
                       else if x3 then Ok true
                            else if x4 then Ok true else Ok x5) = Ok true <->
                 x1 = true \/ x2 = true \/ x3 = true \/ x4 = true \/ x5 = true).
  { destruct x1, x2, x3, x4, x5; split; intros H; auto 10;
      try discriminate;
      repeat (destruct H as [H|H]; try discriminate). }
  rewrite Hres. clear Hres. unfold attackedBy, attacks. split.
  - intros [Hx|[Hx|[Hx|[Hx|Hx]]]].
    + apply H1 in Hx. destruct Hx as (d & pc & Hd & Hpc & Hc & Hk).
      exists (mkSquare (r + fst d) (c + snd d)), pc. cbn [row col].
      split; [exact Hpc|]. split; [exact Hc|]. rewrite Hk.
      replace (r + fst d - r) with (fst d) by lia.
      replace (c + snd d - c) with (snd d) by lia. destruct d; exact Hd.
    + apply H2 in Hx. destruct Hx as (d & pc & Hd & Hpc & Hc & Hk).
      exists (mkSquare (r + fst d) (c + snd d)), pc. cbn [row col].
      split; [exact Hpc|]. split; [exact Hc|]. rewrite Hk.
      replace (r + fst d - r) with (fst d) by lia.
      replace (c + snd d - c) with (snd d) by lia. destruct d; exact Hd.
    + apply H3 in Hx. destruct Hx as (dc & pc & Hd & Hpc & Hc & Hk).
      exists (mkSquare (r + match byColor with WHITE => 1 | BLACK => -1 end) (c + dc)),
        pc. cbn [row col].
      split; [exact Hpc|]. split; [exact Hc|]. rewrite Hk, Hc.
      split; [destruct byColor; simpl; lia|]. simpl in Hd. lia.
    + apply H4 in Hx. destruct Hx as (a & pc & Hpc & Hc & Hk & Hreach).
      exists a, pc. split; [exact Hpc|]. split; [exact Hc|].
      destruct Hk as [Hk|Hk]; rewrite Hk; [exact Hreach|].
      apply reaches_queen. left; exact Hreach.
    + apply H5 in Hx. destruct Hx as (a & pc & Hpc & Hc & Hk & Hreach).
      exists a, pc. split; [exact Hpc|]. split; [exact Hc|].
      destruct Hk as [Hk|Hk]; rewrite Hk; [exact Hreach|].
      apply reaches_queen. right; exact Hreach.
  - intros (a & pc & Hpc & Hc & Hatt).
    assert (Ha : r + (row a - r) = row a /\ c + (col a - c) = col a) by lia.
    destruct Ha as [Ha1 Ha2].
    destruct (type pc) eqn:Ek.
    + right; right; left. apply H3.
      destruct Hatt as [Hr Hcol]. exists (col a - c), pc.
      split; [simpl; lia|]. rewrite Ha2.
      replace (r + match byColor with WHITE => 1 | BLACK => -1 end) with (row a)
        by (rewrite Hr, Hc; destruct byColor; simpl; lia).
      auto.
    + left. apply H1. exists (row a - r, col a - c), pc. cbn [fst snd].
      rewrite Ha1, Ha2. auto.
    + right; right; right; left. apply H4. exists a, pc. auto.
    + right; right; right; right. apply H5. exists a, pc. auto.
    + apply reaches_queen in Hatt. destruct Hatt as [Hatt|Hatt].
      * right; right; right; left. apply H4. exists a, pc. auto.
      * right; right; right; right. apply H5. exists a, pc. auto.
    + right; left. apply H2. exists (row a - r, col a - c), pc. cbn [fst snd].
      rewrite Ha1, Ha2. auto.
Qed.

Lemma isSquareAttacked_iff_witness :
  isSquareAttacked (board mated) 0 6 WHITE = Ok true <->
  attackedBy (board mated) 0 6 WHITE.
Proof.
  apply (isSquareAttacked_iff (board mated) 0 6 WHITE); vm_compute; reflexivity.
Defined.

(** * FEN: parsing what was serialized *)

(** ** Splitting a string whose fields do not hold the separator *)

Lemma includes_app : forall a b ch,
    includes (a ++ b) ch = includes a ch || includes b ch.
Proof.
  induction a as [|x a IH]; intros b ch; simpl; [reflexivity|].
  rewrite IH. apply orb_assoc.
Qed.

Lemma split_single : forall sep s,
    includes s sep = false -> split sep s = [s].
Proof.
  intros sep s; induction s as [|ch s IH]; intros H; simpl in *; [reflexivity|].
  apply orb_false_iff in H. destruct H as [H1 H2].
  rewrite H1, (IH H2). reflexivity.
Qed.

Lemma split_app : forall sep a b,
    includes a sep = false ->
    split sep (a ++ String sep b) = a :: split sep b.
Proof.
  intros sep a b; induction a as [|ch a IH]; intros H; simpl in *.
  - rewrite Ascii.eqb_refl. reflexivity.
  - apply orb_false_iff in H. destruct H as [H1 H2].
    rewrite H1, (IH H2). reflexivity.
Qed.

(** ** One rank *)

Lemma flushEmpty_cases : forall e,
    1 <= e <= 9 ->
    exists d, flushEmpty e = String d EmptyString /\
              isDigit d = true /\ digitVal d = e.
Proof.
  intros e He.
  assert (H : e = 1 \/ e = 2 \/ e = 3 \/ e = 4 \/ e = 5 \/ e = 6 \/ e = 7 \/
              e = 8 \/ e = 9) by lia.
  repeat (destruct H as [->|H]; [eexists; repeat split; reflexivity|]).
  subst e. eexists; repeat split; reflexivity.
Qed.

Lemma pieceChar_cases : forall pc,
    exists ch, pieceChar pc = String ch EmptyString /\
               isDigit ch = false /\ pieceOfChar ch = Ok pc /\
               Ascii.eqb ch "/" = false /\ Ascii.eqb ch " " = false.
Proof.
  intros [[|] []]; eexists; repeat split; reflexivity.
Qed.

Lemma repeat_snoc : forall (A : Type) (x : A) n, repeat x n ++ [x] = x :: repeat x n.
Proof.
  intros A x n; induction n as [|n IH]; simpl; [reflexivity|].
  rewrite IH. reflexivity.
Qed.

(** Parsing the characters the serializer writes for a list of cells gives
    the cells back, after the empty cells counted so far. *)
Lemma parseRow_renderCells : forall cs e,
    0 <= e -> e + Z.of_nat (List.length cs) <= 9 ->
    parseRow (renderCells cs e) = Ok (repeat (None : Cell) (Z.to_nat e) ++ cs).
Proof.
  induction cs as [|cell cs IH]; intros e He Hlen.
  - cbn [renderCells]. rewrite List.app_nil_r. unfold flushEmpty.
    destruct (Z.ltb_spec 0 e) as [Hpos|Hz].
    + destruct (flushEmpty_cases e ltac:(simpl in Hlen; lia)) as (d & Hd & Hdig & Hval).
      unfold flushEmpty in Hd. destruct (Z.ltb_spec 0 e); [|lia].
      rewrite Hd. cbn [parseRow]. rewrite Hdig, Hval. cbn [bind].
      rewrite List.app_nil_r. reflexivity.
    + replace e with 0 by lia. reflexivity.
  - cbn [List.length] in Hlen. destruct cell as [pc|]; cbn [renderCells].
    + destruct (pieceChar_cases pc) as (ch & Hch & Hnd & Hpc & _).
      rewrite Hch. unfold flushEmpty.
      destruct (Z.ltb_spec 0 e) as [Hpos|Hz].
      * destruct (flushEmpty_cases e ltac:(lia)) as (d & Hd & Hdig & Hval).
        unfold flushEmpty in Hd. destruct (Z.ltb_spec 0 e); [|lia].
        rewrite Hd. cbn [append parseRow]. rewrite Hdig, Hval, Hnd, Hpc.
        cbn [bind]. rewrite (IH 0) by lia. cbn [bind Z.to_nat repeat app].
        reflexivity.
      * replace e with 0 by lia. cbn [append parseRow]. rewrite Hnd, Hpc.
        cbn [bind]. rewrite (IH 0) by lia. reflexivity.
    + rewrite (IH (e + 1)) by lia. f_equal.
      replace (Z.to_nat (e + 1)) with (S (Z.to_nat e)) by lia.
      change (None :: cs) with ([None] ++ cs). rewrite List.app_assoc.
      rewrite (repeat_snoc _ (None : Cell)). reflexivity.
Qed.

Lemma renderCells_clean : forall cs e,
    0 <= e -> e + Z.of_nat (List.length cs) <= 9 ->
    includes (renderCells cs e) "/" = false /\
    includes (renderCells cs e) " " = false.
Proof.
  induction cs as [|cell cs IH]; intros e He Hlen.
  - cbn [renderCells]. unfold flushEmpty.
    destruct (Z.ltb_spec 0 e) as [Hpos|Hz]; [|split; reflexivity].
    destruct (flushEmpty_cases e ltac:(simpl in Hlen; lia)) as (d & Hd & Hdig & _).
    unfold flushEmpty in Hd. destruct (Z.ltb_spec 0 e); [|lia]. rewrite Hd.
    apply isDigit_cases in Hdig. each_char Hdig; split; reflexivity.
  - cbn [List.length] in Hlen. destruct cell as [pc|]; cbn [renderCells].
    + destruct (pieceChar_cases pc) as (ch & Hch & _ & _ & Hs & Hsp).
      destruct (IH 0 ltac:(lia) ltac:(lia)) as [I1 I2].
      assert (Hflush : includes (flushEmpty e) "/" = false /\
                       includes (flushEmpty e) " " = false).
      { unfold flushEmpty. destruct (Z.ltb_spec 0 e) as [Hpos|Hz]; [|split; reflexivity].
        destruct (flushEmpty_cases e ltac:(lia)) as (d & Hd & Hdig & _).
        unfold flushEmpty in Hd. destruct (Z.ltb_spec 0 e); [|lia]. rewrite Hd.
        apply isDigit_cases in Hdig. each_char Hdig; split; reflexivity. }
      destruct Hflush as [F1 F2].
      rewrite !includes_app, Hch, F1, F2, I1, I2. cbn [includes].
      rewrite Hs, Hsp. split; reflexivity.
    + apply IH; lia.
Qed.

(** ** The board *)

Lemma wfBoard_eight : forall b,
    wfBoard b ->
    exists r0 r1 r2 r3 r4 r5 r6 r7,
      b = [r0; r1; r2; r3; r4; r5; r6; r7] /\
      Forall (fun rw : list Cell => List.length rw = 8%nat)
             [r0; r1; r2; r3; r4; r5; r6; r7].
Proof.
  intros b H. pose proof (wfBoard_length _ H) as Hlen.
  destruct b as [|r0 [|r1 [|r2 [|r3 [|r4 [|r5 [|r6 [|r7 [|r8 b]]]]]]]]];
    try discriminate.
  exists r0, r1, r2, r3, r4, r5, r6, r7. split; [reflexivity|].
  apply Forall_forall. intros rw Hin. eapply wfBoard_rows; eauto.
Qed.

Lemma fenRows_eight : forall r0 r1 r2 r3 r4 r5 r6 r7 : list Cell,
    Forall (fun rw : list Cell => List.length rw = 8%nat)
           [r0; r1; r2; r3; r4; r5; r6; r7] ->
    fenRows [r0; r1; r2; r3; r4; r5; r6; r7] idx8 =
    Ok (renderCells r0 0 ++ String "/"
       (renderCells r1 0 ++ String "/"
       (renderCells r2 0 ++ String "/"
       (renderCells r3 0 ++ String "/"
       (renderCells r4 0 ++ String "/"
       (renderCells r5 0 ++ String "/"
       (renderCells r6 0 ++ String "/"
       (renderCells r7 0))))))))%string.
Proof.
  intros r0 r1 r2 r3 r4 r5 r6 r7 H. rewrite Forall_forall in H.
  cbn [fenRows idx8].
  rewrite (fenRow_full _ 0 r0), (fenRow_full _ 1 r1), (fenRow_full _ 2 r2),
    (fenRow_full _ 3 r3), (fenRow_full _ 4 r4), (fenRow_full _ 5 r5),
    (fenRow_full _ 6 r6), (fenRow_full _ 7 r7)
    by (reflexivity || (apply H; simpl; tauto)).
  cbn [bind]. simpl. rewrite append_nil_r. reflexivity.
Qed.

Lemma split_eight : forall s0 s1 s2 s3 s4 s5 s6 s7 : string,
    Forall (fun s => includes s "/" = false) [s0; s1; s2; s3; s4; s5; s6; s7] ->
    split "/" (s0 ++ String "/" (s1 ++ String "/" (s2 ++ String "/"
              (s3 ++ String "/" (s4 ++ String "/" (s5 ++ String "/"
              (s6 ++ String "/" s7)))))))
    = [s0; s1; s2; s3; s4; s5; s6; s7].
Proof.
  intros s0 s1 s2 s3 s4 s5 s6 s7 H. rewrite Forall_forall in H.
  rewrite !split_app by (apply H; simpl; tauto).
  rewrite split_single by (apply H; simpl; tauto). reflexivity.
Qed.

Lemma split_six : forall p t c e h n : string,
    Forall (fun s => includes s " " = false) [p; t; c; e; h; n] ->
    split " " (p ++ String " " (t ++ String " " (c ++ String " "
              (e ++ String " " (h ++ String " " n)))))
    = [p; t; c; e; h; n].
Proof.
  intros p t c e h n H. rewrite Forall_forall in H.
  rewrite !split_app by (apply H; simpl; tauto).
  rewrite split_single by (apply H; simpl; tauto). reflexivity.
Qed.

Lemma forEach_ranks : forall (s0 s1 s2 s3 s4 s5 s6 s7 : string)
                             (c0 c1 c2 c3 c4 c5 c6 c7 : list Cell),
    parseRow s0 = Ok c0 -> parseRow s1 = Ok c1 -> parseRow s2 = Ok c2 ->
    parseRow s3 = Ok c3 -> parseRow s4 = Ok c4 -> parseRow s5 = Ok c5 ->
    parseRow s6 = Ok c6 -> parseRow s7 = Ok c7 ->
    forEach (fun r : Z =>
               match nth_error [s0; s1; s2; s3; s4; s5; s6; s7] (Z.to_nat r) with
               | None => TypeError
               | Some s => rw <- parseRow s ;; Ok [rw]
               end) idx8
    = Ok [c0; c1; c2; c3; c4; c5; c6; c7].
Proof.
  intros s0 s1 s2 s3 s4 s5 s6 s7 c0 c1 c2 c3 c4 c5 c6 c7 H0 H1 H2 H3 H4 H5 H6 H7.
  simpl. rewrite H0. simpl. rewrite H1. simpl. rewrite H2. simpl.
  rewrite H3. simpl. rewrite H4. simpl. rewrite H5. simpl. rewrite H6. simpl.
  rewrite H7. reflexivity.
Qed.

(** ** Numerals *)

Lemma uint_allDigits : forall d, allDigits (NilEmpty.string_of_uint d) = true.
Proof.
  induction d; cbn [NilEmpty.string_of_uint allDigits]; try reflexivity;
    rewrite IHd; reflexivity.
Qed.

Lemma numToString_pos : forall p,
    numToString (Z.pos p) = NilEmpty.string_of_uint (Pos.to_uint p).
Proof.
  intros p. unfold numToString. cbn [Z.to_int NilZero.string_of_int].
  unfold NilZero.string_of_uint.
  pose proof (DecimalPos.Unsigned.to_uint_nonnil p) as Hn.
  destruct (Pos.to_uint p); try reflexivity. contradiction Hn; reflexivity.
Qed.

Lemma numToString_value : forall n,
    0 <= n ->
    digitsValue 0 (numToString n) = n /\ allDigits (numToString n) = true /\
    numToString n <> EmptyString.
Proof.
  intros n Hn. destruct n as [|p|p]; [repeat split; discriminate| |lia].
  rewrite numToString_pos. split; [|split].
  - rewrite digitsValue_uint, DecimalPos.Unsigned.of_to. reflexivity.
  - apply uint_allDigits.
  - pose proof (DecimalPos.Unsigned.to_uint_nonnil p) as Hnil.
    destruct (Pos.to_uint p); try discriminate. contradiction Hnil; reflexivity.
Qed.

Lemma allDigits_clean : forall s, allDigits s = true -> includes s " " = false.
Proof.
  induction s as [|ch s IH]; intros H; cbn [allDigits includes] in *; [reflexivity|].
  apply andb_true_iff in H. destruct H as [Hd Hs]. rewrite (IH Hs).
  apply isDigit_cases in Hd. each_char Hd; reflexivity.
Qed.

Lemma parseInt_numToString : forall n,
    0 <= n < 2 ^ 53 -> parseInt (numToString n) = Ok (Some n).
Proof.
  intros n Hn. destruct (numToString_value n ltac:(lia)) as (Hv & Hall & Hne).
  destruct (numToString n) as [|ch s'] eqn:Es; [contradiction Hne; reflexivity|].
  cbn [allDigits] in Hall. apply andb_true_iff in Hall. destruct Hall as [Hd Hs].
  unfold parseInt. rewrite Hv, Hd.
  assert (Hlt : (n <? 2 ^ 53) = true) by (apply Z.ltb_lt; lia).
  apply isDigit_cases in Hd. each_char Hd;
    try (cbv beta iota zeta; rewrite Hlt; reflexivity).
  destruct s' as [|d s'']; [cbv beta iota zeta; rewrite Hlt; reflexivity|].
  cbn [allDigits] in Hs. apply andb_true_iff in Hs. destruct Hs as [Hd' _].
  apply isDigit_cases in Hd'. each_char Hd';
    cbv beta iota zeta; rewrite Hlt; reflexivity.
Qed.

(** ** The other fields *)

Lemma turn_parse : forall t,
    (if String.eqb (partOr (Some (colorLetter t)) "w") "w" then WHITE else BLACK) = t /\
    includes (colorLetter t) " " = false.
Proof. intros []; split; reflexivity. Qed.

Lemma castling_parse : forall cs,
    let str := match castleLetters cs with
               | EmptyString => "-"%string
               | String _ _ => castleLetters cs
               end in
    mkCastling (includes (partOr (Some str) "KQkq") "K")
               (includes (partOr (Some str) "KQkq") "Q")
               (includes (partOr (Some str) "KQkq") "k")
               (includes (partOr (Some str) "KQkq") "q") = cs /\
    includes str " " = false.
Proof. intros [[|] [|] [|] [|]]; split; reflexivity. Qed.

Lemma enPassant_parse : forall e,
    inRange e ->
    exists str,
      (l <- fromCharCode (97 + col e) ;;
       Ok (l ++ numToString (8 - row e))%string) = Ok str /\
      parseEnPassant (Some str) = Ok (Some e) /\
      includes str " " = false.
Proof.
  intros [er ec] H. unfold inRange in H. apply inBounds_iff in H.
  cbn [row col] in *. destruct H as [Hr Hc].
  assert (Er : er = 0 \/ er = 1 \/ er = 2 \/ er = 3 \/ er = 4 \/ er = 5 \/
               er = 6 \/ er = 7) by lia.
  assert (Ec : ec = 0 \/ ec = 1 \/ ec = 2 \/ ec = 3 \/ ec = 4 \/ ec = 5 \/
               ec = 6 \/ ec = 7) by lia.
  clear Hr Hc.
  repeat (destruct Er as [Er|Er]); subst er;
    repeat (destruct Ec as [Ec|Ec]); subst ec;
    eexists; repeat split; reflexivity.
Qed.

(** X20.  For a state whose board has eight ranks of eight cells, whose
    en-passant target, if any, is a square of the board, whose half-move
    clock lies in 0 .. 2^53 - 1 and whose full-move number lies in
    1 .. 2^53 - 1, [boardToFEN] returns a string from which [parseFEN]
    reads back the board, the turn, the castling rights, the en-passant
    target and the two counters of the state. *)
Theorem parseFEN_boardToFEN : forall (s : GameState),
    wfBoard (board s) ->
    match enPassant s with Some e => inRange e | None => True end ->
    0 <= halfMoveClock s < 2 ^ 53 ->
    1 <= fullMoveNumber s < 2 ^ 53 ->
    exists fen,
      boardToFEN s = Ok fen /\
      parseFEN fen = Ok (mkParsed (board s) (turn s) (castling s) (enPassant s)
                                  (halfMoveClock s) (fullMoveNumber s)).
Proof.
  intros [b t cs ep hm fm mh cp mn go res] Hwf Hep Hhm Hfm.
  cbn [board turn castling enPassant halfMoveClock fullMoveNumber] in *.
  destruct (wfBoard_eight b Hwf) as (r0 & r1 & r2 & r3 & r4 & r5 & r6 & r7 & -> & Hrows).
  assert (Hlen : forall rw, In rw [r0; r1; r2; r3; r4; r5; r6; r7] ->
                            0 <= 0 /\ 0 + Z.of_nat (List.length rw) <= 9).
  { intros rw Hin. rewrite Forall_forall in Hrows. rewrite (Hrows rw Hin). lia. }
  assert (Hparse : forall rw, In rw [r0; r1; r2; r3; r4; r5; r6; r7] ->
                              parseRow (renderCells rw 0) = Ok rw).
  { intros rw Hin. destruct (Hlen rw Hin) as [H1 H2].
    rewrite (parseRow_renderCells rw 0 H1 H2). reflexivity. }
  assert (Hclean : forall rw, In rw [r0; r1; r2; r3; r4; r5; r6; r7] ->
                              includes (renderCells rw 0) "/" = false /\
                              includes (renderCells rw 0) " " = false).
  { intros rw Hin. destruct (Hlen rw Hin) as [H1 H2].
    apply renderCells_clean; assumption. }
  set (castle := match castleLetters cs with
                 | EmptyString => "-"%string
                 | String _ _ => castleLetters cs
                 end).
  assert (Hprint : exists epStr,
             match ep with
             | Some e =>
                 l <- fromCharCode (97 + col e) ;;
                 Ok (l ++ numToString (8 - row e))%string
             | None => Ok "-"%string
             end = Ok epStr /\
             parseEnPassant (Some epStr) = Ok ep /\
             includes epStr " " = false).
  { destruct ep as [e|].
    - destruct (enPassant_parse e Hep) as (str & H1 & H2 & H3). exists str. auto.
    - exists "-"%string. repeat split; reflexivity. }
  destruct Hprint as (epStr & Hprint & HparseEp & HcleanEp).
  destruct (numToString_value hm ltac:(lia)) as (_ & HallH & _).
  destruct (numToString_value fm ltac:(lia)) as (_ & HallF & _).
  destruct (turn_parse t) as [Hturn HcleanT].
  destruct (castling_parse cs) as [Hcastle HcleanC].
  fold castle in Hcastle, HcleanC.
  set (P := (renderCells r0 0 ++ String "/"
            (renderCells r1 0 ++ String "/"
            (renderCells r2 0 ++ String "/"
            (renderCells r3 0 ++ String "/"
            (renderCells r4 0 ++ String "/"
            (renderCells r5 0 ++ String "/"
            (renderCells r6 0 ++ String "/"
            (renderCells r7 0))))))))%string).
  exists (P ++ String " " (colorLetter t ++ String " " (castle ++ String " "
            (epStr ++ String " " (numToString hm ++ String " " (numToString fm))))))%string.
  split.
  - unfold boardToFEN. cbn [board turn castling enPassant halfMoveClock fullMoveNumber].
    rewrite (fenRows_eight _ _ _ _ _ _ _ _ Hrows). fold P. cbn [bind].
    rewrite Hprint. reflexivity.
  - assert (HcleanP : includes P " " = false).
    { unfold P.
      assert (Hsep : forall a b : string,
                 includes (a ++ String "/" b) " " = includes a " " || includes b " ").
      { intros a b. rewrite includes_app. reflexivity. }
      rewrite !Hsep.
      repeat match goal with
             | |- context [includes (renderCells ?rw 0) " "] =>
                 rewrite (proj2 (Hclean rw ltac:(simpl; tauto)))
             end.
      reflexivity. }
    assert (Hsplit : split " " (P ++ String " " (colorLetter t ++ String " "
                       (castle ++ String " " (epStr ++ String " "
                       (numToString hm ++ String " " (numToString fm))))))
                     = [P; colorLetter t; castle; epStr; numToString hm; numToString fm]).
    { apply split_six. repeat constructor; auto using allDigits_clean. }
    assert (Hranks : split "/" P
                     = [renderCells r0 0; renderCells r1 0; renderCells r2 0;
                        renderCells r3 0; renderCells r4 0; renderCells r5 0;
                        renderCells r6 0; renderCells r7 0]).
    { unfold P. apply split_eight.
      repeat constructor; apply Hclean; simpl; tauto. }
    unfold parseFEN. cbv zeta. rewrite Hsplit. cbn [nth nth_error].
    rewrite Hranks.
    rewrite (forEach_ranks _ _ _ _ _ _ _ _ r0 r1 r2 r3 r4 r5 r6 r7)
      by (apply Hparse; simpl; tauto).
    cbn [bind]. rewrite HparseEp. cbn [bind parseIntPart].
    rewrite (parseInt_numToString hm Hhm), (parseInt_numToString fm ltac:(lia)).
    cbn [bind orElse]. rewrite Hturn, Hcastle.
    destruct (Z.eqb_spec hm 0) as [->|_]; destruct (Z.eqb_spec fm 0) as [->|_];
      try lia; reflexivity.
Qed.

Lemma parseFEN_boardToFEN_witness :
  exists fen,
    boardToFEN (stateAfter startState pawnE4) = Ok fen /\
    parseFEN fen =
    Ok (mkParsed (board (stateAfter startState pawnE4))
                 (turn (stateAfter startState pawnE4))
                 (castling (stateAfter startState pawnE4))
                 (enPassant (stateAfter startState pawnE4))
                 (halfMoveClock (stateAfter startState pawnE4))
                 (fullMoveNumber (stateAfter startState pawnE4))).
Proof.
  apply (parseFEN_boardToFEN (stateAfter startState pawnE4)).
  - reflexivity.
  - vm_compute. reflexivity.
  - vm_compute. split; [discriminate|reflexivity].
  - vm_compute. split; [discriminate|reflexivity].
Defined.

(** * FEN: short inputs *)

(** X21.  [parseFEN] throws a [TypeError] on a string whose placement
    field has fewer than eight ranks, when the ranks that are there are
    made of digits and piece letters: the loop over the eight rows reads
    the length of a rank that does not exist. *)
Theorem parseFEN_few_ranks : forall (fen : string) (rows : list string),
    split "/" (nth 0 (split " " fen) EmptyString) = rows ->
    (List.length rows < 8)%nat ->
    Forall (fun s => exists cells, parseRow s = Ok cells) rows ->
    parseFEN fen = TypeError.
Proof.
  intros fen rows Hrows Hlen Hok. unfold parseFEN. cbv zeta. rewrite Hrows.
  assert (Hloop : forEach (fun r : Z =>
                             match nth_error rows (Z.to_nat r) with
                             | None => TypeError
                             | Some s => rw <- parseRow s ;; Ok [rw]
                             end) idx8 = TypeError).
  { destruct rows as [|s0 [|s1 [|s2 [|s3 [|s4 [|s5 [|s6 [|s7 [|s8 rows]]]]]]]]];
      simpl in Hlen; try lia;
      repeat match goal with
             | H : Forall _ (_ :: _) |- _ =>
                 let c := fresh "c" in
                 let Hc := fresh "Hc" in
                 let Hr := fresh "Hr" in
                 inversion H as [|? ? [c Hc] Hr]; subst; clear H
             end;
      simpl;
      repeat match goal with
             | H : parseRow _ = Ok _ |- _ => rewrite H; clear H; simpl
             end;
      reflexivity. }
  rewrite Hloop. reflexivity.
Qed.

Lemma parseFEN_few_ranks_witness : parseFEN "8/8/8 w - - 0 1" = TypeError.
Proof.
  apply (parseFEN_few_ranks "8/8/8 w - - 0 1" ["8"; "8"; "8"]%string).
  - reflexivity.
  - simpl; lia.
  - repeat constructor; eexists; reflexivity.
Defined.

(** X22.  A string without a space, that is a placement field alone, is
    read by [parseFEN] as if the fields [w KQkq - 0 1] followed it: White
    to move, all four castling rights, no en-passant target, half-move
    clock 0 and full-move number 1. *)
Theorem parseFEN_placement_only : forall (p : string),
    includes p " " = false ->
    parseFEN p = parseFEN (p ++ " w KQkq - 0 1").
Proof.
  intros p Hp.
  assert (H1 : split " " p = [p]) by (apply split_single; exact Hp).
  assert (H2 : split " " (p ++ " w KQkq - 0 1")
               = [p; "w"; "KQkq"; "-"; "0"; "1"]%string).
  { change (p ++ " w KQkq - 0 1")%string
      with (p ++ String " " ("w" ++ String " " ("KQkq" ++ String " "
              ("-" ++ String " " ("0" ++ String " " "1")))))%string.
    apply split_six. repeat constructor. exact Hp. }
  unfold parseFEN. cbv zeta. rewrite H1, H2. reflexivity.
Qed.

Lemma parseFEN_placement_only_witness :
  parseFEN "4k3/8/8/8/8/8/8/4K3" = parseFEN ("4k3/8/8/8/8/8/8/4K3" ++ " w KQkq - 0 1").
Proof.
  apply (parseFEN_placement_only "4k3/8/8/8/8/8/8/4K3"). reflexivity.
Defined.

(** * The static evaluation is symmetric *)

Lemma evalCols_rowSum : forall b r rw,
    rowAt b r = Some rw ->
    forall n k score,
      (k + n = List.length rw)%nat ->
      evalCols b r (map Z.of_nat (seq k n)) score
      = Ok (score + rowSum r (skipn k rw) (Z.of_nat k)).
Proof.
  intros b r rw Hrow n; induction n as [|n IH]; intros k score Hlen.
  - simpl. rewrite skipn_all2 by lia. simpl. f_equal. lia.
  - cbn [seq map evalCols]. unfold cellAt. rewrite Hrow.
    destruct (Z.leb_spec 0 (Z.of_nat k)); [|lia].
    rewrite Nat2Z.id. cbn [bind].
    rewrite (skipn_nth _ k rw None) by lia.
    cbn [rowSum]. replace (Z.of_nat k + 1) with (Z.of_nat (S k)) by lia.
    destruct (nth k rw None) as [pc|].
    + cbv zeta. rewrite IH by lia. unfold cellValue.
      destruct (color pc); f_equal; lia.
    + rewrite IH by lia. unfold cellValue. f_equal; lia.
Qed.

Lemma evalCols_full : forall b r rw score,
    rowAt b r = Some rw -> List.length rw = 8%nat ->
    evalCols b r idx8 score = Ok (score + rowSum r rw 0).
Proof.
  intros b r rw score Hrow Hlen.
  change idx8 with (map Z.of_nat (seq 0 8)).
  rewrite (evalCols_rowSum b r rw Hrow 8 0 score) by lia. reflexivity.
Qed.

Lemma cellValue_swap : forall r r' c cell,
    r + r' = 7 -> cellValue r c (swapColor cell) = - cellValue r' c cell.
Proof.
  intros r r' c [[col k]|] H; [|reflexivity]. unfold cellValue, swapColor.
  cbn [color type opponent].
  replace r' with (7 - r) by lia.
  destruct col; cbn [opponent].
  - lia.
  - replace (7 - (7 - r)) with r by lia. lia.
Qed.

Lemma rowSum_swap : forall r r' cells c,
    r + r' = 7 -> rowSum r (map swapColor cells) c = - rowSum r' cells c.
Proof.
  intros r r' cells; induction cells as [|cell cells IH]; intros c H; simpl.
  - reflexivity.
  - rewrite (cellValue_swap r r' c cell H), (IH (c + 1) H). lia.
Qed.

Lemma evaluate_rows : forall r0 r1 r2 r3 r4 r5 r6 r7 : list Cell,
    Forall (fun rw : list Cell => List.length rw = 8%nat)
           [r0; r1; r2; r3; r4; r5; r6; r7] ->
    evalRows [r0; r1; r2; r3; r4; r5; r6; r7] idx8 0
    = Ok (rowSum 0 r0 0 + rowSum 1 r1 0 + rowSum 2 r2 0 + rowSum 3 r3 0
          + rowSum 4 r4 0 + rowSum 5 r5 0 + rowSum 6 r6 0 + rowSum 7 r7 0).
Proof.
  intros r0 r1 r2 r3 r4 r5 r6 r7 H. rewrite Forall_forall in H.
  unfold idx8 at 1. cbn [evalRows].
  rewrite (evalCols_full _ 0 r0) by (reflexivity || (apply H; simpl; tauto)).
  cbn [bind].
  rewrite (evalCols_full _ 1 r1) by (reflexivity || (apply H; simpl; tauto)).
  cbn [bind].
  rewrite (evalCols_full _ 2 r2) by (reflexivity || (apply H; simpl; tauto)).
  cbn [bind].
  rewrite (evalCols_full _ 3 r3) by (reflexivity || (apply H; simpl; tauto)).
  cbn [bind].
  rewrite (evalCols_full _ 4 r4) by (reflexivity || (apply H; simpl; tauto)).
  cbn [bind].
  rewrite (evalCols_full _ 5 r5) by (reflexivity || (apply H; simpl; tauto)).
  cbn [bind].
  rewrite (evalCols_full _ 6 r6) by (reflexivity || (apply H; simpl; tauto)).
  cbn [bind].
  rewrite (evalCols_full _ 7 r7) by (reflexivity || (apply H; simpl; tauto)).
  cbn [bind]. f_equal.
Qed.

(** X23.  On a board of eight ranks of eight cells, [evaluate] gives the
    board seen from the other side (ranks in reverse order, colours
    exchanged) the opposite score: material and piece-square values are
    counted alike for the two colours. *)
Theorem evaluate_mirror : forall (s s' : GameState),
    wfBoard (board s) -> board s' = mirror (board s) ->
    exists v, evaluate s = Ok v /\ evaluate s' = Ok (- v).
Proof.
  intros s s' Hwf Hm. unfold evaluate. rewrite Hm.
  destruct (wfBoard_eight _ Hwf) as (r0 & r1 & r2 & r3 & r4 & r5 & r6 & r7 & -> & Hrows).
  rewrite (evaluate_rows _ _ _ _ _ _ _ _ Hrows).
  eexists. split; [reflexivity|].
  unfold mirror. cbn [map rev app].
  rewrite evaluate_rows.
  - rewrite (rowSum_swap 0 7), (rowSum_swap 1 6), (rowSum_swap 2 5),
      (rowSum_swap 3 4), (rowSum_swap 4 3), (rowSum_swap 5 2),
      (rowSum_swap 6 1), (rowSum_swap 7 0) by reflexivity.
    f_equal. lia.
  - rewrite Forall_forall in Hrows.
    repeat constructor; rewrite length_map; apply Hrows; simpl; tauto.
Qed.

Lemma evaluate_mirror_witness :
  exists v,
    evaluate (fromFEN queenHangsFEN) = Ok v /\
    evaluate (blankState (mirror (board (fromFEN queenHangsFEN))) BLACK) = Ok (- v).
Proof.
  apply (evaluate_mirror (fromFEN queenHangsFEN)
                         (blankState (mirror (board (fromFEN queenHangsFEN))) BLACK));
    reflexivity.
Defined.

(** * Castling rights are only ever lost *)

Lemma clearRight_le : forall cs c side c' side',
    right (clearRight cs c side) c' side' = true -> right cs c' side' = true.
Proof.
  intros [a1 a2 a3 a4] [|] [|] [|] [|]; simpl; intros H;
    first [exact H | discriminate].
Qed.

Lemma clearRight_same : forall cs c side, right (clearRight cs c side) c side = false.
Proof. intros [a1 a2 a3 a4] [|] [|]; reflexivity. Qed.

Lemma updateCastling_le : forall cs piece capt fromCol toCol c side,
    right (updateCastling cs piece capt fromCol toCol) c side = true ->
    right cs c side = true.
Proof.
  intros cs piece capt fromCol toCol c side. unfold updateCastling.
  destruct (type_eqb (type piece) KING), (type_eqb (type piece) ROOK),
    (fromCol =? 0), (fromCol =? 7);
    destruct capt as [cp|];
    try (destruct (type_eqb (type cp) ROOK), (toCol =? 0), (toCol =? 7));
    cbv zeta; intros H;
    repeat match type of H with
           | right (clearRight _ _ _) _ _ = true => apply clearRight_le in H
           end;
    exact H.
Qed.

Lemma updateCastling_king : forall cs piece capt fromCol toCol side,
    type piece = KING ->
    right (updateCastling cs piece capt fromCol toCol) (color piece) side = false.
Proof.
  intros cs piece capt fromCol toCol side Hk.
  destruct (right (updateCastling cs piece capt fromCol toCol) (color piece) side)
    eqn:E; [|reflexivity].
  exfalso. revert E. unfold updateCastling. rewrite Hk. cbn [type_eqb].
  cbv zeta.
  assert (Hbase : right (clearRight (clearRight cs (color piece) SideK)
                                    (color piece) SideQ) (color piece) side = false).
  { destruct cs as [a1 a2 a3 a4], (color piece), side; reflexivity. }
  destruct capt as [cp|];
    try (destruct (type_eqb (type cp) ROOK), (toCol =? 0), (toCol =? 7));
    intros H;
    repeat match type of H with
           | right (clearRight (clearRight (clearRight _ _ _) _ _) _ _) _ _ = true =>
               apply clearRight_le in H
           end;
    congruence.
Qed.

(** X24.  A move that [makeMove] applies never gives back a castling
    right: every right that is set in the returned state was set before
    the move; and after a move of a king both rights of its colour are
    cleared. *)
Theorem makeMove_castling_lost : forall (s : GameState) (m : Move) (s' : GameState),
    makeMove s m = Ok (Some s') ->
    (forall c side, right (castling s') c side = true ->
                    right (castling s) c side = true) /\
    exists pc,
      cellAt (board s) (row (from m)) (col (from m)) = Ok (Some pc) /\
      (type pc = KING ->
       forall side, right (castling s') (color pc) side = false).
Proof.
  intros s m s' H. apply makeMove_inv in H.
  destruct H as (pc & capt & replies & inCheck & Hpc & _ & _ & _ & Hc & _).
  split.
  - intros c side Hr. rewrite Hc in Hr. eapply updateCastling_le; eauto.
  - exists pc. split; [exact Hpc|]. intros Hk side. rewrite Hc.
    apply updateCastling_king. exact Hk.
Qed.

Lemma makeMove_castling_lost_witness :
  makeMove (fromFEN castleFEN) kingSlide
  = Ok (Some (stateAfter (fromFEN castleFEN) kingSlide)) /\
  (forall c side,
      right (castling (stateAfter (fromFEN castleFEN) kingSlide)) c side = true ->
      right (castling (fromFEN castleFEN)) c side = true) /\
  exists pc,
    cellAt (board (fromFEN castleFEN)) (row (from kingSlide)) (col (from kingSlide))
    = Ok (Some pc) /\
    (type pc = KING ->
     forall side,
       right (castling (stateAfter (fromFEN castleFEN) kingSlide)) (color pc) side
       = false).
Proof.
  split; [vm_compute; reflexivity|].
  apply (makeMove_castling_lost (fromFEN castleFEN) kingSlide
                                (stateAfter (fromFEN castleFEN) kingSlide)).
  vm_compute; reflexivity.
Defined.
